(** * Link router bot (src/bot.js): a shallow embedding and its properties

    The development follows the source file top-down:
    - [JS]: strings as UTF-16 code units, the regular expressions the bot
      uses, [RegExp.prototype.test] and [String.prototype.match] with the
      [g] flag;
    - the program itself: the category table, the classifier, the embed
      composer, the platform (discord.js) calls as a small
      state-and-exception monad that also records the calls made, the
      thread consolidator, the destination registry, the backfill scanner
      and the live handler;
    - [Fixture]: a small community to run the program on;
    - the vocabulary of the statements, then the theorems, one group per
      component. *)

From Stdlib Require Import ZArith NArith List String Ascii Bool Lia.
From stdpp Require Import base option list gmap.

Set Default Proof Using "Type".
Local Open Scope N_scope.

(* ===================================================================== *)
(** ** JavaScript strings and regular expressions *)
(* ===================================================================== *)

Module JS.

(** A JavaScript string is a sequence of UTF-16 code units. *)
Abbreviation jsstring := (list N).

(** An ASCII literal of the source. *)
Definition lit (s : string) : jsstring :=
  List.map N_of_ascii (list_ascii_of_string s).

(** [Canonicalize] of a non-unicode, ignore-case regular expression,
    restricted to what an ASCII pattern can observe: a code unit is mapped
    to its upper case; a code unit >= 128 is never mapped into ASCII, so
    for the comparison with an ASCII pattern character it stays itself. *)
Definition canon (c : N) : N :=
  if (97 <=? c) && (c <=? 122) then c - 32 else c.

Definition ci_eq (p c : N) : bool := canon p =? canon c.

(** [\s]: WhiteSpace and LineTerminator of ECMAScript. *)
Definition is_space (c : N) : bool :=
  ((9 <=? c) && (c <=? 13)) || (c =? 32) || (c =? 160) || (c =? 5760)
  || ((8192 <=? c) && (c <=? 8202)) || (c =? 8232) || (c =? 8233)
  || (c =? 8239) || (c =? 8287) || (c =? 12288) || (c =? 65279).

(** [\S] *)
Definition non_space (c : N) : bool := negb (is_space c).

(** The fragment of regular expressions that the source uses: literal
    characters (compared under [canon], all three patterns carry the [i]
    flag), character classes, sequence, alternative, the greedy optional
    group, and greedy [*] and [+] over a character class. The classes of
    the source hold no letter, so [canon] does not bear on them; the
    optional groups of the source cannot match the empty string, so the
    rule that refuses an empty iteration never applies. *)
Inductive regex : Type :=
| REps
| RChar (c : N)
| RClass (p : N -> bool)
| RSeq (r1 r2 : regex)
| RAlt (r1 r2 : regex)
| ROpt (r : regex)
| RStar (p : N -> bool)
| RPlus (p : N -> bool).

Fixpoint rchars (cs : jsstring) : regex :=
  match cs with
  | [] => REps
  | [c] => RChar c
  | c :: cs' => RSeq (RChar c) (rchars cs')
  end.

Definition rstr (s : string) : regex := rchars (lit s).

(** Greedy iteration of a class, with backtracking into the continuation. *)
Fixpoint star_m (p : N -> bool) (k : jsstring -> option jsstring)
    (s : jsstring) : option jsstring :=
  match s with
  | c :: s' =>
      if p c then
        match star_m p k s' with
        | Some r => Some r
        | None => k s
        end
      else k s
  | [] => k []
  end.

(** The backtracking matcher of the ECMAScript specification in
    continuation-passing style: [rmatch r k s] matches [r] at the head of
    [s] and hands the rest to [k]; the first success in priority order
    wins. The result is the input that remains after the whole match. *)
Fixpoint rmatch (r : regex) (k : jsstring -> option jsstring)
    (s : jsstring) : option jsstring :=
  match r with
  | REps => k s
  | RChar c =>
      match s with
      | x :: s' => if ci_eq c x then k s' else None
      | [] => None
      end
  | RClass p =>
      match s with
      | x :: s' => if p x then k s' else None
      | [] => None
      end
  | RSeq r1 r2 => rmatch r1 (rmatch r2 k) s
  | RAlt r1 r2 =>
      match rmatch r1 k s with
      | Some x => Some x
      | None => rmatch r2 k s
      end
  | ROpt r1 =>
      match rmatch r1 k s with
      | Some x => Some x
      | None => k s
      end
  | RStar p => star_m p k s
  | RPlus p =>
      match s with
      | x :: s' => if p x then star_m p k s' else None
      | [] => None
      end
  end.

(** A match attempt at the head of [s]. *)
Definition exec_at (r : regex) (s : jsstring) : option jsstring :=
  rmatch r Some s.

(** [r.test(s)] for a pattern without the [g] flag: is there a position
    where the pattern matches? *)
Fixpoint test (r : regex) (s : jsstring) : bool :=
  match exec_at r s with
  | Some _ => true
  | None =>
      match s with
      | [] => false
      | _ :: s' => test r s'
      end
  end.

(** The successive matches of a [g] pattern, left to right. [skip] counts
    the code units of the current match still to be passed over; an empty
    match advances by one position. *)
Fixpoint match_from (r : regex) (skip : nat) (s : jsstring)
    : list jsstring :=
  match s with
  | [] =>
      match skip, exec_at r [] with
      | O, Some _ => [[]]
      | _, _ => []
      end
  | _ :: s' =>
      match skip with
      | S n => match_from r n s'
      | O =>
          match exec_at r s with
          | Some rest =>
              let m := firstn (List.length s - List.length rest) s in
              m :: match_from r (List.length m - 1) s'
          | None => match_from r 0 s'
          end
      end
  end.

(** [s.match(r)] for a [g] pattern: [null] when nothing matches. *)
Definition str_match (r : regex) (s : jsstring) : option (list jsstring) :=
  match match_from r 0 s with
  | [] => None
  | ms => Some ms
  end.

(** [s.includes(t)] *)
Fixpoint starts_with (t s : jsstring) : bool :=
  match t, s with
  | [], _ => true
  | a :: t', b :: s' => (a =? b) && starts_with t' s'
  | _ :: _, [] => false
  end.

Fixpoint includes (s t : jsstring) : bool :=
  starts_with t s ||
  match s with
  | [] => false
  | _ :: s' => includes s' t
  end.

(** [arr.join(sep)] *)
Fixpoint join (sep : jsstring) (xs : list jsstring) : jsstring :=
  match xs with
  | [] => []
  | [x] => x
  | x :: xs' => x ++ sep ++ join sep xs'
  end.

(** Decimal rendering of an integer, as [String(n)] of template literals. *)
Fixpoint digits (fuel : nat) (n : N) (acc : jsstring) : jsstring :=
  match fuel with
  | O => acc
  | S f =>
      let acc' := (48 + n mod 10) :: acc in
      if n <? 10 then acc' else digits f (n / 10) acc'
  end.

Definition decimal (n : N) : jsstring := digits (S (N.to_nat (N.log2 n))) n [].

(** A code point beyond the basic plane, as its surrogate pair. *)
Definition astral (cp : N) : jsstring :=
  [0xD800 + (cp - 0x10000) / 1024; 0xDC00 + (cp - 0x10000) mod 1024].

(** [s === t] on strings *)
Fixpoint str_eqb (s t : jsstring) : bool :=
  match s, t with
  | [], [] => true
  | a :: s', b :: t' => (a =? b) && str_eqb s' t'
  | _, _ => false
  end.

(** [s.split('\n')[0]] *)
Fixpoint first_line (s : jsstring) : jsstring :=
  match s with
  | [] => []
  | c :: s' => if c =? 10 then [] else c :: first_line s'
  end.

(** [s.trim()] *)
Fixpoint trim_start (s : jsstring) : jsstring :=
  match s with
  | c :: s' => if is_space c then trim_start s' else s
  | [] => []
  end.

Definition trim (s : jsstring) : jsstring :=
  rev (trim_start (rev (trim_start s))).

(** [s.substring(0, n)] *)
Definition substring0 (n : nat) (s : jsstring) : jsstring := firstn n s.

Definition decimalZ (z : Z) : jsstring :=
  match z with
  | Zneg p => 45 :: decimal (Npos p)
  | _ => decimal (Z.to_N z)
  end.

End JS.


Import JS.

(* ===================================================================== *)
(** ** The program: configuration and pure helpers *)
(* ===================================================================== *)

(** [new Date(Date.UTC(y, m, d))] in milliseconds since the epoch, by the
    days-from-civil computation (months count from 1). *)
Definition days_from_civil (y m d : Z) : Z :=
  (let y' := if m <=? 2 then y - 1 else y in
   let era := y' / 400 in
   let yoe := y' - era * 400 in
   let mp := (m + 9) mod 12 in
   let doy := (153 * mp + 2) / 5 + d - 1 in
   let doe := yoe * 365 + yoe / 4 - yoe / 100 + doy in
   era * 146097 + doe - 719468)%Z.

(** [new Date('2026-01-01T00:00:00Z')] *)
Definition BACKFILL_AFTER : Z := (days_from_civil 2026 1 1 * 86400000)%Z.

(** URL_REGEX: the scheme [https?://] followed by one or more code units
    that are neither white space nor one of the eleven excluded
    characters: less-than, greater-than, the double quote, the two curly
    braces, the vertical bar, the backslash, the caret, the backquote and
    the two square brackets; flags [g] and [i]. *)
Definition url_char (c : N) : bool :=
  negb (is_space c
        || (c =? 60) || (c =? 62) || (c =? 34) || (c =? 123) || (c =? 125)
        || (c =? 124) || (c =? 92) || (c =? 94) || (c =? 96)
        || (c =? 91) || (c =? 93)).

Definition scheme_re : regex :=
  RSeq (rstr "http") (RSeq (ROpt (RChar 115)) (rstr "://")).

Definition URL_REGEX : regex := RSeq scheme_re (RPlus url_char).

(** The optional tail of both category patterns: a slash followed by any
    number of non-space code units, the whole group optional. *)
Definition path_re : regex := ROpt (RSeq (RChar 47) (RStar non_space)).

(** YOUTUBE_REGEX: the scheme, an optional [www.], one of the hosts
    [youtube.com], [youtu.be], [m.youtube.com], and the optional tail;
    flag [i]. *)
Definition youtube_host_re : regex :=
  RSeq (ROpt (rstr "www."))
    (RSeq (RAlt (rstr "youtube.com")
             (RAlt (rstr "youtu.be") (rstr "m.youtube.com")))
       path_re).

Definition YOUTUBE_REGEX : regex := RSeq scheme_re youtube_host_re.

(** STEAM_REGEX: the scheme, the host [store.steampowered.com] and the
    optional tail; flag [i]. *)
Definition STEAM_REGEX : regex :=
  RSeq scheme_re (RSeq (rstr "store.steampowered.com") path_re).

Inductive Category : Type := youtube | steam | other.

Definition Category_eqb (a b : Category) : bool :=
  match a, b with
  | youtube, youtube | steam, steam | other, other => true
  | _, _ => false
  end.

Record CategoryConfig : Type := {
  cfg_regex : option regex;
  cfg_color : N;
  cfg_icon : jsstring;
  cfg_title : jsstring;
  cfg_channelName : jsstring;
  cfg_topic : jsstring
}.

Definition em_dash : N := 0x2014.
Definition topic_tail : jsstring :=
  lit " create a thread under any link to discuss it!".

Definition CATEGORIES (c : Category) : CategoryConfig :=
  match c with
  | youtube =>
      {| cfg_regex := Some YOUTUBE_REGEX;
         cfg_color := 0xff0000;
         cfg_icon := astral 0x1F4FA;
         cfg_title := lit "YouTube Link";
         cfg_channelName := lit "youtube";
         cfg_topic := astral 0x1F4FA ++ lit " YouTube links only "
                        ++ [em_dash] ++ topic_tail |}
  | steam =>
      {| cfg_regex := Some STEAM_REGEX;
         cfg_color := 0x1b2838;
         cfg_icon := astral 0x1F3AE;
         cfg_title := lit "Steam Store Link";
         cfg_channelName := lit "games";
         cfg_topic := astral 0x1F3AE ++ lit " Steam links only "
                        ++ [em_dash] ++ topic_tail |}
  | other =>
      {| cfg_regex := None;
         cfg_color := 0x3498db;
         cfg_icon := astral 0x1F517;
         cfg_title := lit "Links";
         cfg_channelName := lit "links-channel";
         cfg_topic := astral 0x1F517 ++ lit " Links only "
                        ++ [em_dash] ++ topic_tail |}
  end.

Definition categorizeUrl (url : jsstring) : Category :=
  if test YOUTUBE_REGEX url then youtube
  else if test STEAM_REGEX url then steam
  else other.

(** [content.match(URL_REGEX)] *)
Definition extractUrls (content : jsstring) : option (list jsstring) :=
  str_match URL_REGEX content.

(** The [grouped] object: the keys in insertion order, as
    [Object.entries] lists them. *)
Abbreviation Grouped := (list (Category * list jsstring)).

Fixpoint group_push (g : Grouped) (c : Category) (url : jsstring) : Grouped :=
  match g with
  | [] => [(c, [url])]
  | (c', us) :: g' =>
      if Category_eqb c' c then (c', us ++ [url]) :: g'
      else (c', us) :: group_push g' c url
  end.

Definition groupUrls (urls : list jsstring) : Grouped :=
  fold_left (fun g url => group_push g (categorizeUrl url) url) urls [].

(* ===================================================================== *)
(** ** The objects of the chat platform *)
(* ===================================================================== *)

Inductive ChannelType : Type :=
| GuildText | GuildVoice | GuildCategory | DM
| AnnouncementThread | PublicThread | PrivateThread.

Record Channel : Type := {
  ch_id : jsstring;
  ch_name : option jsstring;        (* a direct-message channel has none *)
  ch_type : ChannelType;
  ch_guild : option jsstring;       (* [message.guild] is the channel's *)
  (* [ch.permissionsFor(guild.members.me)?.has([ViewChannel,
     ReadMessageHistory, ManageMessages])] *)
  ch_scannable : bool
}.

(** [channel.isThread()] *)
Definition isThread (ch : Channel) : bool :=
  match ch_type ch with
  | AnnouncementThread | PublicThread | PrivateThread => true
  | _ => false
  end.

Definition is_GuildText (ch : Channel) : bool :=
  match ch_type ch with GuildText => true | _ => false end.

Record User : Type := {
  user_id : jsstring;
  username : jsstring;
  displayName : jsstring;
  bot : bool;
  (* the method [displayAvatarURL({ dynamic: true, size })], by size *)
  displayAvatarURL : N -> jsstring
}.

(** [user.displayName || user.username] *)
Definition shown_name (u : User) : jsstring :=
  match displayName u with
  | [] => username u
  | n => n
  end.

Record Attachment : Type := { att_url : jsstring; att_name : jsstring }.

Record Embed : Type := {
  e_color : N;
  e_author_name : jsstring;
  e_author_icon : jsstring;
  e_title : option jsstring;
  e_description : option jsstring;
  e_footer : jsstring;
  e_thumbnail : jsstring;
  e_timestamp : Z
}.

Record Message : Type := {
  msg_id : N;
  msg_author : User;
  msg_content : jsstring;
  msg_embeds : list Embed;
  msg_attachments : list Attachment;
  msg_createdAt : Z;               (* milliseconds since the epoch *)
  msg_hasThread : bool;
  msg_channel : Channel
}.

Definition msg_guild (m : Message) : option jsstring :=
  ch_guild (msg_channel m).

(** A thread started on a message carries the id of that message. *)
Record Thread : Type := {
  th_id : N;
  th_archived : bool;
  th_name : jsstring;
  th_autoArchive : N
}.

(** [thread.toString()] *)
Definition thread_mention (t : Thread) : jsstring :=
  lit "<#" ++ decimal (th_id t) ++ lit ">".

(** The argument of [send]. *)
Record Payload : Type := {
  p_content : option jsstring;
  p_files : list (jsstring * jsstring);   (* attachment url, name *)
  p_embeds : list Embed
}.

Definition text_payload (s : jsstring) : Payload :=
  {| p_content := Some s; p_files := []; p_embeds := [] |}.

Definition embed_payload (e : Embed) : Payload :=
  {| p_content := None; p_files := []; p_embeds := [e] |}.

Inductive Perm : Type :=
| ViewChannel | SendMessages | SendMessagesInThreads | CreatePublicThreads
| CreatePrivateThreads | ReadMessageHistory | AddReactions | ManageMessages
| ManageThreads | EmbedLinks.

Inductive PermTarget : Type := EveryoneRole | BotMember.

(** The calls the program makes on the platform, with their arguments, and
    the two timers it sets. *)
Inductive Action : Type :=
| AFetch (ch : Channel) (limit : nat) (before : option N)
| ADelete (m : Message)
| ASend (ch : Channel) (p : Payload)
| AThreadSend (t : Thread) (p : Payload)
| AThreadFetch (t : Thread)
| ASetArchived (t : Thread) (archived : bool)
| AStartThread (m : Message) (name : jsstring) (autoArchive : N)
| ACreateChannel (guild name topic : jsstring)
| APermEdit (ch : Channel) (who : PermTarget) (table : list (Perm * bool))
| ADeleteAfter (ms : N) (m : Message)   (* setTimeout(() => m.delete()...) *)
| ASleep (ms : N).

(** The destination channel cache, an object with the three category
    keys. *)
Record DestCache : Type := {
  dc_youtube : option Channel;
  dc_steam : option Channel;
  dc_other : option Channel
}.

Definition dc_get (d : DestCache) (c : Category) : option Channel :=
  match c with
  | youtube => dc_youtube d
  | steam => dc_steam d
  | other => dc_other d
  end.

Definition dc_set (d : DestCache) (c : Category) (ch : Channel) : DestCache :=
  match c with
  | youtube => {| dc_youtube := Some ch; dc_steam := dc_steam d; dc_other := dc_other d |}
  | steam => {| dc_youtube := dc_youtube d; dc_steam := Some ch; dc_other := dc_other d |}
  | other => {| dc_youtube := dc_youtube d; dc_steam := dc_steam d; dc_other := Some ch |}
  end.

(** The state: the module-level variables of the program, and what the
    program can observe of the platform. [faults] decides the outcome of
    the coming platform calls, one entry per call ([true]: the call
    rejects); when it is exhausted every call succeeds. *)
Record World : Type := mkWorld {
  YOUTUBE_CHANNEL_ID : jsstring;
  STEAM_CHANNEL_ID : jsstring;
  LINKS_CHANNEL_ID : jsstring;
  destinationChannels : DestCache;
  client_user : User;
  guild_channels : gmap jsstring (list Channel); (* guild.channels.cache *)
  history : gmap jsstring (list Message);        (* newest first *)
  threads : gmap N Thread;
  clock : Z;
  next_id : N;
  faults : list bool
}.

Definition set_ids (y s l : jsstring) (w : World) : World :=
  mkWorld y s l (destinationChannels w) (client_user w) (guild_channels w)
    (history w) (threads w) (clock w) (next_id w) (faults w).

Definition set_dest (d : DestCache) (w : World) : World :=
  mkWorld (YOUTUBE_CHANNEL_ID w) (STEAM_CHANNEL_ID w) (LINKS_CHANNEL_ID w) d
    (client_user w) (guild_channels w) (history w) (threads w) (clock w)
    (next_id w) (faults w).

Definition set_guild_channels (g : gmap jsstring (list Channel)) (w : World)
    : World :=
  mkWorld (YOUTUBE_CHANNEL_ID w) (STEAM_CHANNEL_ID w) (LINKS_CHANNEL_ID w)
    (destinationChannels w) (client_user w) g (history w) (threads w)
    (clock w) (next_id w) (faults w).

Definition set_history (h : gmap jsstring (list Message)) (w : World) : World :=
  mkWorld (YOUTUBE_CHANNEL_ID w) (STEAM_CHANNEL_ID w) (LINKS_CHANNEL_ID w)
    (destinationChannels w) (client_user w) (guild_channels w) h (threads w)
    (clock w) (next_id w) (faults w).

Definition set_threads (t : gmap N Thread) (w : World) : World :=
  mkWorld (YOUTUBE_CHANNEL_ID w) (STEAM_CHANNEL_ID w) (LINKS_CHANNEL_ID w)
    (destinationChannels w) (client_user w) (guild_channels w) (history w) t
    (clock w) (next_id w) (faults w).

Definition set_next_id (n : N) (w : World) : World :=
  mkWorld (YOUTUBE_CHANNEL_ID w) (STEAM_CHANNEL_ID w) (LINKS_CHANNEL_ID w)
    (destinationChannels w) (client_user w) (guild_channels w) (history w)
    (threads w) (clock w) n (faults w).

Definition set_faults (f : list bool) (w : World) : World :=
  mkWorld (YOUTUBE_CHANNEL_ID w) (STEAM_CHANNEL_ID w) (LINKS_CHANNEL_ID w)
    (destinationChannels w) (client_user w) (guild_channels w) (history w)
    (threads w) (clock w) (next_id w) f.

(** The messages of a channel and the channels of a guild. *)
Definition messages_of (w : World) (ch : jsstring) : list Message :=
  default [] (history w !! ch).

Definition channels_of (w : World) (g : jsstring) : list Channel :=
  default [] (guild_channels w !! g).

(* ===================================================================== *)
(** ** Effects: state, rejected promises, and the record of calls *)
(* ===================================================================== *)

(** How an [async] body ends: with a value, with a rejection (the error
    object is only ever logged, so it is not kept), or, for the one
    unbounded loop of the program, with the loop budget of the model
    exhausted. *)
Inductive Outcome (A : Type) : Type :=
| Ok (a : A)
| Throw
| OutOfFuel.
Arguments Ok {A} a.
Arguments Throw {A}.
Arguments OutOfFuel {A}.

Record Res (A : Type) : Type := mkRes {
  out : Outcome A;
  world : World;
  acts : list Action
}.
Arguments mkRes {A} out world acts.
Arguments out {A} r.
Arguments world {A} r.
Arguments acts {A} r.

Definition M (A : Type) : Type := World -> Res A.

Definition ret {A} (a : A) : M A := fun w => mkRes (Ok a) w [].

Definition bind {A B} (m : M A) (f : A -> M B) : M B := fun w =>
  let r := m w in
  match out r with
  | Ok a =>
      let r' := f a (world r) in
      mkRes (out r') (world r') (acts r ++ acts r')
  | Throw => mkRes Throw (world r) (acts r)
  | OutOfFuel => mkRes OutOfFuel (world r) (acts r)
  end.

Declare Scope bot_scope.
Delimit Scope bot_scope with bot.
Notation "'let*' x ':=' m 'in' k" := (bind m (fun x => k))
  (at level 10, x pattern, m at level 100, k at level 200) : bot_scope.
Notation "m ';;' k" := (bind m (fun _ => k))
  (at level 100, k at level 200, right associativity) : bot_scope.
Local Open Scope bot_scope.

(** [try { m } catch (err) { h }] *)
Definition tryCatch {A} (m : M A) (h : M A) : M A := fun w =>
  let r := m w in
  match out r with
  | Throw =>
      let r' := h (world r) in
      mkRes (out r') (world r') (acts r ++ acts r')
  | _ => r
  end.

(** Reading a module-level variable or a cached platform object. *)
Definition gets {A} (f : World -> A) : M A := fun w => mkRes (Ok (f w)) w [].

Definition modify (f : World -> World) : M unit := fun w => mkRes (Ok tt) (f w) [].

(** A timer that is set and not awaited. *)
Definition emit (a : Action) : M unit := fun w => mkRes (Ok tt) w [a].

(** A call on the platform: it is recorded, and it rejects when the next
    entry of [faults] says so, or when the platform itself refuses it. *)
Definition platform {A} (a : Action) (k : World -> Outcome A * World) : M A :=
  fun w =>
    match faults w with
    | true :: fs => mkRes Throw (set_faults fs w) [a]
    | _ :: fs => let (o, w') := k (set_faults fs w) in mkRes o w' [a]
    | [] => let (o, w') := k w in mkRes o w' [a]
    end.

(** [channel.messages.fetch({ limit, before })]: the [limit] newest
    messages, those older than [before] when it is given. *)
Definition older_than (before : option N) (m : Message) : bool :=
  match before with
  | Some b => msg_id m <? b
  | None => true
  end.

Definition fetchMessages (ch : Channel) (limit : nat) (before : option N)
    : M (list Message) :=
  platform (AFetch ch limit before) (fun w =>
    (Ok (firstn limit (List.filter (older_than before) (messages_of w (ch_id ch)))), w)).

(** [message.delete()] *)
Definition msgDelete (m : Message) : M unit :=
  platform (ADelete m) (fun w =>
    let c := ch_id (msg_channel m) in
    (Ok tt,
     set_history
       (<[c := List.filter (fun x => negb (msg_id x =? msg_id m)) (messages_of w c)]>
          (history w)) w)).

(** [channel.send(payload)]: the platform stores a message authored by the
    program's own identity and returns it. *)
Definition sent_message (w : World) (ch : Channel) (p : Payload) : Message :=
  {| msg_id := next_id w;
     msg_author := client_user w;
     msg_content := default [] (p_content p);
     msg_embeds := p_embeds p;
     msg_attachments := [];
     msg_createdAt := clock w;
     msg_hasThread := false;
     msg_channel := ch |}.

Definition chSend (ch : Channel) (p : Payload) : M Message :=
  platform (ASend ch p) (fun w =>
    let m := sent_message w ch p in
    (Ok m,
     set_next_id (next_id w + 1)
       (set_history (<[ch_id ch := m :: messages_of w (ch_id ch)]> (history w)) w))).

(** [thread.send(payload)]; the program never reads a thread's posts. *)
Definition threadSend (t : Thread) (p : Payload) : M unit :=
  platform (AThreadSend t p) (fun w => (Ok tt, w)).

(** [thread.fetch()]: rejects when the thread is gone. *)
Definition threadFetch (t : Thread) : M Thread :=
  platform (AThreadFetch t) (fun w =>
    match threads w !! th_id t with
    | Some t' => (Ok t', w)
    | None => (Throw, w)
    end).

(** [thread.setArchived(b)]: the thread object is patched in place. *)
Definition with_archived (b : bool) (t : Thread) : Thread :=
  {| th_id := th_id t; th_archived := b; th_name := th_name t;
     th_autoArchive := th_autoArchive t |}.

Definition setArchived (t : Thread) (b : bool) : M Thread :=
  platform (ASetArchived t b) (fun w =>
    let t' := with_archived b t in
    (Ok t', set_threads (<[th_id t := t']> (threads w)) w)).

(** [message.startThread({ name, autoArchiveDuration })]: the new thread
    has the id of its message, and the message is flagged from then on. *)
Definition with_hasThread (m : Message) : Message :=
  {| msg_id := msg_id m; msg_author := msg_author m;
     msg_content := msg_content m; msg_embeds := msg_embeds m;
     msg_attachments := msg_attachments m; msg_createdAt := msg_createdAt m;
     msg_hasThread := true; msg_channel := msg_channel m |}.

Definition startThread (m : Message) (name : jsstring) (dur : N) : M Thread :=
  platform (AStartThread m name dur) (fun w =>
    let t := {| th_id := msg_id m; th_archived := false; th_name := name;
                th_autoArchive := dur |} in
    let c := ch_id (msg_channel m) in
    (Ok t,
     set_threads (<[msg_id m := t]> (threads w))
       (set_history
          (<[c := List.map (fun x => if msg_id x =? msg_id m then with_hasThread x else x)
                    (messages_of w c)]> (history w)) w))).

(** [cache.set(id, ch)] of a Map: an existing key keeps its place. *)
Fixpoint cache_set (ch : Channel) (l : list Channel) : list Channel :=
  match l with
  | [] => [ch]
  | x :: l' =>
      if str_eqb (ch_id x) (ch_id ch) then ch :: l' else x :: cache_set ch l'
  end.

(** [guild.channels.create({ name, type: GuildText, topic })] *)
Definition createChannel (guild name topic : jsstring) : M Channel :=
  platform (ACreateChannel guild name topic) (fun w =>
    let ch := {| ch_id := decimal (next_id w); ch_name := Some name;
                 ch_type := GuildText; ch_guild := Some guild;
                 ch_scannable := true |} in
    (Ok ch,
     set_next_id (next_id w + 1)
       (set_guild_channels
          (<[guild := cache_set ch (channels_of w guild)]> (guild_channels w)) w))).

(** [channel.permissionOverwrites.edit(who, table)] *)
Definition permEdit (ch : Channel) (who : PermTarget)
    (table : list (Perm * bool)) : M unit :=
  platform (APermEdit ch who table) (fun w => (Ok tt, w)).

Definition run {A} (m : M A) (w : World) : Res A := m w.

(* ===================================================================== *)
(** ** The program: helpers over the module-level variables *)
(* ===================================================================== *)

Definition getDestinationId (w : World) (category : Category) : jsstring :=
  match category with
  | youtube => YOUTUBE_CHANNEL_ID w
  | steam => STEAM_CHANNEL_ID w
  | other => LINKS_CHANNEL_ID w
  end.

Definition isDestinationChannel (w : World) (channelId : jsstring) : bool :=
  existsb (fun i => str_eqb i channelId)
    [YOUTUBE_CHANNEL_ID w; STEAM_CHANNEL_ID w; LINKS_CHANNEL_ID w].

Definition updateEnvId (category : Category) (id : jsstring) (w : World) : World :=
  match category with
  | youtube => set_ids id (STEAM_CHANNEL_ID w) (LINKS_CHANNEL_ID w) w
  | steam => set_ids (YOUTUBE_CHANNEL_ID w) id (LINKS_CHANNEL_ID w) w
  | other => set_ids (YOUTUBE_CHANNEL_ID w) (STEAM_CHANNEL_ID w) id w
  end.

(** [destinationChannels[category] = ch] *)
Definition cacheDestination (category : Category) (ch : Channel) (w : World)
    : World :=
  set_dest (dc_set (destinationChannels w) category ch) w.

(* ===================================================================== *)
(** ** buildLinkEmbed *)
(* ===================================================================== *)

Definition speech_balloon : jsstring := astral 0x1F4AC.

Definition footer_text : jsstring :=
  speech_balloon ++ lit " Create a thread on this message to discuss!".

(** The line added for a truthy [timestamp]:
    [Math.floor(timestamp.getTime() / 1000)] inside the [<t:...:f>] tag. *)
Definition original_date_line (t : Z) : jsstring :=
  [10] ++ lit "**Original date:** <t:" ++ decimalZ (t / 1000)%Z ++ lit ":f>".

Definition from_line (ch : Channel) : jsstring :=
  [10] ++ lit "**From:** <#" ++ ch_id ch ++ lit ">".

(** [now] stands for [new Date()], read when no timestamp is passed. *)
Definition buildLinkEmbed (now : Z) (category : Category)
    (urls : list jsstring) (user : User) (sourceChannel : option Channel)
    (timestamp : option Z) : Embed :=
  let config := CATEGORIES category in
  {| e_color := cfg_color config;
     e_author_name := shown_name user;
     e_author_icon := displayAvatarURL user 64;
     e_title := Some (cfg_icon config ++ lit " " ++ cfg_title config);
     e_description := Some
       (join [10] urls
        ++ [10; 10] ++ lit "**Posted by:** <@" ++ user_id user ++ lit ">"
        ++ match sourceChannel with Some ch => from_line ch | None => [] end
        ++ match timestamp with Some t => original_date_line t | None => [] end);
     e_footer := footer_text;
     e_thumbnail := displayAvatarURL user 128;
     e_timestamp := match timestamp with Some t => t | None => now end |}.

(* ===================================================================== *)
(** ** getOrCreateLatestThread *)
(* ===================================================================== *)

(** What the program takes from the runtime and from discord.js as
    given: the URL parser, [new URL(s)], which yields the host name and the
    path name, or nothing when the constructor throws; and the validation
    that the setters of [EmbedBuilder] apply to their arguments. A setter
    throws on a value that it refuses. Of the refusals, the development
    relies on one only: a description of more than 4096 code units is
    refused. *)
Class Runtime : Type := {
  url_parse : jsstring -> option (jsstring * jsstring);
  embed_accepted : Embed -> bool;
  description_limit : forall e,
    embed_accepted e = true ->
    (List.length (default [] (e_description e)) <= 4096)%nat
}.

(** A call of [buildLinkEmbed]: the embed when the builder accepts its
    fields, a synchronous throw when a setter refuses one. No call on the
    platform is made either way. *)
Definition buildLinkEmbed_call `{Runtime} (now : Z) (category : Category)
    (urls : list jsstring) (user : User) (sourceChannel : option Channel)
    (timestamp : option Z) : M Embed :=
  let embed := buildLinkEmbed now category urls user sourceChannel timestamp in
  fun w => mkRes (if embed_accepted embed then Ok embed else Throw) w [].
Arguments buildLinkEmbed_call : simpl never.

(** [x || d] on a possibly absent string *)
Definition or_else (x : option jsstring) (d : jsstring) : jsstring :=
  match x with
  | Some (c :: s) => c :: s
  | _ => d
  end.

Definition is_bot_embed (w : World) (msg : Message) : bool :=
  str_eqb (user_id (msg_author msg)) (user_id (client_user w))
  && (0 <? List.length (msg_embeds msg))%nat.

Definition threadNameFor `{Runtime} (latestEmbed : Message) : jsstring :=
  let first := List.hd_error (msg_embeds latestEmbed) in
  let embedTitle :=
    or_else (match first with Some e => e_title e | None => None end)
      (lit "Link Discussion") in
  let embedUrl :=
    or_else
      (match first with
       | Some e => option_map first_line (e_description e)
       | None => None
       end) [] in
  match embedUrl with
  | [] => speech_balloon ++ lit " " ++ embedTitle
  | _ =>
      match url_parse (trim embedUrl) with
      | Some (hostname, pathname) =>
          substring0 100 (speech_balloon ++ lit " " ++ hostname ++ pathname)
      | None => substring0 100 (speech_balloon ++ lit " " ++ embedTitle)
      end
  end.

(** The [if (latestEmbed.hasThread)] block: the thread to return, if the
    block returns one. *)
Definition existingThreadOf (latestEmbed : Message) : M (option Thread) :=
  if msg_hasThread latestEmbed then
    tryCatch
      (let* cached := gets (fun w => threads w !! msg_id latestEmbed) in
       match cached with
       | None => ret None      (* [latestEmbed.thread?.fetch()] is undefined *)
       | Some t =>
           let* existingThread := threadFetch t in
           if negb (th_archived existingThread) then ret (Some existingThread)
           else
             let* unarchived := setArchived existingThread false in
             ret (Some unarchived)
       end)
      (ret None)
  else ret None.

Definition getOrCreateLatestThread `{Runtime} (channel : Channel)
    : M (option Thread) :=
  let* recentMessages := fetchMessages channel 50 None in
  let* latest := gets (fun w => List.find (is_bot_embed w) recentMessages) in
  match latest with
  | None => ret None
  | Some latestEmbed =>
      let* existing := existingThreadOf latestEmbed in
      match existing with
      | Some t => ret (Some t)
      | None =>
          let* thread :=
            startThread latestEmbed (threadNameFor latestEmbed) 1440 in
          ret (Some thread)
      end
  end.

(* ===================================================================== *)
(** ** enforceStrictPermissions and ensureChannel *)
(* ===================================================================== *)

Definition everyone_table : list (Perm * bool) :=
  [(ViewChannel, true); (SendMessages, false); (SendMessagesInThreads, true);
   (CreatePublicThreads, true); (CreatePrivateThreads, true);
   (ReadMessageHistory, true); (AddReactions, true)].

Definition bot_table : list (Perm * bool) :=
  [(ViewChannel, true); (SendMessages, true); (ManageMessages, true);
   (ManageThreads, true); (CreatePublicThreads, true); (EmbedLinks, true);
   (ReadMessageHistory, true)].

Definition enforceStrictPermissions (channel : Channel) : M unit :=
  tryCatch
    (permEdit channel EveryoneRole everyone_table;;
     permEdit channel BotMember bot_table)
    (ret tt).

(** [guild.channels.cache.get(id)] *)
Definition cache_get (l : list Channel) (id : jsstring) : option Channel :=
  List.find (fun ch => str_eqb (ch_id ch) id) l.

Definition named_text (name : jsstring) (ch : Channel) : bool :=
  match ch_name ch with
  | Some n => str_eqb n name && is_GuildText ch
  | None => false
  end.

(** The first branch: the configured id, when it is longer than ten code
    units and names a channel of the guild. *)
Definition configuredChannel (guild : jsstring) (category : Category)
    : M (option Channel) :=
  let* envId := gets (fun w => getDestinationId w category) in
  if (10 <? List.length envId)%nat then
    gets (fun w => cache_get (channels_of w guild) envId)
  else ret None.

Definition ensureChannel (guild : jsstring) (category : Category) : M Channel :=
  let config := CATEGORIES category in
  let* configured := configuredChannel guild category in
  match configured with
  | Some existing =>
      modify (cacheDestination category existing);;
      enforceStrictPermissions existing;;
      ret existing
  | None =>
      let* byName :=
        gets (fun w => List.find (named_text (cfg_channelName config))
                         (channels_of w guild)) in
      match byName with
      | Some found =>
          modify (cacheDestination category found);;
          modify (updateEnvId category (ch_id found));;
          enforceStrictPermissions found;;
          ret found
      | None =>
          let* created :=
            createChannel guild (cfg_channelName config) (cfg_topic config) in
          modify (cacheDestination category created);;
          modify (updateEnvId category (ch_id created));;
          enforceStrictPermissions created;;
          ret created
      end
  end.

(* ===================================================================== *)
(** ** backfillGuild *)
(* ===================================================================== *)

Definition private_marker : jsstring := lit "-private".

(** The loop over [Object.entries(grouped)] of the scanner; the state is
    [movedInChannel] and [movedThisMsg]. *)
Fixpoint backfillRoute `{Runtime} (channel : Channel) (msg : Message)
    (entries : Grouped) (movedInChannel : nat) (movedThisMsg : bool)
    : M (nat * bool) :=
  match entries with
  | [] => ret (movedInChannel, movedThisMsg)
  | (category, catUrls) :: rest =>
      let* dest := gets (fun w => dc_get (destinationChannels w) category) in
      match dest with
      | None => backfillRoute channel msg rest movedInChannel movedThisMsg
      | Some destChannel =>
          if str_eqb (ch_id destChannel) (ch_id channel) then
            backfillRoute channel msg rest movedInChannel movedThisMsg
          else
            let* now := gets clock in
            let* embed :=
              buildLinkEmbed_call now category catUrls (msg_author msg)
                (Some channel) (Some (msg_createdAt msg)) in
            let* _ := chSend destChannel (embed_payload embed) in
            backfillRoute channel msg rest (S movedInChannel) true
      end
  end.

(** The loop over one page; the result is [reachedCutoff] and
    [movedInChannel]. *)
Fixpoint scanPage `{Runtime} (channel : Channel) (messages : list Message)
    (movedInChannel : nat) : M (bool * nat) :=
  match messages with
  | [] => ret (false, movedInChannel)
  | msg :: rest =>
      if (msg_createdAt msg <? BACKFILL_AFTER)%Z then ret (true, movedInChannel)
      else if bot (msg_author msg) then scanPage channel rest movedInChannel
      else
        match extractUrls (msg_content msg) with
        | None => scanPage channel rest movedInChannel
        | Some urls =>
            let grouped := groupUrls urls in
            let* result :=
              backfillRoute channel msg grouped movedInChannel false in
            let '(moved, movedThisMsg) := result in
            (if movedThisMsg then tryCatch (msgDelete msg) (ret tt)
             else ret tt);;
            scanPage channel rest moved
        end
  end.

(** [messages.last()?.id] *)
Definition last_id (messages : list Message) : option N :=
  option_map msg_id (List.last (List.map Some messages) None).

(** The [while (!reachedCutoff)] loop, with a budget of iterations. A
    failed fetch is a failed [platform] call caught by the loop. *)
Fixpoint scanLoop `{Runtime} (fuel : nat) (channel : Channel)
    (lastId : option N) (movedInChannel : nat) : M nat :=
  match fuel with
  | O => fun w => mkRes OutOfFuel w []
  | S fuel' =>
      let* fetched :=
        tryCatch
          (let* ms := fetchMessages channel 100 lastId in ret (Some ms))
          (ret None) in
      match fetched with
      | None => ret movedInChannel
      | Some [] => ret movedInChannel
      | Some messages =>
          let* result := scanPage channel messages movedInChannel in
          let '(reachedCutoff, moved) := result in
          emit (ASleep 1000);;
          if reachedCutoff then ret moved
          else scanLoop fuel' channel (last_id messages) moved
      end
  end.

(** One iteration of the loop over [textChannels]; the budget covers one
    page per message of the room and the final empty page. *)
Definition scanChannel `{Runtime} (channel : Channel) : M nat :=
  if includes (default [] (ch_name channel)) private_marker then ret O
  else
    let* budget :=
      gets (fun w => S (List.length (messages_of w (ch_id channel)))) in
    scanLoop budget channel None O.

Fixpoint scanChannels `{Runtime} (channels : list Channel) (totalMoved : nat)
    : M nat :=
  match channels with
  | [] => ret totalMoved
  | channel :: rest =>
      let* movedInChannel := scanChannel channel in
      scanChannels rest (totalMoved + movedInChannel)%nat
  end.

(** The result is [totalMoved], which the function logs. *)
Definition backfillGuild `{Runtime} (guild : jsstring) : M nat :=
  let* textChannels :=
    gets (fun w =>
      List.filter
        (fun ch => is_GuildText ch
                   && negb (isDestinationChannel w (ch_id ch))
                   && ch_scannable ch)
        (channels_of w guild)) in
  scanChannels textChannels O.

(** The [ready] handler, over the guilds of [client.guilds.cache]. *)
Fixpoint ready `{Runtime} (guilds : list jsstring) : M unit :=
  match guilds with
  | [] => ret tt
  | guild :: rest =>
      ensureChannel guild youtube;;
      ensureChannel guild steam;;
      ensureChannel guild other;;
      backfillGuild guild;;
      ready rest
  end.

(* ===================================================================== *)
(** ** The messageCreate handler *)
(* ===================================================================== *)

Definition mention (u : User) : jsstring := lit "<@" ++ user_id u ++ lit ">".

Definition repostContent (author : User) (savedContent : jsstring) : jsstring :=
  lit "**" ++ shown_name author ++ lit "** said:" ++ [10] ++ lit "> "
  ++ or_else (Some savedContent) (lit "*(no text)*").

Definition repostOptions (author : User) (savedContent : jsstring)
    (savedAttachments : list Attachment) : Payload :=
  {| p_content := Some (repostContent author savedContent);
     p_files := List.map (fun att => (att_url att, att_name att)) savedAttachments;
     p_embeds := [] |}.

Definition movedNotice (author : User) (thread : Thread) : jsstring :=
  speech_balloon ++ lit " " ++ mention author
  ++ lit " Your message was moved to the discussion thread: "
  ++ thread_mention thread ++ lit ". "
  ++ lit "Please use threads to discuss links!".

Definition noThreadWarning (author : User) : jsstring :=
  speech_balloon ++ lit " " ++ mention author
  ++ lit " This channel is for links only! "
  ++ lit "No links have been posted yet to create a thread on. "
  ++ lit "Please wait for a link to be posted, then create a thread to discuss it.".

Definition privateWarning (author : User) : jsstring :=
  [0x26D4] ++ lit " " ++ mention author
  ++ lit " This is a chat-only room. No unsolicited links allowed. "
  ++ lit "Please use the designated URL channels or send links via DM.".

(** The strict mode: the body of the [try] block. *)
Definition strictIntercept `{Runtime} (message : Message) : M unit :=
  let savedContent := msg_content message in
  let savedAttachments := msg_attachments message in
  let author := msg_author message in
  msgDelete message;;
  let* thread := getOrCreateLatestThread (msg_channel message) in
  match thread with
  | Some thread =>
      threadSend thread (repostOptions author savedContent savedAttachments);;
      let* notice :=
        chSend (msg_channel message) (text_payload (movedNotice author thread)) in
      emit (ADeleteAfter 10000 notice)
  | None =>
      let* warning :=
        chSend (msg_channel message) (text_payload (noThreadWarning author)) in
      emit (ADeleteAfter 15000 warning)
  end.

Definition privateBlock (message : Message) : M unit :=
  msgDelete message;;
  let* warning :=
    chSend (msg_channel message)
      (text_payload (privateWarning (msg_author message))) in
  emit (ADeleteAfter 10000 warning).

Record Routed : Type := {
  r_category : Category;
  r_destId : jsstring;
  r_icon : jsstring
}.

(** The loop over [toRoute]. *)
Fixpoint routeLinks `{Runtime} (message : Message) (toRoute : Grouped)
    (routed : list Routed) : M (list Routed) :=
  match toRoute with
  | [] => ret routed
  | (category, urls) :: rest =>
      let* dest := gets (fun w => dc_get (destinationChannels w) category) in
      match dest with
      | None => routeLinks message rest routed
      | Some destChannel =>
          let* now := gets clock in
          let* embed :=
            buildLinkEmbed_call now category urls (msg_author message)
              (Some (msg_channel message)) (Some (msg_createdAt message)) in
          let* _ := chSend destChannel (embed_payload embed) in
          routeLinks message rest
            (routed ++ [{| r_category := category;
                           r_destId := ch_id destChannel;
                           r_icon := cfg_icon (CATEGORIES category) |}])
      end
  end.

Definition routedNotice (author : User) (r : Routed) : jsstring :=
  let label :=
    match r_category r with
    | youtube => lit "YouTube link"
    | steam => lit "Steam link"
    | other => lit "Link"
    end in
  r_icon r ++ lit " " ++ mention author ++ lit " " ++ label
  ++ lit " detected, moved to <#" ++ r_destId r
  ++ lit ">. Create a **thread** there to discuss it!".

Definition deleteAndNotify (message : Message) (routed : list Routed) : M unit :=
  msgDelete message;;
  let notices := List.map (routedNotice (msg_author message)) routed in
  let* notification :=
    chSend (msg_channel message) (text_payload (join [10] notices)) in
  emit (ADeleteAfter 10000 notification).

Definition messageCreate `{Runtime} (message : Message) : M unit :=
  if bot (msg_author message) then ret tt
  else
    match msg_guild message with
    | None => ret tt
    | Some _ =>
        if isThread (msg_channel message) then ret tt
        else
          let content := msg_content message in
          let channelName := default [] (ch_name (msg_channel message)) in
          let currentChannelId := ch_id (msg_channel message) in
          let* strict := gets (fun w => isDestinationChannel w currentChannelId) in
          if strict then tryCatch (strictIntercept message) (ret tt)
          else
            match extractUrls content with
            | None => ret tt
            | Some allUrls =>
                if includes channelName private_marker then
                  tryCatch (privateBlock message) (ret tt)
                else
                  let grouped := groupUrls allUrls in
                  let* toRoute :=
                    gets (fun w =>
                      List.filter
                        (fun '(category, _) =>
                           negb (str_eqb (getDestinationId w category)
                                   currentChannelId))
                        grouped) in
                  match toRoute with
                  | [] => ret tt
                  | _ =>
                      let* routed := routeLinks message toRoute [] in
                      match routed with
                      | [] => ret tt
                      | _ => tryCatch (deleteAndNotify message routed) (ret tt)
                      end
                  end
            end
    end.

(* ===================================================================== *)
(** ** A small community, used to run the program on concrete inputs *)
(* ===================================================================== *)

Module Fixture.

(** A parser good enough for the URLs of the examples: the host is what
    lies between the scheme and the first slash, the path is the rest. *)
Fixpoint split_slash (s : jsstring) : jsstring * jsstring :=
  match s with
  | [] => ([], [47])
  | c :: s' =>
      if c =? 47 then ([], s)
      else let (h, p) := split_slash s' in (c :: h, p)
  end.

Definition naive_parse (s : jsstring) : option (jsstring * jsstring) :=
  if starts_with (lit "https://") s then Some (split_slash (skipn 8 s))
  else if starts_with (lit "http://") s then Some (split_slash (skipn 7 s))
  else None.

(** A builder that refuses nothing but a description that is too long. *)
Definition description_fits (e : Embed) : bool :=
  (List.length (default [] (e_description e)) <=? 4096)%nat.

#[global] Instance runtime : Runtime :=
  {| url_parse := naive_parse;
     embed_accepted := description_fits;
     description_limit := fun e H => proj1 (Nat.leb_le _ _) H |}.

Definition avatar (name : string) (size : N) : jsstring :=
  lit "https://cdn.example/" ++ lit name ++ lit ".png?size=" ++ decimal size.

Definition engine : User :=
  {| user_id := lit "900000000000000001"; username := lit "link-router";
     displayName := lit "Link Router"; bot := true;
     displayAvatarURL := avatar "engine" |}.

Definition alice : User :=
  {| user_id := lit "100000000000000001"; username := lit "alice";
     displayName := lit "Alice"; bot := false;
     displayAvatarURL := avatar "alice" |}.

Definition otherbot : User :=
  {| user_id := lit "100000000000000002"; username := lit "musicbot";
     displayName := []; bot := true; displayAvatarURL := avatar "musicbot" |}.

Definition home : jsstring := lit "300000000000000001".
Definition away : jsstring := lit "300000000000000002".

Definition room (g id name : string) : Channel :=
  {| ch_id := lit id; ch_name := Some (lit name); ch_type := GuildText;
     ch_guild := Some (lit g); ch_scannable := true |}.

Definition general : Channel := room "300000000000000001" "200000000000000001" "general".
Definition videos : Channel := room "300000000000000001" "200000000000000002" "youtube".
Definition games : Channel := room "300000000000000001" "200000000000000003" "games".
Definition links : Channel := room "300000000000000001" "200000000000000004" "links-channel".
Definition clips : Channel := room "300000000000000001" "200000000000000005" "clips".
Definition lounge : Channel := room "300000000000000001" "200000000000000006" "lounge-private".
Definition away_videos : Channel := room "300000000000000002" "200000000000000007" "youtube".

Definition post (id : N) (u : User) (text : string) (at_ : Z) (ch : Channel)
    : Message :=
  {| msg_id := id; msg_author := u; msg_content := lit text; msg_embeds := [];
     msg_attachments := []; msg_createdAt := at_; msg_hasThread := false;
     msg_channel := ch |}.

(** A summary record the engine posted earlier in the video room. *)
Definition record1 : Message :=
  {| msg_id := 5000; msg_author := engine; msg_content := [];
     msg_embeds :=
       [buildLinkEmbed 0 youtube [lit "https://youtu.be/abc123"] alice
          (Some general) (Some 1770000000000%Z)];
     msg_attachments := []; msg_createdAt := 1770000000500%Z;
     msg_hasThread := false; msg_channel := videos |}.

Definition mixed : Message :=
  post 6000 alice
    "check this out https://youtu.be/abc123 and https://store.steampowered.com/app/999"
    1770000100000%Z general.

Definition chat : Message :=
  post 6001 alice "what a great video" 1770000200000%Z videos.

Definition placed : Message :=
  post 6002 alice "https://youtu.be/abc123" 1770000300000%Z videos.

Definition old_link : Message :=
  post 4000 alice "https://youtu.be/old" 1760000000000%Z general.

Definition bot_link : Message :=
  post 6003 otherbot "https://youtu.be/abc123" 1770000400000%Z general.

(** The state after start-up in the home guild. *)
Definition w0 : World :=
  {| YOUTUBE_CHANNEL_ID := ch_id videos;
     STEAM_CHANNEL_ID := ch_id games;
     LINKS_CHANNEL_ID := ch_id links;
     destinationChannels :=
       {| dc_youtube := Some videos; dc_steam := Some games;
          dc_other := Some links |};
     client_user := engine;
     guild_channels :=
       <[home := [general; videos; games; links; lounge]]>
         (<[away := [away_videos]]> ∅);
     history :=
       <[ch_id general := [bot_link; mixed; old_link]]>
         (<[ch_id videos := [placed; chat; record1]]> ∅);
     threads := ∅;
     clock := 1770000500000%Z;
     next_id := 7000;
     faults := [] |}.

(** The home guild before start-up, with the video room pinned to [clips]
    by configuration although a room named [youtube] exists as well. *)
Definition w_pinned : World :=
  {| YOUTUBE_CHANNEL_ID := ch_id clips;
     STEAM_CHANNEL_ID := [];
     LINKS_CHANNEL_ID := [];
     destinationChannels :=
       {| dc_youtube := None; dc_steam := None; dc_other := None |};
     client_user := engine;
     guild_channels :=
       <[home := [general; clips; videos]]> (<[away := [away_videos]]> ∅);
     history := ∅;
     threads := ∅;
     clock := 1770000500000%Z;
     next_id := 7000;
     faults := [] |}.

End Fixture.


(* ===================================================================== *)
(** ** The vocabulary of the statements *)
(* ===================================================================== *)

(** The strings a pattern denotes. *)
Inductive lang : regex -> jsstring -> Prop :=
| L_eps : lang REps []
| L_char c x : ci_eq c x = true -> lang (RChar c) [x]
| L_class (p : N -> bool) x : p x = true -> lang (RClass p) [x]
| L_seq r1 r2 s1 s2 : lang r1 s1 -> lang r2 s2 -> lang (RSeq r1 r2) (s1 ++ s2)
| L_alt_l r1 r2 s : lang r1 s -> lang (RAlt r1 r2) s
| L_alt_r r1 r2 s : lang r2 s -> lang (RAlt r1 r2) s
| L_opt_some r s : lang r s -> lang (ROpt r) s
| L_opt_none r : lang (ROpt r) []
| L_star (p : N -> bool) s : Forall (fun x => p x = true) s -> lang (RStar p) s
| L_plus (p : N -> bool) x s :
    p x = true -> Forall (fun x => p x = true) s -> lang (RPlus p) (x :: s).

(** Two strings that differ at most in the case of ASCII letters. *)
Definition case_eqv (s t : jsstring) : Prop :=
  Forall2 (fun a b => canon a = canon b) s t.

(** The patterns whose classes do not tell the case of a letter apart. *)
Inductive case_blind : regex -> Prop :=
| CB_eps : case_blind REps
| CB_char c : case_blind (RChar c)
| CB_class p : (forall a b, canon a = canon b -> p a = p b) -> case_blind (RClass p)
| CB_seq r1 r2 : case_blind r1 -> case_blind r2 -> case_blind (RSeq r1 r2)
| CB_alt r1 r2 : case_blind r1 -> case_blind r2 -> case_blind (RAlt r1 r2)
| CB_opt r : case_blind r -> case_blind (ROpt r)
| CB_star p : (forall a b, canon a = canon b -> p a = p b) -> case_blind (RStar p)
| CB_plus p : (forall a b, canon a = canon b -> p a = p b) -> case_blind (RPlus p).

Definition same_outcome (o o' : option jsstring) : Prop :=
  match o, o' with
  | Some r, Some r' => case_eqv r r'
  | None, None => True
  | _, _ => False
  end.

Definition krel (k k' : jsstring -> option jsstring) : Prop :=
  forall s s', case_eqv s s' -> same_outcome (k s) (k' s').

(** The characters that the class of URL_REGEX leaves out, besides white
    space: [<], [>], the double quote, the braces, [|], the backslash,
    [^], the backquote and the square brackets. *)
Definition excluded_chars : jsstring :=
  [60; 62; 34; 123; 125; 124; 92; 94; 96; 91; 93].

(** What the spec calls trailing punctuation and brackets. *)
Definition punct_or_bracket (c : N) : bool :=
  existsb (N.eqb c) (lit ".,;:!?'()[]{}<>" ++ [34]).

Definition ends_clean (u : jsstring) : Prop :=
  match rev u with
  | c :: _ => punct_or_bracket c = false
  | [] => True
  end.

(** A Summary Record is a message sent with an embed. *)
Definition is_record_send (a : Action) : bool :=
  match a with
  | ASend _ p => match p_embeds p with [] => false | _ => true end
  | _ => false
  end.

Definition is_send (a : Action) : bool :=
  match a with
  | ASend _ _ | AThreadSend _ _ => true
  | _ => false
  end.

Definition is_delete (a : Action) : bool :=
  match a with
  | ADelete _ => true
  | _ => false
  end.

(** A property of every call that a computation makes, whatever the state
    it starts from. *)
Definition traceP {A} (P : Action -> Prop) (m : M A) : Prop :=
  forall w, Forall P (acts (m w)).

(** The embed carries the line that refers to the original date. *)
Definition carries_original_date (e : Embed) : Prop :=
  exists base t, e_description e = Some (base ++ original_date_line t).

(** The Summary Record that relocates the links [urls] of [message]. *)
Definition record_of (message : Message) (e : Embed) : Prop :=
  exists category urls now,
    e = buildLinkEmbed now category urls (msg_author message)
          (Some (msg_channel message)) (Some (msg_createdAt message)).

(** Every embed that the call sends is a record of [message]. *)
Definition sends_records_of (message : Message) (a : Action) : Prop :=
  match a with
  | ASend _ p => Forall (record_of message) (p_embeds p)
  | _ => True
  end.

(** The last part of the handler, from the loop over [toRoute] on, and
    the value of [toRoute] in a given state. *)
Definition routeAndNotify `{Runtime} (message : Message) (toRoute : Grouped) : M unit :=
  let* routed := routeLinks message toRoute [] in
  match routed with
  | [] => ret tt
  | _ => tryCatch (deleteAndNotify message routed) (ret tt)
  end.

Definition toRouteOf (w : World) (message : Message) (allUrls : list jsstring)
    : Grouped :=
  List.filter
    (fun '(category, _) =>
       negb (str_eqb (getDestinationId w category) (ch_id (msg_channel message))))
    (groupUrls allUrls).


(** The Summary Record that the scanner composes for [message], found in
    the room [channel]. *)
Definition record_from (channel : Channel) (message : Message) (e : Embed)
    : Prop :=
  exists category urls now,
    e = buildLinkEmbed now category urls (msg_author message)
          (Some channel) (Some (msg_createdAt message)).

(** What the scanner may do: the records it sends and the messages it
    deletes belong to messages of users, not older than the cutoff. *)
Definition relocatable (message : Message) : Prop :=
  bot (msg_author message) = false
  /\ (BACKFILL_AFTER <= msg_createdAt message)%Z.

Definition backfill_call_ok (a : Action) : Prop :=
  match a with
  | ASend _ p =>
      Forall (fun e => exists channel message,
                record_from channel message e /\ relocatable message)
        (p_embeds p)
  | ADelete message => relocatable message
  | _ => True
  end.

(** The same, for the cutoff alone and for the authors alone. *)
Definition not_before_cutoff (a : Action) : Prop :=
  match a with
  | ASend _ p =>
      Forall (fun e => exists channel message,
                record_from channel message e
                /\ (BACKFILL_AFTER <= msg_createdAt message)%Z
                /\ (BACKFILL_AFTER <= e_timestamp e)%Z)
        (p_embeds p)
  | ADelete message => (BACKFILL_AFTER <= msg_createdAt message)%Z
  | _ => True
  end.

Definition not_from_bot (a : Action) : Prop :=
  match a with
  | ASend _ p =>
      Forall (fun e => exists channel message,
                record_from channel message e
                /\ bot (msg_author message) = false)
        (p_embeds p)
  | ADelete message => bot (msg_author message) = false
  | _ => True
  end.

(** The page that a fetch returns in a given state. *)
Definition page_of (w : World) (channel : Channel) (limit : nat)
    (before : option N) : list Message :=
  firstn limit (List.filter (older_than before) (messages_of w (ch_id channel))).

(** A computation that stays within its loop budget and, in the room [c],
    removes messages at most. *)
Definition tame {A} (c : jsstring) (m : M A) : Prop :=
  forall w,
    out (m w) <> OutOfFuel
    /\ sublist (messages_of (world (m w)) c) (messages_of w c).





(** The state after the deletion of a message. *)
Definition deleted (message : Message) (w : World) : World :=
  let c := ch_id (msg_channel message) in
  set_history
    (<[c := List.filter (fun x => negb (msg_id x =? msg_id message))
              (messages_of w c)]> (history w)) w.

(** The channel that the configured id names in a guild, when the id is
    longer than ten code units. *)
Definition configured_of (w : World) (guild : jsstring) (category : Category)
    : option Channel :=
  let envId := getDestinationId w category in
  if (10 <? List.length envId)%nat then cache_get (channels_of w guild) envId
  else None.

(** The room that the resolution finds in a guild without creating one. *)
Definition resolves_to (w : World) (guild : jsstring) (category : Category)
    (c : Channel) : Prop :=
  match configured_of w guild category with
  | Some existing => existing = c
  | None =>
      List.find (named_text (cfg_channelName (CATEGORIES category)))
        (channels_of w guild) = Some c
  end.

(** The channel cache of a guild is a Map: its keys are distinct. *)
Definition ids_unique (w : World) (guild : jsstring) : Prop :=
  NoDup (List.map ch_id (channels_of w guild)).

(** The room that a creation makes, and the guild with it. *)
Definition fresh_channel (w : World) (guild : jsstring) (category : Category)
    : Channel :=
  {| ch_id := decimal (next_id w);
     ch_name := Some (cfg_channelName (CATEGORIES category));
     ch_type := GuildText; ch_guild := Some guild; ch_scannable := true |}.

Definition with_channel (guild : jsstring) (ch : Channel) (w : World) : World :=
  set_next_id (next_id w + 1)
    (set_guild_channels
       (<[guild := cache_set ch (channels_of w guild)]> (guild_channels w)) w).

(** The state after [n] further resolutions of the same room. *)
Fixpoint ensure_again (n : nat) (guild : jsstring) (category : Category)
    (w : World) : World :=
  match n with
  | O => w
  | S k => ensure_again k guild category (world (ensureChannel guild category w))
  end.

(* ===================================================================== *)
(** ** Further vocabulary *)
(* ===================================================================== *)

(** [grouped[category]] *)
Fixpoint group_lookup (g : Grouped) (c : Category) : option (list jsstring) :=
  match g with
  | [] => None
  | (c', us) :: g' => if Category_eqb c' c then Some us else group_lookup g' c
  end.

(** A text cut into the given pieces, in order, with anything between
    them. *)
Inductive splits_into : jsstring -> list jsstring -> Prop :=
| SI_nil s : splits_into s []
| SI_cons pre u rest us :
    splits_into rest us -> splits_into (pre ++ u ++ rest) (u :: us).

(** The piece [u] of [text] ends where the text ends or where a character
    that a URL cannot hold begins. *)
Definition maximal_in (text u : jsstring) : Prop :=
  exists pre post,
    text = pre ++ u ++ post
    /\ match post with
       | [] => True
       | c :: _ => url_char c = false
       end.

(** A relation between the state before and after that holds along every
    run of a computation. *)
Definition preserves {A} (I : World -> World -> Prop) (m : M A) : Prop :=
  forall w, I w (world (m w)).

(** The relations that no call on messages and threads can break: they
    do not look at the messages, the threads, the id supply, or at faults
    that are consumed. *)
Record stable (I : World -> World -> Prop) : Prop := {
  st_refl : forall w, I w w;
  st_trans : forall w1 w2 w3, I w1 w2 -> I w2 w3 -> I w1 w3;
  st_fault : forall w x fs, faults w = x :: fs -> I w (set_faults fs w);
  st_history : forall w h, I w (set_history h w);
  st_threads : forall w t, I w (set_threads t w);
  st_next_id : forall w n, I w (set_next_id n w)
}.

(** What only the destination registry writes, and what nothing writes. *)
Definition frame (w : World) :=
  (YOUTUBE_CHANNEL_ID w, STEAM_CHANNEL_ID w, LINKS_CHANNEL_ID w,
   destinationChannels w, guild_channels w, client_user w, clock w).

Definition same_frame (w w' : World) : Prop := frame w' = frame w.

(** No fault pending before, none pending after. *)
Definition still_quiet (w w' : World) : Prop := faults w = [] -> faults w' = [].

(** With no fault pending, the computation does not reject and leaves no
    fault pending. *)
Definition calm {A} (m : M A) : Prop :=
  forall w, faults w = [] -> faults (world (m w)) = [] /\ out (m w) <> Throw.

(** The computation stays within the loop budget of the model. *)
Definition finite {A} (m : M A) : Prop := forall w, out (m w) <> OutOfFuel.

(** The record sends that the loop over [toRoute] makes in a given state,
    one per group whose category has a cached destination, and the
    entries of [routed] that go with them. *)
Fixpoint relocations (w : World) (message : Message) (toRoute : Grouped)
    : list Action :=
  match toRoute with
  | [] => []
  | (category, urls) :: rest =>
      match dc_get (destinationChannels w) category with
      | Some destChannel =>
          ASend destChannel
            (embed_payload
               (buildLinkEmbed (clock w) category urls (msg_author message)
                  (Some (msg_channel message)) (Some (msg_createdAt message))))
          :: relocations w message rest
      | None => relocations w message rest
      end
  end.

Fixpoint routed_of (w : World) (toRoute : Grouped) : list Routed :=
  match toRoute with
  | [] => []
  | (category, _) :: rest =>
      match dc_get (destinationChannels w) category with
      | Some destChannel =>
          {| r_category := category; r_destId := ch_id destChannel;
             r_icon := cfg_icon (CATEGORIES category) |}
          :: routed_of w rest
      | None => routed_of w rest
      end
  end.

(** The destination cache and the recorded ids agree. *)
Definition registry_consistent (w : World) : Prop :=
  forall category c,
    dc_get (destinationChannels w) category = Some c ->
    getDestinationId w category = ch_id c.

Definition is_perm_edit (a : Action) : bool :=
  match a with
  | APermEdit _ _ _ => true
  | _ => false
  end.

(** A guild has a room for the category without creating one. *)
Definition resolvable (w : World) (guild : jsstring) (category : Category)
    : bool :=
  match configured_of w guild category,
        List.find (named_text (cfg_channelName (CATEGORIES category)))
          (channels_of w guild) with
  | None, None => false
  | _, _ => true
  end.

(** A record is never sent to the room of its message. *)
Definition record_leaves_room (message : Message) (a : Action) : Prop :=
  match a with
  | ASend destChannel p =>
      p_embeds p <> [] -> ch_id destChannel <> ch_id (msg_channel message)
  | _ => True
  end.

(** The rooms that the scanner reads: text rooms of the guild that are no
    destination rooms, that the program may read and manage, and whose name
    does not carry the private marker. *)
Definition scanned (w : World) (guild : jsstring) (channel : Channel) : Prop :=
  In channel (channels_of w guild)
  /\ is_GuildText channel = true
  /\ isDestinationChannel w (ch_id channel) = false
  /\ ch_scannable channel = true
  /\ includes (default [] (ch_name channel)) private_marker = false.

(** The calls of the scan of one room: pages of a hundred messages of
    that room, and records of its messages sent to another room. *)
Definition scan_call (channel : Channel) (a : Action) : Prop :=
  match a with
  | AFetch ch limit _ => ch = channel /\ limit = 100%nat
  | ASend destChannel p =>
      Forall (fun e => exists message, record_from channel message e)
        (p_embeds p)
      /\ ch_id destChannel <> ch_id channel
  | _ => True
  end.

(** One record of [message], found in [channel], sent to some room. *)
Definition record_send_from (channel : Channel) (message : Message)
    (a : Action) : Prop :=
  match a with
  | ASend _ p => exists e, p = embed_payload e /\ record_from channel message e
  | _ => False
  end.

(** The calls of a scan that nothing interrupts: page reads and pauses,
    and for each relocated message its records, one at least, followed at
    once by the deletion of the message. *)
Inductive settled : list Action -> Prop :=
| settled_nil : settled []
| settled_fetch ch limit before rest :
    settled rest -> settled (AFetch ch limit before :: rest)
| settled_sleep ms rest : settled rest -> settled (ASleep ms :: rest)
| settled_message channel message sends rest :
    sends <> [] ->
    Forall (record_send_from channel message) sends ->
    settled rest ->
    settled (sends ++ ADelete message :: rest).

(** A scan cut short while the records of a message were being made, by
    a rejected send or by a record that could not be composed: what was
    settled before, and the records of the message at hand that were sent,
    if any. *)
Definition interrupted (l : list Action) : Prop :=
  exists done pending channel message,
    l = done ++ pending
    /\ settled done
    /\ Forall (record_send_from channel message) pending.

(** A part of the scan whose result counts the records sent, starting
    from [base]. *)
Definition tidy {A} (count : A -> nat) (base : nat) (m : M A) : Prop :=
  forall w,
    match out (m w) with
    | Ok a =>
        settled (acts (m w))
        /\ count a
           = (base + List.length (List.filter is_record_send (acts (m w))))%nat
    | Throw => interrupted (acts (m w))
    | OutOfFuel => True
    end.

(** The builder accepts the record of every group of links of [message],
    composed for the room [channel]. *)
Definition records_accepted `{Runtime} (channel : Channel) (message : Message)
    : Prop :=
  forall urls category us now,
    extractUrls (msg_content message) = Some urls ->
    In (category, us) (groupUrls urls) ->
    embed_accepted
      (buildLinkEmbed now category us (msg_author message) (Some channel)
         (Some (msg_createdAt message))) = true.

(** The same of every message of every room that [S] holds of. *)
Definition scan_fits `{Runtime} (S : Channel -> Prop) (w : World) : Prop :=
  forall channel m,
    S channel -> In m (messages_of w (ch_id channel)) ->
    records_accepted channel m.

(** With no fault pending and records that the builder accepts, the
    computation does not reject and leaves things so. *)
Definition steady `{Runtime} (S : Channel -> Prop) {A} (m : M A) : Prop :=
  forall w,
    faults w = [] -> scan_fits S w ->
    faults (world (m w)) = []
    /\ scan_fits S (world (m w))
    /\ out (m w) <> Throw.

(** The description of an embed is within the limit of the builder. *)
Definition within_limit (e : Embed) : Prop :=
  (List.length (default [] (e_description e)) <= 4096)%nat.

(** Every category has a destination room, known to the cache and to the
    recorded ids alike. *)
Definition all_bound (w : World) : Prop :=
  forall category, exists c,
    dc_get (destinationChannels w) category = Some c
    /\ getDestinationId w category = ch_id c.

(** A property of the state that a computation keeps. *)
Definition keeps {A} (P : World -> Prop) (m : M A) : Prop :=
  forall w, P w -> P (world (m w)).

(** A state of the home guild in which the record of the video room has a
    thread, archived. *)
Module Threaded.

Definition anchor : Message := with_hasThread Fixture.record1.



End Threaded.

(** The calls that the handler of [message] may make. *)
Definition handler_call (message : Message) (a : Action) : Prop :=
  match a with
  | ADelete m => m = message
  | AFetch ch limit before =>
      ch = msg_channel message /\ limit = 50%nat /\ before = None
  | ASend ch p =>
      match p_embeds p with
      | [] => ch = msg_channel message /\ p_files p = []
      | embeds => Forall (record_of message) embeds /\ p_content p = None
      end
  | AThreadSend _ p =>
      p = repostOptions (msg_author message) (msg_content message)
            (msg_attachments message)
  | AStartThread _ _ dur => dur = 1440
  | ASetArchived _ b => b = false
  | AThreadFetch _ => True
  | ADeleteAfter ms _ => ms = 10000 \/ ms = 15000
  | ACreateChannel _ _ _ | APermEdit _ _ _ | ASleep _ => False
  end.

(** No embed that the call sends is beyond the limit of the builder. *)
Definition sends_within_limit (a : Action) : Prop :=
  match a with
  | ASend _ p => Forall within_limit (p_embeds p)
  | _ => True
  end.

(** A message with one link of more than 4096 code units, posted in the
    general room of the home guild. *)
Module Oversized.

Definition link : jsstring := lit "https://example.org/" ++ List.repeat 97 4100.

Definition message : Message :=
  {| msg_id := 6100; msg_author := Fixture.alice;
     msg_content := lit "look at " ++ link; msg_embeds := [];
     msg_attachments := []; msg_createdAt := 1770000460000%Z;
     msg_hasThread := false; msg_channel := Fixture.general |}.

End Oversized.
(* ===================================================================== *)
(** ** Properties of the matcher *)
(* ===================================================================== *)

Lemma star_m_sound p k s x :
  star_m p k s = Some x ->
  exists m s', s = m ++ s' /\ Forall (fun c => p c = true) m /\ k s' = Some x.
Proof.
  induction s as [|c s IH]; simpl; intros Hx.
  - exists [], []. auto.
  - destruct (p c) eqn:Hp.
    + destruct (star_m p k s) as [y|] eqn:Hs.
      * injection Hx as <-. destruct (IH eq_refl) as (m & s' & -> & Hm & Hk).
        exists (c :: m), s'. auto.
      * exists [], (c :: s). auto.
    + exists [], (c :: s). auto.
Qed.

(** Whatever the matcher accepts is a string of the pattern followed by an
    input that the continuation accepts. *)
Lemma rmatch_sound r : forall k s x,
  rmatch r k s = Some x ->
  exists m s', s = m ++ s' /\ lang r m /\ k s' = Some x.
Proof.
  induction r as [|c|p|r1 IH1 r2 IH2|r1 IH1 r2 IH2|r1 IH1|p|p];
    simpl; intros k s x Hx.
  - exists [], s. repeat split; auto using lang.
  - destruct s as [|y s]; [discriminate|].
    destruct (ci_eq c y) eqn:Hc; [|discriminate].
    exists [y], s. repeat split; auto using lang.
  - destruct s as [|y s]; [discriminate|].
    destruct (p y) eqn:Hc; [|discriminate].
    exists [y], s. repeat split; auto using lang.
  - destruct (IH1 _ _ _ Hx) as (m1 & s1 & -> & L1 & H1).
    destruct (IH2 _ _ _ H1) as (m2 & s2 & -> & L2 & H2).
    exists (m1 ++ m2), s2. rewrite <- app_assoc. auto using lang.
  - destruct (rmatch r1 k s) as [y|] eqn:E1.
    + injection Hx as <-. destruct (IH1 _ _ _ E1) as (m & s' & -> & L & H).
      exists m, s'. auto using lang.
    + destruct (IH2 _ _ _ Hx) as (m & s' & -> & L & H).
      exists m, s'. auto using lang.
  - destruct (rmatch r1 k s) as [y|] eqn:E1.
    + injection Hx as <-. destruct (IH1 _ _ _ E1) as (m & s' & -> & L & H).
      exists m, s'. auto using lang.
    + exists [], s. auto using lang.
  - destruct (star_m_sound _ _ _ _ Hx) as (m & s' & -> & Hm & Hk).
    exists m, s'. auto using lang.
  - destruct s as [|y s]; [discriminate|].
    destruct (p y) eqn:Hp; [|discriminate].
    destruct (star_m_sound _ _ _ _ Hx) as (m & s' & -> & Hm & Hk).
    exists (y :: m), s'. auto using lang.
Qed.

Lemma exec_at_sound r s rest :
  exec_at r s = Some rest ->
  exists m, s = m ++ rest /\ lang r m.
Proof.
  intros H. destruct (rmatch_sound _ _ _ _ H) as (m & s' & -> & L & [= ->]).
  eauto.
Qed.

Lemma matched_prefix (m rest : jsstring) :
  firstn (List.length (m ++ rest) - List.length rest) (m ++ rest) = m.
Proof.
  rewrite List.length_app, Nat.add_sub.
  rewrite firstn_app, Nat.sub_diag, firstn_all. simpl. apply app_nil_r.
Qed.

Lemma exec_at_prefix r s rest :
  exec_at r s = Some rest ->
  lang r (firstn (List.length s - List.length rest) s).
Proof.
  intros E. destruct (exec_at_sound _ _ _ E) as (m & -> & L).
  now rewrite matched_prefix.
Qed.

(** Every match that [s.match(r)] reports is a string of the pattern. *)
Lemma match_from_lang r : forall s skip m,
  In m (match_from r skip s) -> lang r m.
Proof.
  induction s as [|c s IH]; intros skip m Hin.
  - simpl in Hin. destruct skip; [|contradiction].
    destruct (exec_at r []) as [rest|] eqn:E; [|contradiction].
    destruct Hin as [<-|[]].
    destruct (exec_at_sound _ _ _ E) as (m & Hm & L).
    symmetry in Hm. apply app_eq_nil in Hm as [-> _]. exact L.
  - cbn [match_from] in Hin. destruct skip as [|n]; [|eauto].
    destruct (exec_at r (c :: s)) as [rest|] eqn:E; [|eauto].
    destruct Hin as [<-|Hin]; [|eauto].
    now apply exec_at_prefix.
Qed.

Lemma str_match_lang r s ms m :
  str_match r s = Some ms -> In m ms -> lang r m.
Proof.
  unfold str_match. intros H Hin. apply match_from_lang with (s := s) (skip := O).
  destruct (match_from r 0 s); [discriminate|]. injection H as <-. exact Hin.
Qed.

Lemma star_m_complete p k m s' :
  Forall (fun c => p c = true) m -> k s' <> None -> star_m p k (m ++ s') <> None.
Proof.
  intros Hm Hk. induction Hm as [|c m Hc Hm IH]; simpl.
  - destruct s'; simpl; [exact Hk|].
    destruct (p n); [|exact Hk]. now destruct (star_m p k s').
  - rewrite Hc. now destruct (star_m p k (m ++ s')).
Qed.

(** The matcher finds a match wherever the pattern has one: it backtracks
    over every choice. *)
Lemma rmatch_complete r m :
  lang r m -> forall k s', k s' <> None -> rmatch r k (m ++ s') <> None.
Proof.
  induction 1 as [|c x Hc|p x Hp|r1 r2 s1 s2 _ IH1 _ IH2|r1 r2 s _ IH
                 |r1 r2 s _ IH|r s _ IH|r|p s Hs|p x s Hx Hs];
    intros k s' Hk; simpl.
  - exact Hk.
  - now rewrite Hc.
  - now rewrite Hp.
  - rewrite <- app_assoc. apply IH1, IH2, Hk.
  - specialize (IH _ _ Hk). now destruct (rmatch r1 k (s ++ s')).
  - specialize (IH _ _ Hk). now destruct (rmatch r1 k (s ++ s')).
  - specialize (IH _ _ Hk). now destruct (rmatch r k (s ++ s')).
  - now destruct (rmatch r k s').
  - now apply star_m_complete.
  - rewrite Hx. now apply star_m_complete.
Qed.

Lemma test_app_intro r pre s :
  exec_at r s <> None -> test r (pre ++ s) = true.
Proof.
  intros H. induction pre as [|c pre IH]; simpl.
  - destruct s; simpl; destruct (exec_at r _); congruence.
  - destruct (exec_at r (c :: pre ++ s)); auto.
Qed.

(** *** Letter case *)

Lemma canon_eq_cases a b :
  canon a = canon b -> a = b \/ (65 <= a <= 122 /\ 65 <= b <= 122).
Proof.
  unfold canon.
  destruct (N.leb_spec 97 a), (N.leb_spec a 122), (N.leb_spec 97 b),
    (N.leb_spec b 122); simpl; lia.
Qed.

Lemma is_space_letter a : 65 <= a <= 122 -> is_space a = false.
Proof.
  intros H. unfold is_space.
  repeat match goal with
  | |- context [?x =? ?y] => destruct (N.eqb_spec x y); [lia|]
  | |- context [?x <=? ?y] => destruct (N.leb_spec x y)
  end; simpl; try reflexivity; lia.
Qed.

Lemma is_space_canon a b : canon a = canon b -> is_space a = is_space b.
Proof.
  intros H. destruct (canon_eq_cases _ _ H) as [->|[Ha Hb]]; [reflexivity|].
  now rewrite !is_space_letter.
Qed.

Lemma url_char_letter a : 65 <= a <= 122 -> a <> 91 -> a <> 92 -> a <> 93 ->
  a <> 94 -> a <> 96 -> url_char a = true.
Proof.
  intros H ? ? ? ? ?. unfold url_char. rewrite is_space_letter by exact H.
  repeat match goal with
  | |- context [?x =? ?y] => destruct (N.eqb_spec x y); [lia|]
  end. reflexivity.
Qed.

Lemma star_m_case p k k' :
  (forall a b, canon a = canon b -> p a = p b) ->
  krel k k' -> krel (star_m p k) (star_m p k').
Proof.
  intros Hp Hk s s' H. induction H as [|a b s s' Hab H IH]; simpl.
  - apply Hk. constructor.
  - rewrite <- (Hp _ _ Hab). destruct (p a).
    + destruct (star_m p k s), (star_m p k' s'); simpl in IH; try contradiction;
        auto. apply Hk. now constructor.
    + apply Hk. now constructor.
Qed.

Lemma rmatch_case r : case_blind r ->
  forall k k', krel k k' -> krel (rmatch r k) (rmatch r k').
Proof.
  induction 1 as [|c|p Hp|r1 r2 _ IH1 _ IH2|r1 r2 _ IH1 _ IH2|r1 _ IH1|p Hp|p Hp];
    intros k k' Hk s s' Hs; simpl.
  - now apply Hk.
  - destruct Hs as [|a b s s' Hab Hs]; simpl; [exact I|].
    unfold ci_eq. rewrite <- Hab. destruct (canon c =? canon a); simpl; auto.
  - destruct Hs as [|a b s s' Hab Hs]; simpl; [exact I|].
    rewrite <- (Hp _ _ Hab). destruct (p a); simpl; auto.
  - apply IH1; auto.
  - specialize (IH1 _ _ Hk _ _ Hs). specialize (IH2 _ _ Hk _ _ Hs).
    destruct (rmatch r1 k s), (rmatch r1 k' s'); simpl in IH1; tauto.
  - specialize (IH1 _ _ Hk _ _ Hs). specialize (Hk _ _ Hs).
    destruct (rmatch r1 k s), (rmatch r1 k' s'); simpl in IH1; tauto.
  - now apply star_m_case.
  - destruct Hs as [|a b s s' Hab Hs]; simpl; [exact I|].
    rewrite <- (Hp _ _ Hab). destruct (p a); simpl; auto.
    now apply star_m_case.
Qed.

Lemma test_case r s s' : case_blind r -> case_eqv s s' -> test r s = test r s'.
Proof.
  intros Hr Hs.
  assert (Hk : krel Some Some) by (intros x y Hxy; exact Hxy).
  induction Hs as [|a b s s' Hab Hs IH].
  - assert (Hnil : case_eqv [] []) by constructor.
    simpl. pose proof (rmatch_case r Hr _ _ Hk [] [] Hnil) as H.
    unfold exec_at. destruct (rmatch r Some []), (rmatch r Some []);
      simpl in H; tauto.
  - assert (Hcons : case_eqv (a :: s) (b :: s')) by now constructor.
    pose proof (rmatch_case r Hr _ _ Hk (a :: s) (b :: s') Hcons) as H.
    simpl. unfold exec_at.
    destruct (rmatch r Some (a :: s)), (rmatch r Some (b :: s'));
      simpl in H; tauto.
Qed.

Lemma case_blind_rchars cs : case_blind (rchars cs).
Proof.
  induction cs as [|c [|c' cs] IH]; simpl; auto using case_blind.
Qed.

Lemma non_space_canon a b : canon a = canon b -> non_space a = non_space b.
Proof. intros H. unfold non_space. now rewrite (is_space_canon _ _ H). Qed.

Lemma case_blind_scheme : case_blind scheme_re.
Proof. repeat constructor. Qed.

Lemma case_blind_path : case_blind path_re.
Proof. repeat constructor. exact non_space_canon. Qed.

Lemma case_blind_YOUTUBE : case_blind YOUTUBE_REGEX.
Proof.
  unfold YOUTUBE_REGEX, youtube_host_re, rstr.
  repeat first [ apply case_blind_scheme | apply case_blind_path
               | apply case_blind_rchars | constructor ].
Qed.

Lemma case_blind_STEAM : case_blind STEAM_REGEX.
Proof.
  unfold STEAM_REGEX, rstr.
  repeat first [ apply case_blind_scheme | apply case_blind_path
               | apply case_blind_rchars | constructor ].
Qed.

(* ===================================================================== *)
(** ** The classifier *)
(* ===================================================================== *)

Lemma categorizeUrl_case url url' :
  case_eqv url url' -> categorizeUrl url' = categorizeUrl url.
Proof.
  intros H. unfold categorizeUrl.
  now rewrite (test_case _ _ _ case_blind_YOUTUBE H),
    (test_case _ _ _ case_blind_STEAM H).
Qed.

(** Literals of the source are brought to code units before a pattern is
    run on an input that is only partly known. *)
Ltac norm_lits :=
  repeat match goal with
  | |- context [lit ?s] =>
      let v := eval vm_compute in (lit s) in progress change (lit s) with v
  end.

Ltac eval_ci :=
  repeat match goal with
  | |- context [ci_eq ?a ?b] =>
      let v := eval vm_compute in (ci_eq a b) in
      match v with
      | true => change (ci_eq a b) with true
      | false => change (ci_eq a b) with false
      end
  end.

(** The scheme can only match where the input has an [h] or an [H], and
    it matches both spellings of the scheme. *)
Lemma scheme_head k c s :
  ci_eq 104 c = false -> rmatch scheme_re k (c :: s) = None.
Proof.
  intros H. unfold scheme_re, rstr. norm_lits. cbn [rmatch rchars].
  now rewrite H.
Qed.

Lemma scheme_http k rest : rmatch scheme_re k (lit "http://" ++ rest) = k rest.
Proof.
  unfold scheme_re, rstr. norm_lits. cbn [rmatch rchars app]. eval_ci.
  cbn iota. reflexivity.
Qed.

Lemma scheme_https k rest : rmatch scheme_re k (lit "https://" ++ rest) = k rest.
Proof.
  unfold scheme_re, rstr. norm_lits. cbn [rmatch rchars app]. eval_ci.
  cbn iota. now destruct (k rest).
Qed.

Lemma test_YOUTUBE_skip c s :
  ci_eq 104 c = false -> test YOUTUBE_REGEX (c :: s) = test YOUTUBE_REGEX s.
Proof.
  intros H. cbn [test]. unfold exec_at at 1, YOUTUBE_REGEX at 1.
  cbn [rmatch]. now rewrite (scheme_head _ _ _ H).
Qed.

Lemma exec_YOUTUBE_scheme rest :
  exec_at YOUTUBE_REGEX (lit "http://" ++ rest)
  = exec_at YOUTUBE_REGEX (lit "https://" ++ rest).
Proof.
  unfold exec_at, YOUTUBE_REGEX. cbn [rmatch].
  now rewrite scheme_http, scheme_https.
Qed.

Lemma test_YOUTUBE_scheme rest :
  test YOUTUBE_REGEX (lit "http://" ++ rest)
  = test YOUTUBE_REGEX (lit "https://" ++ rest).
Proof.
  change (lit "http://" ++ rest) with (104 :: lit "ttp://" ++ rest).
  change (lit "https://" ++ rest) with (104 :: lit "ttps://" ++ rest).
  cbn [test].
  change (104 :: lit "ttp://" ++ rest) with (lit "http://" ++ rest).
  change (104 :: lit "ttps://" ++ rest) with (lit "https://" ++ rest).
  rewrite exec_YOUTUBE_scheme.
  destruct (exec_at YOUTUBE_REGEX (lit "https://" ++ rest)); [reflexivity|].
  change (lit "ttp://" ++ rest) with (116 :: 116 :: 112 :: 58 :: 47 :: 47 :: rest).
  change (lit "ttps://" ++ rest)
    with (116 :: 116 :: 112 :: 115 :: 58 :: 47 :: 47 :: rest).
  now rewrite !test_YOUTUBE_skip by reflexivity.
Qed.

Lemma categorizeUrl_youtube_iff url :
  categorizeUrl url = youtube <-> test YOUTUBE_REGEX url = true.
Proof.
  unfold categorizeUrl. destruct (test YOUTUBE_REGEX url); [tauto|].
  destruct (test STEAM_REGEX url); split; discriminate.
Qed.

(** C4. The classifier is a total function that tries the YouTube pattern
    first, then the Steam pattern, and falls back to the default category:
    a URL that the YouTube pattern matches is [youtube] whatever else it
    matches; the answer does not depend on the case of the letters, and a
    URL is [youtube] under [http://] exactly when it is under
    [https://]. *)
Theorem categorizeUrl_priority (url : jsstring) :
  (test YOUTUBE_REGEX url = true -> categorizeUrl url = youtube) /\
  (test YOUTUBE_REGEX url = false -> test STEAM_REGEX url = true ->
     categorizeUrl url = steam) /\
  (test YOUTUBE_REGEX url = false -> test STEAM_REGEX url = false ->
     categorizeUrl url = other) /\
  (forall url', case_eqv url url' -> categorizeUrl url' = categorizeUrl url) /\
  (categorizeUrl (lit "http://" ++ url) = youtube <->
   categorizeUrl (lit "https://" ++ url) = youtube).
Proof.
  repeat split.
  - unfold categorizeUrl. now intros ->.
  - unfold categorizeUrl. now intros -> ->.
  - unfold categorizeUrl. now intros -> ->.
  - intros url'. apply categorizeUrl_case.
  - rewrite !categorizeUrl_youtube_iff, test_YOUTUBE_scheme. auto.
  - rewrite !categorizeUrl_youtube_iff, test_YOUTUBE_scheme. auto.
Qed.

Lemma categorizeUrl_priority_witness :
  categorizeUrl (lit "https://youtu.be/abc123") = youtube /\
  categorizeUrl (lit "https://store.steampowered.com/app/999") = steam /\
  categorizeUrl (lit "https://example.org/") = other /\
  categorizeUrl (lit "HTTPS://YouTu.Be/abc123")
    = categorizeUrl (lit "https://youtu.be/abc123").
Proof.
  split; [|split; [|split]].
  - destruct (categorizeUrl_priority (lit "https://youtu.be/abc123"))
      as (H & _). apply H. reflexivity.
  - destruct (categorizeUrl_priority (lit "https://store.steampowered.com/app/999"))
      as (_ & H & _). apply H; reflexivity.
  - destruct (categorizeUrl_priority (lit "https://example.org/"))
      as (_ & _ & H & _). apply H; reflexivity.
  - destruct (categorizeUrl_priority (lit "https://youtu.be/abc123"))
      as (_ & _ & _ & H & _). apply H.
    unfold case_eqv. repeat constructor.
Defined.

Lemma lang_rchars cs : lang (rchars cs) cs.
Proof.
  induction cs as [|c [|c' cs] IH]; simpl.
  - constructor.
  - constructor. unfold ci_eq. apply N.eqb_refl.
  - apply (L_seq (RChar c) _ [c]); [|exact IH].
    constructor. unfold ci_eq. apply N.eqb_refl.
Qed.

Lemma case_eqv_refl s : case_eqv s s.
Proof. induction s; constructor; auto. Qed.

Lemma lang_youtube_host (www host : string) :
  In www [""; "www."]%string ->
  In host ["youtube.com"; "youtu.be"; "m.youtube.com"]%string ->
  lang youtube_host_re (lit www ++ lit host).
Proof.
  intros Hw Hh. unfold youtube_host_re. apply L_seq.
  - simpl in Hw. destruct Hw as [<-|[<-|[]]].
    + apply L_opt_none.
    + apply L_opt_some, lang_rchars.
  - rewrite <- (app_nil_r (lit host)). apply L_seq; [|apply L_opt_none].
    simpl in Hh. destruct Hh as [<-|[<-|[<-|[]]]].
    + apply L_alt_l, lang_rchars.
    + apply L_alt_r, L_alt_l, lang_rchars.
    + apply L_alt_r, L_alt_r, lang_rchars.
Qed.

(** X21. Every spelling of the three hosts is classified as [youtube], with
    either scheme, with or without [www.], whatever surrounds it. *)
Lemma categorizeUrl_youtube_hosts (pre u tail : jsstring) (scheme www host : string) :
  In scheme ["http://"; "https://"]%string ->
  In www [""; "www."]%string ->
  In host ["youtube.com"; "youtu.be"; "m.youtube.com"]%string ->
  case_eqv (lit scheme ++ lit www ++ lit host) u ->
  categorizeUrl (pre ++ u ++ tail) = youtube.
Proof.
  intros Hs Hw Hh Hu.
  assert (Hc : case_eqv (pre ++ (lit scheme ++ lit www ++ lit host) ++ tail)
                 (pre ++ u ++ tail)).
  { unfold case_eqv. apply Forall2_app; [apply case_eqv_refl|].
    apply Forall2_app; [exact Hu|apply case_eqv_refl]. }
  rewrite (categorizeUrl_case _ _ Hc).
  apply categorizeUrl_youtube_iff. apply test_app_intro.
  rewrite <- app_assoc.
  pose proof (rmatch_complete _ _ (lang_youtube_host _ _ Hw Hh) Some tail) as Hhost.
  unfold exec_at, YOUTUBE_REGEX. cbn [rmatch].
  simpl in Hs. destruct Hs as [<-|[<-|[]]].
  - rewrite scheme_http. now apply Hhost.
  - rewrite scheme_https. now apply Hhost.
Qed.

(* ===================================================================== *)
(** ** URL extraction *)
(* ===================================================================== *)

Lemma lang_rchars_inv cs : forall s, lang (rchars cs) s -> case_eqv cs s.
Proof.
  induction cs as [|c [|c' cs] IH]; intros s H.
  - inversion H; subst. constructor.
  - inversion H; subst. constructor; [|constructor].
    now apply N.eqb_eq.
  - change (rchars (c :: c' :: cs)) with (RSeq (RChar c) (rchars (c' :: cs))) in H.
    inversion H as [| | |r1 r2 s1 s2 H1 H2| | | | | |]; subst.
    inversion H1; subst. constructor; [now apply N.eqb_eq|]. now apply IH.
Qed.

Lemma lang_scheme s :
  lang scheme_re s ->
  case_eqv (lit "http://") s \/ case_eqv (lit "https://") s.
Proof.
  unfold scheme_re. intros H.
  inversion H as [| | |r1 r2 s1 s2 H1 H2| | | | | |]; subst.
  inversion H2 as [| | |r1 r2 s3 s4 H3 H4| | | | | |]; subst.
  apply lang_rchars_inv in H1, H4.
  inversion H3 as [| | | | | |r s5 H5|r| |]; subst.
  - right. inversion H5; subst.
    change (lit "https://") with (lit "http" ++ [115] ++ lit "://").
    apply Forall2_app; [exact H1|]. apply Forall2_app; [|exact H4].
    constructor; [now apply N.eqb_eq|constructor].
  - left. change (lit "http://") with (lit "http" ++ lit "://").
    apply Forall2_app; [exact H1|exact H4].
Qed.

Lemma url_char_spec c :
  url_char c = true -> is_space c = false /\ ~ In c excluded_chars.
Proof.
  unfold url_char, excluded_chars. intros H. apply negb_true_iff in H.
  remember (is_space c) as sp eqn:Esp. clear Esp.
  repeat (apply orb_false_iff in H; destruct H as [H ?]).
  repeat match goal with
  | E : (_ =? _) = false |- _ => apply N.eqb_neq in E
  end.
  split; [exact H|]. simpl. intuition congruence.
Qed.

Lemma lang_URL u :
  lang URL_REGEX u ->
  exists scheme body c,
    u = scheme ++ body ++ [c]
    /\ (case_eqv (lit "http://") scheme \/ case_eqv (lit "https://") scheme)
    /\ Forall (fun x => url_char x = true) (body ++ [c]).
Proof.
  unfold URL_REGEX. intros H.
  inversion H as [| | |r1 r2 s1 s2 H1 H2| | | | | |]; subst.
  inversion H2 as [| | | | | | | | |p x s Hx Hs]; subst.
  destruct (exists_last (l := x :: s)) as (body & c & E); [discriminate|].
  exists s1, body, c. rewrite <- E. repeat split.
  - now apply lang_scheme.
  - now constructor.
Qed.

(** C9, as the spec states it, fails: the class of URL_REGEX leaves out
    white space and eleven characters only, so a full stop or a closing
    parenthesis after a URL is taken into the match. *)
Lemma extractUrls_trailing_punctuation :
  ~ (forall text urls u,
       extractUrls text = Some urls -> In u urls -> ends_clean u).
Proof.
  intros H.
  specialize (H (lit "see (https://example.com/a).")
                [lit "https://example.com/a)."]
                (lit "https://example.com/a).") eq_refl (or_introl eq_refl)).
  discriminate H.
Qed.

(** C9, amended. Every extracted URL is a scheme, [http://] or [https://]
    in any letter case, followed by at least one character, and every
    character after the scheme, the last one included, is neither white
    space nor one of the eleven excluded characters. *)
Theorem extractUrls_shape (text : jsstring) (urls : list jsstring) (u : jsstring) :
  extractUrls text = Some urls -> In u urls ->
  exists scheme body c,
    u = scheme ++ body ++ [c]
    /\ (case_eqv (lit "http://") scheme \/ case_eqv (lit "https://") scheme)
    /\ Forall (fun x => is_space x = false /\ ~ In x excluded_chars) (body ++ [c]).
Proof.
  intros Hm Hin.
  destruct (lang_URL u (str_match_lang _ _ _ _ Hm Hin))
    as (scheme & body & c & -> & Hs & Hb).
  exists scheme, body, c. repeat split; auto.
  eapply Forall_impl; [exact Hb|]. intros x. apply url_char_spec.
Qed.

Lemma extractUrls_shape_witness :
  exists scheme body c,
    lit "https://example.com/a)." = scheme ++ body ++ [c]
    /\ (case_eqv (lit "http://") scheme \/ case_eqv (lit "https://") scheme)
    /\ Forall (fun x => is_space x = false /\ ~ In x excluded_chars) (body ++ [c]).
Proof.
  apply (extractUrls_shape (lit "see (https://example.com/a).")
           [lit "https://example.com/a)."]).
  - reflexivity.
  - left. reflexivity.
Defined.

(* ===================================================================== *)
(** ** Laws of the effect layer *)
(* ===================================================================== *)

Lemma acts_bind {A B} (m : M A) (f : A -> M B) w :
  acts (bind m f w)
  = acts (m w) ++ match out (m w) with
                  | Ok a => acts (f a (world (m w)))
                  | _ => []
                  end.
Proof.
  unfold bind. destruct (out (m w)); simpl; auto using app_nil_r.
Qed.

Lemma out_bind {A B} (m : M A) (f : A -> M B) w :
  out (bind m f w)
  = match out (m w) with
    | Ok a => out (f a (world (m w)))
    | Throw => Throw
    | OutOfFuel => OutOfFuel
    end.
Proof. unfold bind. now destruct (out (m w)). Qed.

Lemma world_bind {A B} (m : M A) (f : A -> M B) w :
  world (bind m f w)
  = match out (m w) with
    | Ok a => world (f a (world (m w)))
    | _ => world (m w)
    end.
Proof. unfold bind. now destruct (out (m w)). Qed.

Lemma acts_tryCatch {A} (m h : M A) w :
  acts (tryCatch m h w)
  = acts (m w) ++ match out (m w) with
                  | Throw => acts (h (world (m w)))
                  | _ => []
                  end.
Proof.
  unfold tryCatch. destruct (out (m w)); simpl; auto using app_nil_r.
Qed.

Lemma out_tryCatch {A} (m h : M A) w :
  out (tryCatch m h w)
  = match out (m w) with
    | Throw => out (h (world (m w)))
    | o => o
    end.
Proof. unfold tryCatch. now destruct (out (m w)) eqn:E. Qed.

Lemma world_tryCatch {A} (m h : M A) w :
  world (tryCatch m h w)
  = match out (m w) with
    | Throw => world (h (world (m w)))
    | _ => world (m w)
    end.
Proof. unfold tryCatch. now destruct (out (m w)). Qed.

(** A rejection that is caught and only logged is not seen outside. *)
Lemma tryCatch_ret_no_throw {A} (m : M A) (a : A) w :
  out (tryCatch m (ret a) w) <> Throw.
Proof. rewrite out_tryCatch. destruct (out (m w)) eqn:E; simpl; congruence. Qed.

Lemma acts_platform {A} a (k : World -> Outcome A * World) w :
  acts (platform a k w) = [a].
Proof.
  unfold platform. destruct (faults w) as [|[] fs]; simpl; auto;
    now destruct (k _).
Qed.

(** With no fault pending, a platform call does what the platform does. *)
Lemma platform_ok {A} a (k : World -> Outcome A * World) w :
  faults w = [] ->
  platform a k w = mkRes (fst (k w)) (snd (k w)) [a].
Proof. unfold platform. intros ->. now destruct (k w). Qed.

Lemma traceP_ret {A} P (a : A) : traceP P (ret a).
Proof. intros w. constructor. Qed.

Lemma traceP_gets {A} P (f : World -> A) : traceP P (gets f).
Proof. intros w. constructor. Qed.

Lemma traceP_modify P f : traceP P (modify f).
Proof. intros w. constructor. Qed.

Lemma traceP_emit (P : Action -> Prop) a : P a -> traceP P (emit a).
Proof. intros H w. simpl. auto. Qed.

Lemma traceP_platform {A} (P : Action -> Prop) a (k : World -> Outcome A * World) :
  P a -> traceP P (platform a k).
Proof. intros H w. rewrite acts_platform. auto. Qed.

Lemma traceP_bind {A B} P (m : M A) (f : A -> M B) :
  traceP P m -> (forall a, traceP P (f a)) -> traceP P (bind m f).
Proof.
  intros Hm Hf w. rewrite acts_bind. apply Forall_app. split; [apply Hm|].
  destruct (out (m w)); [apply Hf|constructor|constructor].
Qed.

Lemma traceP_tryCatch {A} P (m h : M A) :
  traceP P m -> traceP P h -> traceP P (tryCatch m h).
Proof.
  intros Hm Hh w. rewrite acts_tryCatch. apply Forall_app. split; [apply Hm|].
  destruct (out (m w)); [constructor|apply Hh|constructor].
Qed.

Lemma traceP_impl {A} (P Q : Action -> Prop) (m : M A) :
  (forall a, P a -> Q a) -> traceP P m -> traceP Q m.
Proof. intros H Hm w. eapply Forall_impl; [apply Hm|exact H]. Qed.

(** A call on the platform consumes the head of the schedule of
    rejections. *)
Lemma platform_reject {A} a (k : World -> Outcome A * World) w fs :
  faults w = true :: fs -> platform a k w = mkRes Throw (set_faults fs w) [a].
Proof. unfold platform. now intros ->. Qed.

Lemma platform_pass {A} a (k : World -> Outcome A * World) w fs :
  faults w = false :: fs ->
  platform a k w
  = mkRes (fst (k (set_faults fs w))) (snd (k (set_faults fs w))) [a].
Proof. unfold platform. intros ->. now destruct (k _). Qed.

(** A call of [buildLinkEmbed] makes no call on the platform; what
    follows it runs on the embed that [buildLinkEmbed] describes, or not
    at all. *)
Lemma bind_buildLinkEmbed `{Runtime} {B} now category urls user sourceChannel
    timestamp (k : Embed -> M B) w :
  bind (buildLinkEmbed_call now category urls user sourceChannel timestamp) k w
  = if embed_accepted
         (buildLinkEmbed now category urls user sourceChannel timestamp)
    then k (buildLinkEmbed now category urls user sourceChannel timestamp) w
    else mkRes Throw w [].
Proof.
  unfold bind, buildLinkEmbed_call. cbn [out world acts].
  destruct (embed_accepted _); [|reflexivity].
  cbn [app]. now destruct (k _ w).
Qed.

Lemma traceP_buildLinkEmbed `{Runtime} {B} P now category urls user
    sourceChannel timestamp (k : Embed -> M B) :
  traceP P (k (buildLinkEmbed now category urls user sourceChannel timestamp)) ->
  traceP P
    (bind (buildLinkEmbed_call now category urls user sourceChannel timestamp) k).
Proof.
  intros Hk w. rewrite bind_buildLinkEmbed.
  destruct (embed_accepted _); [apply Hk|constructor].
Qed.

(** One step of a proof that every call of a computation satisfies a
    property: follow the structure of the code. *)
Ltac trace_step :=
  match goal with
  | |- traceP _ (bind (buildLinkEmbed_call _ _ _ _ _ _) _) =>
      apply traceP_buildLinkEmbed
  | |- traceP _ (ret _) => apply traceP_ret
  | |- traceP _ (gets _) => apply traceP_gets
  | |- traceP _ (modify _) => apply traceP_modify
  | |- traceP _ (emit _) => apply traceP_emit
  | |- traceP _ (platform _ _) => apply traceP_platform
  | |- traceP _ (bind _ _) => apply traceP_bind; [|intros ?]
  | |- traceP _ (tryCatch _ _) => apply traceP_tryCatch
  | |- traceP _ (if ?b then _ else _) => destruct b
  | |- traceP _ (match ?x with _ => _ end) => destruct x
  | |- traceP _ (let '(_, _) := ?x in _) => destruct x
  end.

Ltac trace_auto := repeat trace_step.

(** The calls of the platform primitives. *)
Lemma traceP_fetchMessages P ch limit before :
  P (AFetch ch limit before) -> traceP P (fetchMessages ch limit before).
Proof. intros H. now apply traceP_platform. Qed.

Lemma traceP_msgDelete (P : Action -> Prop) m :
  P (ADelete m) -> traceP P (msgDelete m).
Proof. intros H. now apply traceP_platform. Qed.

Lemma traceP_chSend (P : Action -> Prop) ch p :
  P (ASend ch p) -> traceP P (chSend ch p).
Proof. intros H. now apply traceP_platform. Qed.

Lemma traceP_getOrCreateLatestThread `{Runtime} (P : Action -> Prop) ch :
  (forall a, is_send a = false -> is_delete a = false -> P a) ->
  traceP P (getOrCreateLatestThread ch).
Proof.
  intros HP. unfold getOrCreateLatestThread, existingThreadOf, fetchMessages,
    threadFetch, setArchived, startThread.
  trace_auto; now apply HP.
Qed.

Lemma res_eta {A} (r : Res A) : mkRes (out r) (world r) (acts r) = r.
Proof. now destruct r. Qed.

Lemma bind_ret {A B} (a : A) (k : A -> M B) w : bind (ret a) k w = k a w.
Proof. unfold bind, ret. simpl. apply res_eta. Qed.

Lemma bind_gets {A B} (f : World -> A) (k : A -> M B) w :
  bind (gets f) k w = k (f w) w.
Proof. unfold bind, gets. simpl. apply res_eta. Qed.

Lemma bind_modify {B} (f : World -> World) (k : unit -> M B) w :
  bind (modify f) k w = k tt (f w).
Proof. unfold bind, modify. simpl. apply res_eta. Qed.

(* ===================================================================== *)
(** ** The live handler *)
(* ===================================================================== *)

Lemma record_send_is_send a : is_send a = false -> is_record_send a = false.
Proof. now destruct a. Qed.

(** The three blocks of the handler that run under [try] make no
    Summary Record: what they send is text. *)
Lemma traceP_strictIntercept `{Runtime} (P : Action -> Prop) message :
  (forall a, is_record_send a = false -> P a) ->
  traceP P (strictIntercept message).
Proof.
  intros HP. unfold strictIntercept, msgDelete, threadSend, chSend.
  trace_auto; try (now apply HP).
  apply traceP_getOrCreateLatestThread.
  intros x Hx _. now apply HP, record_send_is_send.
Qed.

Lemma traceP_privateBlock (P : Action -> Prop) message :
  (forall a, is_record_send a = false -> P a) ->
  traceP P (privateBlock message).
Proof.
  intros HP. unfold privateBlock, msgDelete, chSend.
  trace_auto; now apply HP.
Qed.

Lemma traceP_deleteAndNotify (P : Action -> Prop) message routed :
  (forall a, is_record_send a = false -> P a) ->
  traceP P (deleteAndNotify message routed).
Proof.
  intros HP. unfold deleteAndNotify, msgDelete, chSend.
  trace_auto; now apply HP.
Qed.

(** The loop over [toRoute] only sends Summary Records of the message. *)
Lemma traceP_routeLinks `{Runtime} message toRoute : forall routed,
  traceP (fun a => is_record_send a = true /\ sends_records_of message a)
    (routeLinks message toRoute routed).
Proof.
  induction toRoute as [|[category urls] rest IH]; intros routed; simpl.
  - apply traceP_ret.
  - unfold chSend. trace_auto; auto.
    split; [reflexivity|]. simpl. constructor; [|constructor].
    now exists category, urls, a.
Qed.

Lemma messageCreate_unfold `{Runtime} message w :
  messageCreate message w =
  if bot (msg_author message) then ret tt w
  else match msg_guild message with
       | None => ret tt w
       | Some _ =>
           if isThread (msg_channel message) then ret tt w
           else if isDestinationChannel w (ch_id (msg_channel message)) then
                  tryCatch (strictIntercept message) (ret tt) w
           else match extractUrls (msg_content message) with
                | None => ret tt w
                | Some allUrls =>
                    if includes (default [] (ch_name (msg_channel message)))
                         private_marker
                    then tryCatch (privateBlock message) (ret tt) w
                    else match toRouteOf w message allUrls with
                         | [] => ret tt w
                         | toRoute => routeAndNotify message toRoute w
                         end
                end
       end.
Proof.
  unfold messageCreate, routeAndNotify, toRouteOf.
  destruct (bot _); [reflexivity|].
  destruct (msg_guild _); [|reflexivity].
  destruct (isThread _); [reflexivity|].
  rewrite bind_gets.
  destruct (isDestinationChannel _ _); [reflexivity|].
  destruct (extractUrls _); [|reflexivity].
  destruct (includes _ _); [reflexivity|].
  rewrite bind_gets. now destruct (List.filter _ _).
Qed.

Lemma traceP_routeAndNotify_split `{Runtime} message toRoute w :
  exists sends rest,
    acts (routeAndNotify message toRoute w) = sends ++ rest
    /\ Forall (fun a => is_record_send a = true /\ sends_records_of message a) sends
    /\ Forall (fun a => is_record_send a = false) rest.
Proof.
  unfold routeAndNotify. rewrite acts_bind.
  eexists _, _. split; [reflexivity|]. split; [apply traceP_routeLinks|].
  destruct (out _) as [[|r routed]| |]; try constructor.
  apply (traceP_tryCatch (fun a => is_record_send a = false)).
  - now apply traceP_deleteAndNotify.
  - apply traceP_ret.
Qed.

(** Every embed that the live handler sends is a record of the message
    it handles. *)
Lemma messageCreate_sends_records `{Runtime} message :
  traceP (sends_records_of message) (messageCreate message).
Proof.
  assert (Htext : forall a, is_record_send a = false -> sends_records_of message a).
  { intros [] Ha; simpl in *; auto. destruct (p_embeds p); [constructor|discriminate]. }
  intros w. rewrite messageCreate_unfold.
  destruct (bot _); [constructor|].
  destruct (msg_guild _); [|constructor].
  destruct (isThread _); [constructor|].
  destruct (isDestinationChannel _ _).
  { apply (traceP_tryCatch (sends_records_of message));
      [now apply traceP_strictIntercept|apply traceP_ret]. }
  destruct (extractUrls _); [|constructor].
  destruct (includes _ _).
  { apply (traceP_tryCatch (sends_records_of message));
      [now apply traceP_privateBlock|apply traceP_ret]. }
  destruct (toRouteOf _ _ _) as [|e toRoute]; [constructor|].
  destruct (traceP_routeAndNotify_split message (e :: toRoute) w)
    as (sends & rest & -> & Hs & Hr).
  apply Forall_app. split.
  - eapply Forall_impl; [exact Hs|]. now intros a [_ Ha].
  - eapply Forall_impl; [exact Hr|]. exact Htext.
Qed.

Lemma str_eqb_refl s : str_eqb s s = true.
Proof. induction s; simpl; auto. now rewrite N.eqb_refl. Qed.

Lemma str_eqb_eq s t : str_eqb s t = true <-> s = t.
Proof.
  split; [|intros ->; apply str_eqb_refl].
  revert t. induction s as [|a s IH]; intros [|b t]; simpl; try discriminate; auto.
  intros H. apply andb_true_iff in H as [Hab Hst].
  apply N.eqb_eq in Hab. now rewrite Hab, (IH _ Hst).
Qed.

Lemma getDestinationId_isDestination w category :
  isDestinationChannel w (getDestinationId w category) = true.
Proof.
  unfold isDestinationChannel.
  destruct category; simpl; rewrite str_eqb_refl; simpl;
    rewrite ?orb_true_r; reflexivity.
Qed.

Lemma str_match_nonempty r s ms : str_match r s = Some ms -> ms <> [].
Proof.
  unfold str_match. destruct (match_from r 0 s); [discriminate|].
  now intros [= <-].
Qed.

(** Sending never removes a message. *)
Lemma chSend_keeps ch p w c x :
  In x (messages_of w c) -> In x (messages_of (world (chSend ch p w)) c).
Proof.
  intros Hin. unfold chSend, platform.
  destruct (faults w) as [|[] fs]; simpl; auto; unfold messages_of; simpl;
    (destruct (decide (ch_id ch = c)) as [->|Hne];
     [rewrite lookup_insert_eq; simpl; now right
     |now rewrite lookup_insert_ne]).
Qed.

Lemma routeLinks_keeps `{Runtime} message c x toRoute : forall routed w,
  In x (messages_of w c) ->
  In x (messages_of (world (routeLinks message toRoute routed w)) c).
Proof.
  induction toRoute as [|[category urls] rest IH]; intros routed w Hin; cbn [routeLinks].
  - exact Hin.
  - rewrite bind_gets. destruct (dc_get _ _) as [dest|]; [|now apply IH].
    rewrite bind_gets, bind_buildLinkEmbed.
    destruct (embed_accepted _); [|exact Hin].
    rewrite world_bind.
    destruct (out (chSend _ _ w)); try now apply chSend_keeps.
    now apply IH, chSend_keeps.
Qed.

Lemma routeLinks_never_stuck `{Runtime} message toRoute : forall routed w,
  out (routeLinks message toRoute routed w) <> OutOfFuel.
Proof.
  induction toRoute as [|[category urls] rest IH]; intros routed w; cbn [routeLinks].
  - discriminate.
  - rewrite bind_gets. destruct (dc_get _ _) as [dest|]; [|now apply IH].
    rewrite bind_gets, bind_buildLinkEmbed.
    destruct (embed_accepted _); [|discriminate].
    rewrite out_bind.
    destruct (out (chSend _ _ w)) eqn:E; try discriminate; [apply IH|].
    exfalso. revert E. unfold chSend, platform.
    destruct (faults w) as [|[] fs]; discriminate.
Qed.

(** The calls of the loop over [toRoute] consume the schedule of
    rejections one entry per call: a send that is rejected is the last
    call, and the loop ends in a rejection. *)
Lemma routeLinks_rejected_send `{Runtime} message toRoute :
  forall routed w pre a post,
    acts (routeLinks message toRoute routed w) = pre ++ a :: post ->
    nth (List.length pre) (faults w) false = true ->
    post = [] /\ out (routeLinks message toRoute routed w) = Throw.
Proof.
  induction toRoute as [|[category urls] rest IH];
    intros routed w pre a post; cbn [routeLinks].
  - intros E. now destruct pre.
  - rewrite bind_gets. destruct (dc_get _ _) as [dest|]; [|apply IH].
    rewrite bind_gets, bind_buildLinkEmbed.
    destruct (embed_accepted _); [|intros E; now destruct pre].
    unfold chSend.
    destruct (faults w) as [|[] fs] eqn:Ef.
    + intros _ Hn. now destruct (List.length pre).
    + unfold bind. rewrite (platform_reject _ _ _ _ Ef). cbn [out acts].
      intros E _. destruct pre as [|x [|y pre]]; try discriminate E.
      injection E as _ <-. auto.
    + unfold bind. rewrite (platform_pass _ _ _ _ Ef). cbn [fst snd out world acts app].
      intros E Hn. destruct pre as [|x pre]; [discriminate Hn|].
      injection E as _ E. cbn [List.length nth] in Hn.
      eapply IH; [exact E|exact Hn].
Qed.

(** A list whose first part holds only what [P] accepts and whose second
    part holds nothing of it: an element that [P] accepts lies in the
    first part. *)
Lemma in_first_part {A} (P : A -> bool) (l r pre post : list A) a :
  l ++ r = pre ++ a :: post ->
  Forall (fun x => P x = false) r ->
  P a = true ->
  exists post', l = pre ++ a :: post' /\ post = post' ++ r.
Proof.
  revert pre. induction l as [|x l IH]; intros pre E Hr Ha.
  - cbn [app] in E. subst r. apply Forall_app in Hr as [_ Hr].
    inversion Hr as [|? ? Hx _]; subst. congruence.
  - destruct pre as [|y pre]; cbn [app] in E; injection E as <- E.
    + exists l. auto.
    + destruct (IH pre E Hr Ha) as (post' & -> & ->). now exists post'.
Qed.

(** The order of the calls of the handler, and what a rejection leaves
    behind. *)
Lemma route_then_delete `{Runtime} (message : Message) (w : World) :
  let r := messageCreate message w in
  (exists sends rest,
      acts r = sends ++ rest
      /\ Forall (fun a => is_delete a = false) sends
      /\ Forall (fun a => is_record_send a = false) rest)
  /\ (forall pre a post,
        acts r = pre ++ a :: post ->
        is_record_send a = true ->
        nth (List.length pre) (faults w) false = true ->
        post = [] /\ out r = Throw)
  /\ (out r = Throw ->
      Forall (fun a => is_record_send a = true /\ is_delete a = false) (acts r)
      /\ forall x, In x (messages_of w (ch_id (msg_channel message))) ->
                   In x (messages_of (world r) (ch_id (msg_channel message)))).
Proof.
  assert (Hnd : forall a, is_record_send a = true -> is_delete a = false)
    by now intros [].
  cbv zeta. rewrite messageCreate_unfold.
  set (goal := fun r : Res unit =>
    (exists sends rest,
        acts r = sends ++ rest
        /\ Forall (fun a => is_delete a = false) sends
        /\ Forall (fun a => is_record_send a = false) rest)
    /\ (forall pre a post,
          acts r = pre ++ a :: post ->
          is_record_send a = true ->
          nth (List.length pre) (faults w) false = true ->
          post = [] /\ out r = Throw)
    /\ (out r = Throw ->
        Forall (fun a => is_record_send a = true /\ is_delete a = false) (acts r)
        /\ forall x, In x (messages_of w (ch_id (msg_channel message))) ->
                     In x (messages_of (world r) (ch_id (msg_channel message))))).
  assert (Hquiet : forall m : M unit,
            traceP (fun a => is_record_send a = false) m ->
            goal (tryCatch m (ret tt) w)).
  { intros m Hm.
    assert (Hall : Forall (fun a => is_record_send a = false)
                     (acts (tryCatch m (ret tt) w)))
      by apply (traceP_tryCatch _ m (ret tt) Hm), traceP_ret.
    split; [|split].
    - exists [], (acts (tryCatch m (ret tt) w)). repeat split; [constructor|].
      exact Hall.
    - intros pre a post E Ha _. exfalso. rewrite E in Hall.
      apply Forall_app in Hall as [_ Hall].
      inversion Hall as [|? ? Hx _]; subst. congruence.
    - intros Ht. now apply tryCatch_ret_no_throw in Ht. }
  assert (Hidle : goal (ret tt w)).
  { split; [exists [], []; repeat split; constructor|].
    split; [|discriminate]. intros pre a post E. now destruct pre. }
  change (goal
    (if bot (msg_author message) then ret tt w
     else match msg_guild message with
          | None => ret tt w
          | Some _ =>
              if isThread (msg_channel message) then ret tt w
              else if isDestinationChannel w (ch_id (msg_channel message)) then
                     tryCatch (strictIntercept message) (ret tt) w
              else match extractUrls (msg_content message) with
                   | None => ret tt w
                   | Some allUrls =>
                       if includes (default [] (ch_name (msg_channel message)))
                            private_marker
                       then tryCatch (privateBlock message) (ret tt) w
                       else match toRouteOf w message allUrls with
                            | [] => ret tt w
                            | toRoute => routeAndNotify message toRoute w
                            end
                   end
          end)).
  destruct (bot _); [exact Hidle|].
  destruct (msg_guild _); [|exact Hidle].
  destruct (isThread _); [exact Hidle|].
  destruct (isDestinationChannel _ _);
    [apply Hquiet; now apply traceP_strictIntercept|].
  destruct (extractUrls _); [|exact Hidle].
  destruct (includes _ _); [apply Hquiet; now apply traceP_privateBlock|].
  destruct (toRouteOf _ _ _) as [|e toRoute]; [exact Hidle|].
  unfold goal. clear goal Hquiet Hidle.
  pose proof (traceP_routeLinks message (e :: toRoute) [] w) as Hs.
  pose proof (routeLinks_never_stuck message (e :: toRoute) [] w) as Hns.
  split; [|split].
  - destruct (traceP_routeAndNotify_split message (e :: toRoute) w)
      as (sends & rest & E & Hs' & Hr).
    exists sends, rest. repeat split; auto.
    eapply Forall_impl; [exact Hs'|]. intros a [Ha _]. now apply Hnd.
  - intros pre a post E Ha Hn. revert E.
    unfold routeAndNotify. rewrite out_bind, acts_bind. intros E.
    assert (Hrest : Forall (fun x => is_record_send x = false)
              (match out (routeLinks message (e :: toRoute) [] w) with
               | Ok routed =>
                   acts (match routed with
                         | [] => ret tt
                         | _ => tryCatch (deleteAndNotify message routed) (ret tt)
                         end (world (routeLinks message (e :: toRoute) [] w)))
               | _ => []
               end)).
    { destruct (out _) as [[|r0 routed]| |]; try constructor.
      apply (traceP_tryCatch (fun a => is_record_send a = false)).
      - now apply traceP_deleteAndNotify.
      - apply traceP_ret. }
    destruct (in_first_part is_record_send _ _ _ _ _ E Hrest Ha)
      as (post' & El & ->).
    destruct (routeLinks_rejected_send message (e :: toRoute) [] w pre a post'
                El Hn) as [-> Ht].
    rewrite Ht. auto.
  - unfold routeAndNotify. rewrite out_bind, acts_bind, world_bind.
    destruct (out (routeLinks message (e :: toRoute) [] w)) as [routed| |];
      [|intros _|contradiction].
    + intros Ht. exfalso. destruct routed; [discriminate Ht|].
      now apply tryCatch_ret_no_throw in Ht.
    + rewrite app_nil_r. split.
      * eapply Forall_impl; [exact Hs|]. intros a [Ha _]. auto.
      * intros x. apply routeLinks_keeps.
Qed.

(** C2. In the handling of one live message, every Summary Record is sent
    before the original message is deleted: the calls made split into a
    first part without any deletion and a second part without any record.
    When the send of a record is rejected, it is the last call of the
    handler: the handler ends in a rejection, it has made no deletion, and
    the messages of the room, the original among them, are still there.
    The same holds whenever the handler ends in a rejection, be it for a
    rejected send or for a record that could not be composed: all calls
    made are record sends. *)
Theorem relocations_precede_deletion `{Runtime} (message : Message) (w : World) :
  let r := messageCreate message w in
  let room := ch_id (msg_channel message) in
  (exists sends rest,
      acts r = sends ++ rest
      /\ Forall (fun a => is_delete a = false) sends
      /\ Forall (fun a => is_record_send a = false) rest)
  /\ (forall pre a post,
        acts r = pre ++ a :: post ->
        is_record_send a = true ->
        nth (List.length pre) (faults w) false = true ->
        post = []
        /\ out r = Throw
        /\ Forall (fun x => is_delete x = false) (acts r)
        /\ forall x, In x (messages_of w room) ->
                     In x (messages_of (world r) room))
  /\ (out r = Throw ->
      Forall (fun a => is_record_send a = true /\ is_delete a = false) (acts r)
      /\ forall x, In x (messages_of w room) ->
                   In x (messages_of (world r) room)).
Proof.
  cbv zeta. destruct (route_then_delete message w) as (Hsplit & Hrej & Hthrow).
  split; [exact Hsplit|]. split; [|exact Hthrow].
  intros pre a post E Ha Hn. destruct (Hrej pre a post E Ha Hn) as [Hpost Hout].
  destruct (Hthrow Hout) as [Hall Hkeep].
  split; [exact Hpost|]. split; [exact Hout|]. split; [|exact Hkeep].
  revert Hall. apply List.Forall_impl. now intros x [_ Hx].
Qed.

Lemma relocations_precede_deletion_witness :
  let w := set_faults [false; true] Fixture.w0 in
  let r := messageCreate Fixture.mixed w in
  out r = Throw
  /\ Forall (fun a => is_record_send a = true /\ is_delete a = false) (acts r)
  /\ forall x, In x (messages_of w (ch_id Fixture.general)) ->
               In x (messages_of (world r) (ch_id Fixture.general)).
Proof.
  cbv zeta.
  destruct (relocations_precede_deletion Fixture.mixed
              (set_faults [false; true] Fixture.w0)) as (_ & Hrej & Hthrow).
  assert (Hout : out (messageCreate Fixture.mixed
                        (set_faults [false; true] Fixture.w0)) = Throw).
  { refine (proj1 (proj2 (Hrej
             [ASend Fixture.videos
                (embed_payload
                   (buildLinkEmbed (clock Fixture.w0) youtube
                      [lit "https://youtu.be/abc123"] Fixture.alice
                      (Some Fixture.general)
                      (Some (msg_createdAt Fixture.mixed))))]
             (ASend Fixture.games
                (embed_payload
                   (buildLinkEmbed (clock Fixture.w0) steam
                      [lit "https://store.steampowered.com/app/999"]
                      Fixture.alice (Some Fixture.general)
                      (Some (msg_createdAt Fixture.mixed)))))
             [] _ _ _))).
    - vm_compute. reflexivity.
    - reflexivity.
    - reflexivity. }
  split; [exact Hout|]. apply Hthrow, Hout.
Defined.

(** C3 and C6 both start from this: in a destination room the first call
    of the handler deletes the message. *)
Lemma strict_acts_head `{Runtime} message w :
  exists rest,
    acts (tryCatch (strictIntercept message) (ret tt) w) = ADelete message :: rest.
Proof.
  rewrite acts_tryCatch. unfold strictIntercept. rewrite acts_bind.
  unfold msgDelete at 1. rewrite acts_platform. simpl. eauto.
Qed.

(** C6, as the spec states it, fails: a message whose only link belongs
    in the room it was posted in is in a destination room, and there the
    handler deletes every message. *)
Lemma placed_message_is_deleted :
  ~ (forall (RT : Runtime) message w,
       (forall urls, extractUrls (msg_content message) = Some urls ->
          Forall (fun u => getDestinationId w (categorizeUrl u)
                           = ch_id (msg_channel message)) urls) ->
       Forall (fun a => is_send a = false /\ is_delete a = false)
         (acts (messageCreate message w))).
Proof.
  intros H. specialize (H Fixture.runtime Fixture.placed Fixture.w0).
  assert (Hhyp : forall urls,
             extractUrls (msg_content Fixture.placed) = Some urls ->
             Forall (fun u => getDestinationId Fixture.w0 (categorizeUrl u)
                              = ch_id (msg_channel Fixture.placed)) urls).
  { intros urls E. vm_compute in E. injection E as <-.
    constructor; [vm_compute; reflexivity|constructor]. }
  specialize (H Hhyp).
  assert (E : exists rest, acts (messageCreate Fixture.placed Fixture.w0)
                           = ADelete Fixture.placed :: rest).
  { rewrite messageCreate_unfold. apply strict_acts_head. }
  destruct E as [rest E]. rewrite E in H.
  apply Forall_cons_1 in H as [[_ Hd] _]. discriminate Hd.
Qed.

(** C6, amended. For a message whose links all belong in the room it was
    posted in, the handler sends no Summary Record. When such a message
    from a user, in a guild room outside threads, has a link at all, its
    room is a destination room, and the first call of the handler deletes
    the message (the strict mode). *)
Theorem placed_links_not_relocated `{Runtime} (message : Message) (w : World) :
  (forall urls, extractUrls (msg_content message) = Some urls ->
     Forall (fun u => getDestinationId w (categorizeUrl u)
                      = ch_id (msg_channel message)) urls) ->
  Forall (fun a => is_record_send a = false) (acts (messageCreate message w))
  /\ (bot (msg_author message) = false ->
      msg_guild message <> None ->
      isThread (msg_channel message) = false ->
      extractUrls (msg_content message) <> None ->
      isDestinationChannel w (ch_id (msg_channel message)) = true
      /\ exists rest, acts (messageCreate message w) = ADelete message :: rest).
Proof.
  intros Hplaced.
  assert (Hdest : extractUrls (msg_content message) <> None ->
                  isDestinationChannel w (ch_id (msg_channel message)) = true).
  { destruct (extractUrls (msg_content message)) as [urls|] eqn:E; [|congruence].
    intros _. specialize (Hplaced urls eq_refl).
    destruct urls as [|u urls]; [now apply str_match_nonempty in E|].
    apply Forall_cons_1 in Hplaced as [<- _].
    apply getDestinationId_isDestination. }
  rewrite messageCreate_unfold. split.
  - destruct (bot _); [constructor|].
    destruct (msg_guild _); [|constructor].
    destruct (isThread _); [constructor|].
    destruct (isDestinationChannel _ _) eqn:Ed.
    + apply (traceP_tryCatch (fun a => is_record_send a = false));
        [now apply traceP_strictIntercept|apply traceP_ret].
    + destruct (extractUrls (msg_content message)) eqn:E; [|constructor].
      exfalso. enough (false = true) by discriminate.
      apply Hdest. discriminate.
  - intros -> Hg -> Hu. rewrite (Hdest Hu). split; [reflexivity|].
    destruct (msg_guild message); [|congruence].
    apply strict_acts_head.
Qed.

Lemma placed_links_not_relocated_witness :
  Forall (fun a => is_record_send a = false)
    (acts (messageCreate Fixture.placed Fixture.w0))
  /\ isDestinationChannel Fixture.w0 (ch_id Fixture.videos) = true
  /\ exists rest,
       acts (messageCreate Fixture.placed Fixture.w0)
       = ADelete Fixture.placed :: rest.
Proof.
  assert (Hhyp : forall urls,
             extractUrls (msg_content Fixture.placed) = Some urls ->
             Forall (fun u => getDestinationId Fixture.w0 (categorizeUrl u)
                              = ch_id (msg_channel Fixture.placed)) urls).
  { intros urls E. vm_compute in E. injection E as <-.
    constructor; [vm_compute; reflexivity|constructor]. }
  destruct (placed_links_not_relocated Fixture.placed Fixture.w0 Hhyp)
    as [Hno Hdel].
  split; [exact Hno|].
  apply Hdel; (reflexivity || discriminate || (vm_compute; discriminate)).
Defined.

(* ===================================================================== *)
(** ** The embed composer *)
(* ===================================================================== *)

Lemma buildLinkEmbed_carries now category urls user sourceChannel t :
  carries_original_date
    (buildLinkEmbed now category urls user sourceChannel (Some t)).
Proof.
  eexists _, t. unfold buildLinkEmbed. cbn [e_description]. f_equal.
  rewrite !app_assoc. reflexivity.
Qed.

(** C7, as the spec states it, fails in its second half: the live handler
    passes the creation time of the message to the composer, so the
    record of a live message carries the original-date line as well. *)
Lemma live_record_carries_original_date :
  ~ (forall (RT : Runtime) message w ch p e,
       In (ASend ch p) (acts (messageCreate message w)) ->
       In e (p_embeds p) -> ~ carries_original_date e).
Proof.
  intros H.
  apply (H Fixture.runtime Fixture.mixed Fixture.w0 Fixture.videos
           (embed_payload
              (buildLinkEmbed 0 youtube [lit "https://youtu.be/abc123"]
                 Fixture.alice (Some Fixture.general)
                 (Some (msg_createdAt Fixture.mixed))))
           (buildLinkEmbed 0 youtube [lit "https://youtu.be/abc123"]
              Fixture.alice (Some Fixture.general)
              (Some (msg_createdAt Fixture.mixed)))).
  - left. vm_compute. reflexivity.
  - left. reflexivity.
  - apply buildLinkEmbed_carries.
Qed.

(** C7, amended. The display timestamp is the timestamp passed, and the
    current time when none is passed; the description is the one composed
    without a timestamp, followed by the original-date line exactly when a
    timestamp is passed. The live handler passes the creation time of the
    message: every embed it sends is composed from the author, the room
    and the creation time of the message, and carries the line. *)
Theorem buildLinkEmbed_timestamp `{Runtime} (now : Z) (category : Category)
    (urls : list jsstring) (user : User) (sourceChannel : option Channel)
    (timestamp : option Z) :
  let e := buildLinkEmbed now category urls user sourceChannel timestamp in
  let e0 := buildLinkEmbed now category urls user sourceChannel None in
  e_timestamp e = match timestamp with Some t => t | None => now end
  /\ e_description e
     = option_map
         (fun d => d ++ match timestamp with
                        | Some t => original_date_line t
                        | None => []
                        end)
         (e_description e0)
  /\ forall message w ch p e',
       In (ASend ch p) (acts (messageCreate message w)) ->
       In e' (p_embeds p) ->
       record_of message e'
       /\ e_timestamp e' = msg_createdAt message
       /\ carries_original_date e'.
Proof.
  cbv zeta. split; [reflexivity|]. split.
  - unfold buildLinkEmbed. cbn [e_description option_map]. f_equal.
    rewrite app_nil_r, <- !app_assoc. reflexivity.
  - intros message w ch p e' Hin He.
    pose proof (proj1 (List.Forall_forall _ _)
                  (messageCreate_sends_records message w) _ Hin) as Hrec.
    simpl in Hrec.
    pose proof (proj1 (List.Forall_forall _ _) Hrec _ He) as Hall.
    split; [exact Hall|]. destruct Hall as (c & us & n & ->).
    split; [reflexivity|]. apply buildLinkEmbed_carries.
Qed.

Lemma buildLinkEmbed_timestamp_witness :
  let e := buildLinkEmbed 0 youtube [lit "https://youtu.be/abc123"]
             Fixture.alice (Some Fixture.general)
             (Some (msg_createdAt Fixture.mixed)) in
  record_of Fixture.mixed e
  /\ e_timestamp e = msg_createdAt Fixture.mixed
  /\ carries_original_date e.
Proof.
  cbv zeta.
  destruct (buildLinkEmbed_timestamp 0 other [] Fixture.alice None None)
    as (_ & _ & Hlive).
  apply (Hlive Fixture.mixed Fixture.w0 Fixture.videos
           (embed_payload
              (buildLinkEmbed 0 youtube [lit "https://youtu.be/abc123"]
                 Fixture.alice (Some Fixture.general)
                 (Some (msg_createdAt Fixture.mixed))))).
  - left. vm_compute. reflexivity.
  - left. reflexivity.
Defined.

(* ===================================================================== *)
(** ** The backfill scanner *)
(* ===================================================================== *)

Lemma bind_assoc {A B C} (m : M A) (f : A -> M B) (g : B -> M C) w :
  bind (bind m f) g w = bind m (fun x => bind (f x) g) w.
Proof.
  unfold bind. destruct (out (m w)); simpl; auto.
  destruct (out (f a (world (m w)))); simpl; now rewrite ?app_assoc.
Qed.

Lemma bind_ext {A B} (m : M A) (f g : A -> M B) w :
  (forall a w', f a w' = g a w') -> bind m f w = bind m g w.
Proof. intros H. unfold bind. destruct (out (m w)); auto. now rewrite H. Qed.

Lemma traceP_backfillRoute `{Runtime} channel msg entries :
  relocatable msg ->
  forall moved movedThisMsg,
    traceP backfill_call_ok (backfillRoute channel msg entries moved movedThisMsg).
Proof.
  intros Hmsg. induction entries as [|[category urls] rest IH];
    intros moved movedThisMsg; simpl.
  - apply traceP_ret.
  - unfold chSend. trace_auto; auto.
    simpl. constructor; [|constructor].
    exists channel, msg. split; [|exact Hmsg]. now exists category, urls, a.
Qed.

Lemma traceP_scanPage `{Runtime} channel messages :
  forall moved, traceP backfill_call_ok (scanPage channel messages moved).
Proof.
  induction messages as [|msg rest IH]; intros moved; simpl.
  - apply traceP_ret.
  - destruct (Z.ltb_spec (msg_createdAt msg) BACKFILL_AFTER); [apply traceP_ret|].
    destruct (bot (msg_author msg)) eqn:Hbot; [apply IH|].
    destruct (extractUrls _); [|apply IH].
    apply traceP_bind; [now apply traceP_backfillRoute|].
    intros [moved' movedThisMsg]. apply traceP_bind; [|intros _; apply IH].
    destruct movedThisMsg; [|apply traceP_ret].
    apply traceP_tryCatch; [|apply traceP_ret].
    now apply traceP_msgDelete.
Qed.

Lemma traceP_scanLoop `{Runtime} channel fuel :
  forall lastId moved,
    traceP backfill_call_ok (scanLoop fuel channel lastId moved).
Proof.
  induction fuel as [|fuel IH]; intros lastId moved; simpl.
  - intros w. constructor.
  - apply traceP_bind.
    + apply traceP_tryCatch; [|apply traceP_ret].
      apply traceP_bind; [now apply traceP_fetchMessages|intros; apply traceP_ret].
    + intros [[|m page]|]; try apply traceP_ret.
      apply traceP_bind; [apply traceP_scanPage|].
      intros [reachedCutoff moved']. apply traceP_bind; [now apply traceP_emit|].
      intros _. destruct reachedCutoff; [apply traceP_ret|apply IH].
Qed.

Lemma traceP_scanChannels `{Runtime} channels :
  forall total, traceP backfill_call_ok (scanChannels channels total).
Proof.
  induction channels as [|channel rest IH]; intros total; simpl.
  - apply traceP_ret.
  - apply traceP_bind; [|intros; apply IH].
    unfold scanChannel. destruct (includes _ _); [apply traceP_ret|].
    apply traceP_bind; [apply traceP_gets|intros; apply traceP_scanLoop].
Qed.

(** Every record that the scanner sends, and every message it deletes,
    belongs to a message of a user that is not older than the cutoff. *)
Lemma traceP_backfillGuild `{Runtime} guild : traceP backfill_call_ok (backfillGuild guild).
Proof.
  unfold backfillGuild. apply traceP_bind; [apply traceP_gets|].
  intros. apply traceP_scanChannels.
Qed.

Lemma record_from_timestamp channel message e :
  record_from channel message e -> e_timestamp e = msg_createdAt message.
Proof. now intros (c & us & n & ->). Qed.

Lemma backfill_call_ok_cutoff a : backfill_call_ok a -> not_before_cutoff a.
Proof.
  destruct a; cbn [backfill_call_ok not_before_cutoff]; auto.
  - now intros [_ Hc].
  - intros H. eapply Forall_impl; [exact H|].
    intros e (channel & message & Hr & _ & Hc). exists channel, message.
    now rewrite (record_from_timestamp _ _ _ Hr).
Qed.

Lemma backfill_call_ok_author a : backfill_call_ok a -> not_from_bot a.
Proof.
  destruct a; cbn [backfill_call_ok not_from_bot]; auto.
  - now intros [Hb _].
  - intros H. eapply Forall_impl; [exact H|].
    intros e (channel & message & Hr & Hb & _). now exists channel, message.
Qed.

(** A page is scanned up to its first message older than the cutoff:
    that message and the ones after it leave no trace. *)
Lemma scanPage_cutoff `{Runtime} channel pre m post :
  Forall (fun x => (BACKFILL_AFTER <= msg_createdAt x)%Z) pre ->
  (msg_createdAt m < BACKFILL_AFTER)%Z ->
  forall moved w,
    scanPage channel (pre ++ m :: post) moved w
    = bind (scanPage channel pre moved) (fun r => ret (true, snd r)) w.
Proof.
  intros Hpre Hm. induction Hpre as [|x pre Hx Hpre IH]; intros moved w.
  - simpl app. cbn [scanPage].
    destruct (Z.ltb_spec (msg_createdAt m) BACKFILL_AFTER); [|lia].
    now rewrite bind_ret.
  - simpl app. cbn [scanPage].
    destruct (Z.ltb_spec (msg_createdAt x) BACKFILL_AFTER); [lia|].
    destruct (bot (msg_author x)); [apply IH|].
    destruct (extractUrls _); [|apply IH].
    rewrite bind_assoc. apply bind_ext. intros [moved' movedThisMsg] w'.
    rewrite bind_assoc. apply bind_ext. intros _ w''. apply IH.
Qed.

Lemma set_faults_same w : set_faults (faults w) w = w.
Proof. now destruct w. Qed.

(** A platform call that is not made to fail consumes its entry of
    [faults] and does what the platform does. *)
Lemma platform_no_fault {A} a (k : World -> Outcome A * World) w :
  hd false (faults w) = false ->
  platform a k w
  = let w1 := set_faults (tl (faults w)) w in
    mkRes (fst (k w1)) (snd (k w1)) [a].
Proof.
  unfold platform. destruct (faults w) as [|[] fs] eqn:E; simpl;
    try discriminate; intros _.
  - rewrite <- E, set_faults_same. now destruct (k w).
  - now destruct (k _).
Qed.

Lemma fetchMessages_ok channel limit before w :
  hd false (faults w) = false ->
  fetchMessages channel limit before w
  = mkRes (Ok (page_of w channel limit before))
      (set_faults (tl (faults w)) w) [AFetch channel limit before].
Proof. intros Hf. unfold fetchMessages. now rewrite platform_no_fault. Qed.

Lemma bind_cong {A B} (m m' : M A) (f : A -> M B) w :
  m w = m' w -> bind m f w = bind m' f w.
Proof. intros E. unfold bind. now rewrite E. Qed.

Lemma bind_known {A B} (m : M A) (f : A -> M B) w a w1 t :
  m w = mkRes (Ok a) w1 t ->
  bind m f w = mkRes (out (f a w1)) (world (f a w1)) (t ++ acts (f a w1)).
Proof. intros E. unfold bind. now rewrite E. Qed.

Lemma fetch_caught_ok channel limit before w :
  hd false (faults w) = false ->
  tryCatch (let* ms := fetchMessages channel limit before in ret (Some ms))
    (ret None) w
  = mkRes (Ok (Some (page_of w channel limit before)))
      (set_faults (tl (faults w)) w) [AFetch channel limit before].
Proof.
  intros Hf. unfold tryCatch.
  now rewrite (bind_known _ _ _ _ _ _ (fetchMessages_ok _ _ _ _ Hf)).
Qed.

(** One iteration of the loop on a page that is not empty. *)
Lemma scanLoop_step `{Runtime} fuel channel lastId moved w x page :
  hd false (faults w) = false ->
  page_of w channel 100 lastId = x :: page ->
  scanLoop (S fuel) channel lastId moved w
  = bind (fetchMessages channel 100 lastId)
      (fun _ => bind (scanPage channel (x :: page) moved)
         (fun result =>
            bind (emit (ASleep 1000))
              (fun _ => if fst result then ret (snd result)
                        else scanLoop fuel channel (last_id (x :: page))
                               (snd result)))) w.
Proof.
  intros Hf Hpage. cbn [scanLoop].
  rewrite (bind_known _ _ _ _ _ _ (fetch_caught_ok _ _ _ _ Hf)).
  rewrite (bind_known _ _ _ _ _ _ (fetchMessages_ok _ _ _ _ Hf)).
  rewrite Hpage.
  assert (E : forall w',
    bind (scanPage channel (x :: page) moved)
      (fun result => let '(reachedCutoff, moved0) := result in
         bind (emit (ASleep 1000))
           (fun _ => if reachedCutoff then ret moved0
                     else scanLoop fuel channel (last_id (x :: page)) moved0)) w'
    = bind (scanPage channel (x :: page) moved)
        (fun result =>
           bind (emit (ASleep 1000))
             (fun _ => if fst result then ret (snd result)
                       else scanLoop fuel channel (last_id (x :: page))
                              (snd result))) w').
  { intros w'. apply bind_ext. now intros [rc mv] w''. }
  now rewrite E.
Qed.

(** The loop ends with the page that holds a message older than the
    cutoff: the messages before it are scanned, the pause is taken, and
    nothing is fetched any more, whatever budget is left. *)
Lemma scanLoop_cutoff `{Runtime} fuel channel lastId moved w pre m post :
  hd false (faults w) = false ->
  page_of w channel 100 lastId = pre ++ m :: post ->
  Forall (fun x => (BACKFILL_AFTER <= msg_createdAt x)%Z) pre ->
  (msg_createdAt m < BACKFILL_AFTER)%Z ->
  scanLoop (S fuel) channel lastId moved w
  = bind (fetchMessages channel 100 lastId)
      (fun _ => bind (scanPage channel pre moved)
         (fun r => bind (emit (ASleep 1000)) (fun _ => ret (snd r)))) w.
Proof.
  intros Hf Hpage Hpre Hm.
  assert (Hne : exists x page, pre ++ m :: post = x :: page)
    by (destruct pre; simpl; eauto).
  destruct Hne as (x & page & Ex). rewrite Ex in Hpage.
  rewrite (scanLoop_step _ _ _ _ _ _ _ Hf Hpage).
  apply bind_ext. intros _ w'. rewrite <- Ex.
  rewrite (bind_cong _ _ _ _ (scanPage_cutoff _ _ _ post Hpre Hm _ _)).
  rewrite bind_assoc. apply bind_ext. intros [rc moved'] w''.
  now rewrite bind_ret.
Qed.

(* ===================================================================== *)
(** ** The scan of a room terminates *)
(* ===================================================================== *)

Lemma filter_sublist {A} (f : A -> bool) l : sublist (List.filter f l) l.
Proof.
  induction l as [|x l IH]; simpl; [constructor|].
  destruct (f x); now constructor.
Qed.

Lemma sublist_filter_length {A} (f : A -> bool) l1 l2 :
  sublist l1 l2 ->
  (List.length (List.filter f l1) <= List.length (List.filter f l2))%nat.
Proof.
  induction 1 as [|x l1 l2 _ IH|x l1 l2 _ IH]; simpl; auto;
    destruct (f x); simpl; lia.
Qed.

Lemma filter_length_lt {A} (f g : A -> bool) l x :
  (forall y, f y = true -> g y = true) ->
  In x l -> g x = true -> f x = false ->
  (List.length (List.filter f l) < List.length (List.filter g l))%nat.
Proof.
  intros Hfg Hin Hg Hf.
  assert (Hle : forall l', (List.length (List.filter f l')
                            <= List.length (List.filter g l'))%nat).
  { induction l' as [|y l' IH]; simpl; auto.
    destruct (f y) eqn:Ef; [rewrite (Hfg _ Ef); simpl; lia|].
    destruct (g y); simpl; lia. }
  induction l as [|y l IH]; [contradiction|]. simpl.
  destruct Hin as [->|Hin].
  - rewrite Hf, Hg. simpl. specialize (Hle l). lia.
  - specialize (IH Hin). destruct (f y) eqn:Ef; [rewrite (Hfg _ Ef); simpl; lia|].
    destruct (g y); simpl; lia.
Qed.

Lemma tame_ret {A} c (a : A) : tame c (ret a).
Proof. intros w. split; [discriminate|reflexivity]. Qed.

Lemma tame_gets {A} c (f : World -> A) : tame c (gets f).
Proof. intros w. split; [discriminate|reflexivity]. Qed.

Lemma tame_emit c a : tame c (emit a).
Proof. intros w. split; [discriminate|reflexivity]. Qed.

Lemma tame_bind {A B} c (m : M A) (f : A -> M B) :
  tame c m -> (forall a, tame c (f a)) -> tame c (bind m f).
Proof.
  intros Hm Hf w. destruct (Hm w) as [Ho Hs].
  rewrite out_bind, world_bind. destruct (out (m w)) as [a| |];
    [|split; [discriminate|exact Hs]|contradiction].
  destruct (Hf a (world (m w))) as [Ho' Hs']. split; [exact Ho'|].
  now transitivity (messages_of (world (m w)) c).
Qed.

Lemma tame_tryCatch {A} c (m h : M A) :
  tame c m -> tame c h -> tame c (tryCatch m h).
Proof.
  intros Hm Hh w. destruct (Hm w) as [Ho Hs].
  rewrite out_tryCatch, world_tryCatch. destruct (out (m w)) as [a| |];
    [split; [discriminate|exact Hs]| |contradiction].
  destruct (Hh (world (m w))) as [Ho' Hs']. split; [exact Ho'|].
  now transitivity (messages_of (world (m w)) c).
Qed.

(** The state change of a platform call decides what it does to a room. *)
Lemma tame_platform {A} c a (k : World -> Outcome A * World) :
  (forall w, fst (k w) <> OutOfFuel
             /\ sublist (messages_of (snd (k w)) c) (messages_of w c)) ->
  tame c (platform a k).
Proof.
  intros Hk w. unfold platform. destruct (faults w) as [|[] fs] eqn:E.
  - destruct (Hk w) as [Ho Hs]. now destruct (k w).
  - split; [discriminate|reflexivity].
  - destruct (Hk (set_faults fs w)) as [Ho Hs]. now destruct (k _).
Qed.

Lemma tame_fetchMessages c ch limit before :
  tame c (fetchMessages ch limit before).
Proof. apply tame_platform. intros w. split; [discriminate|reflexivity]. Qed.

Lemma tame_msgDelete c m : tame c (msgDelete m).
Proof.
  apply tame_platform. intros w. split; [discriminate|]. simpl.
  unfold messages_of at 1. simpl.
  destruct (decide (ch_id (msg_channel m) = c)) as [->|Hne].
  - rewrite lookup_insert_eq. simpl. apply filter_sublist.
  - rewrite lookup_insert_ne by exact Hne. reflexivity.
Qed.

Lemma tame_chSend c ch p : ch_id ch <> c -> tame c (chSend ch p).
Proof.
  intros Hne. apply tame_platform. intros w. split; [discriminate|]. simpl.
  unfold messages_of at 1. simpl. rewrite lookup_insert_ne by exact Hne.
  reflexivity.
Qed.

Lemma tame_buildLinkEmbed `{Runtime} c now category urls user sourceChannel
    timestamp :
  tame c (buildLinkEmbed_call now category urls user sourceChannel timestamp).
Proof.
  intros w. unfold buildLinkEmbed_call. cbn [out world].
  split; [destruct (embed_accepted _); discriminate|reflexivity].
Qed.

Lemma tame_backfillRoute `{Runtime} channel msg entries :
  forall moved movedThisMsg,
    tame (ch_id channel) (backfillRoute channel msg entries moved movedThisMsg).
Proof.
  induction entries as [|[category urls] rest IH]; intros moved flag;
    cbn [backfillRoute].
  - apply tame_ret.
  - apply tame_bind; [apply tame_gets|]. intros [dest|]; [|apply IH].
    destruct (str_eqb (ch_id dest) (ch_id channel)) eqn:E; [apply IH|].
    apply tame_bind; [apply tame_gets|]. intros now.
    apply tame_bind; [apply tame_buildLinkEmbed|]. intros embed.
    apply tame_bind; [|intros; apply IH].
    apply tame_chSend. intros Heq. apply str_eqb_eq in Heq. congruence.
Qed.

Lemma tame_scanPage `{Runtime} channel messages :
  forall moved, tame (ch_id channel) (scanPage channel messages moved).
Proof.
  induction messages as [|msg rest IH]; intros moved; cbn [scanPage].
  - apply tame_ret.
  - destruct (_ <? _)%Z; [apply tame_ret|].
    destruct (bot _); [apply IH|].
    destruct (extractUrls _); [|apply IH].
    apply tame_bind; [apply tame_backfillRoute|].
    intros [moved' flag]. apply tame_bind; [|intros; apply IH].
    destruct flag; [|apply tame_ret].
    apply tame_tryCatch; [apply tame_msgDelete|apply tame_ret].
Qed.

Lemma last_id_in page x rest :
  page = x :: rest -> exists y, In y page /\ last_id page = Some (msg_id y).
Proof.
  intros ->. unfold last_id. revert x.
  induction rest as [|z rest IH]; intros x.
  - exists x. simpl. auto.
  - destruct (IH z) as (y & Hin & E). exists y. split; [now right|].
    exact E.
Qed.

Lemma in_firstn {A} n (l : list A) x : In x (firstn n l) -> In x l.
Proof.
  revert l. induction n as [|n IH]; intros [|y l]; simpl; try tauto.
  intros [->|H]; auto.
Qed.

Lemma page_of_in w channel limit before y :
  In y (page_of w channel limit before) ->
  In y (messages_of w (ch_id channel)) /\ older_than before y = true.
Proof.
  unfold page_of. intros Hin. apply in_firstn, filter_In in Hin. exact Hin.
Qed.

(** A budget above the number of messages older than the cursor is
    enough: each page moves the cursor past one message at least. *)
Lemma scanLoop_budget `{Runtime} channel fuel : forall lastId moved w,
  (List.length (List.filter (older_than lastId) (messages_of w (ch_id channel)))
   < fuel)%nat ->
  out (scanLoop fuel channel lastId moved w) <> OutOfFuel.
Proof.
  induction fuel as [|fuel IH]; intros lastId moved w Hlt; [lia|].
  cbn [scanLoop]. rewrite out_bind.
  destruct (faults w) as [|[] fs] eqn:Ef.
  2: { unfold tryCatch, bind, fetchMessages, platform. rewrite Ef. simpl.
       discriminate. }
  all: assert (Hf : hd false (faults w) = false) by now rewrite Ef.
  all: rewrite (fetch_caught_ok _ _ _ _ Hf); cbn [out world].
  all: destruct (page_of w channel 100 lastId) as [|x page] eqn:Ep;
         [discriminate|].
  all: set (w1 := set_faults (tl (faults w)) w).
  all: rewrite out_bind.
  all: destruct (tame_scanPage channel (x :: page) moved w1) as [Ho Hs].
  all: destruct (out (scanPage channel (x :: page) moved w1))
         as [[rc mv]| |]; [|discriminate|contradiction].
  all: rewrite bind_ret || rewrite out_bind; cbn [emit out world].
  all: destruct rc; [discriminate|].
  all: apply IH.
  all: destruct (last_id_in (x :: page) x page eq_refl) as (y & Hy & ->).
  all: rewrite <- Ep in Hy; apply page_of_in in Hy as [Hin Hold].
  all: eapply Nat.le_lt_trans;
         [apply sublist_filter_length; exact Hs|].
  all: change (messages_of w1 (ch_id channel))
         with (messages_of w (ch_id channel)).
  all: assert (Hstep :
         (List.length (List.filter (older_than (Some (msg_id y)))
                         (messages_of w (ch_id channel)))
          < List.length (List.filter (older_than lastId)
                           (messages_of w (ch_id channel))))%nat).
  all: try (apply (filter_length_lt _ _ _ y); auto;
            [intros z Hz; simpl in Hz; apply N.ltb_lt in Hz;
             destruct lastId as [b|]; simpl in *; auto;
             apply N.ltb_lt in Hold; apply N.ltb_lt; lia
            |simpl; apply N.ltb_irrefl]).
  all: lia.
Qed.

Lemma scanChannel_terminates `{Runtime} channel w :
  out (scanChannel channel w) <> OutOfFuel.
Proof.
  unfold scanChannel. destruct (includes _ _); [discriminate|].
  rewrite bind_gets. apply scanLoop_budget.
  pose proof (sublist_length _ _
                (filter_sublist (older_than None) (messages_of w (ch_id channel)))).
  lia.
Qed.

Lemma scanChannels_terminates `{Runtime} channels : forall total w,
  out (scanChannels channels total w) <> OutOfFuel.
Proof.
  induction channels as [|channel rest IH]; intros total w; cbn [scanChannels].
  - discriminate.
  - rewrite out_bind. pose proof (scanChannel_terminates channel w) as Hc.
    destruct (out (scanChannel channel w)); [apply IH|discriminate|contradiction].
Qed.

(** The scanner never exhausts the budget of the model: the scan of a
    guild ends, with the count of relocations or with the rejection of a
    send. *)
Lemma backfillGuild_terminates `{Runtime} guild w :
  out (backfillGuild guild w) <> OutOfFuel.
Proof.
  unfold backfillGuild. rewrite bind_gets. apply scanChannels_terminates.
Qed.

(** C5. The scanner sends no Summary Record for a message older than the
    cutoff, and deletes no such message: every record it sends is composed
    for a message that is not older than the cutoff, and shows that time.
    The scan of a guild ends. When a fetched page holds a message older
    than the cutoff, the scan of the room ends with that page: the
    messages before it are scanned, then the pause is taken and nothing is
    fetched any more, whatever the rest of the page and of the room. *)
Theorem backfill_respects_cutoff `{Runtime} (guild : jsstring) (channel : Channel) :
  (forall w,
      Forall not_before_cutoff (acts (backfillGuild guild w))
      /\ out (backfillGuild guild w) <> OutOfFuel)
  /\ (forall fuel lastId moved w pre m post,
        hd false (faults w) = false ->
        page_of w channel 100 lastId = pre ++ m :: post ->
        Forall (fun x => (BACKFILL_AFTER <= msg_createdAt x)%Z) pre ->
        (msg_createdAt m < BACKFILL_AFTER)%Z ->
        scanLoop (S fuel) channel lastId moved w
        = bind (fetchMessages channel 100 lastId)
            (fun _ => bind (scanPage channel pre moved)
               (fun r => bind (emit (ASleep 1000)) (fun _ => ret (snd r)))) w).
Proof.
  split.
  - intros w. split; [|apply backfillGuild_terminates].
    apply (traceP_impl backfill_call_ok); [exact backfill_call_ok_cutoff|].
    apply traceP_backfillGuild.
  - intros fuel lastId moved w pre m post Hf Hp Hpre Hm.
    exact (scanLoop_cutoff fuel channel lastId moved w pre m post Hf Hp Hpre Hm).
Qed.

Lemma backfill_respects_cutoff_witness :
  scanLoop 1 Fixture.general None 0 Fixture.w0
  = bind (fetchMessages Fixture.general 100 None)
      (fun _ => bind (scanPage Fixture.general
                        [Fixture.bot_link; Fixture.mixed] 0)
         (fun r => bind (emit (ASleep 1000)) (fun _ => ret (snd r))))
      Fixture.w0.
Proof.
  apply (proj2 (backfill_respects_cutoff Fixture.home Fixture.general)
           O None O Fixture.w0 [Fixture.bot_link; Fixture.mixed]
           Fixture.old_link []).
  - reflexivity.
  - vm_compute. reflexivity.
  - repeat constructor; vm_compute; discriminate.
  - vm_compute. reflexivity.
Defined.

(** C10. A message of a bot account, the program's own or any other, is
    left alone. The live handler returns at once: no call is made and the
    state is unchanged. The scanner passes over it: scanning a page that
    starts with it is scanning the rest of the page, unless the message is
    older than the cutoff, where the scan stops without a call; and in a
    whole scan every deleted message and every record sent belongs to a
    message whose author is not a bot. *)
Theorem bot_messages_are_ignored `{Runtime} (message : Message) :
  bot (msg_author message) = true ->
  (forall w, messageCreate message w = mkRes (Ok tt) w [])
  /\ (forall channel rest moved w,
        scanPage channel (message :: rest) moved w
        = if (msg_createdAt message <? BACKFILL_AFTER)%Z
          then mkRes (Ok (true, moved)) w []
          else scanPage channel rest moved w)
  /\ (forall guild w, Forall not_from_bot (acts (backfillGuild guild w))).
Proof.
  intros Hbot. repeat split.
  - intros w. unfold messageCreate. rewrite Hbot. reflexivity.
  - intros channel rest moved w. cbn [scanPage]. rewrite Hbot.
    now destruct (_ <? _)%Z.
  - intros guild w.
    apply (traceP_impl backfill_call_ok); [exact backfill_call_ok_author|].
    apply traceP_backfillGuild.
Qed.

Lemma bot_messages_are_ignored_witness :
  messageCreate Fixture.bot_link Fixture.w0 = mkRes (Ok tt) Fixture.w0 []
  /\ scanPage Fixture.general [Fixture.bot_link; Fixture.old_link] 0 Fixture.w0
     = scanPage Fixture.general [Fixture.old_link] 0 Fixture.w0.
Proof.
  destruct (bot_messages_are_ignored Fixture.bot_link eq_refl) as (Hlive & Hscan & _).
  split; [apply Hlive|]. rewrite Hscan. reflexivity.
Defined.

(* ===================================================================== *)
(** ** The thread consolidator *)
(* ===================================================================== *)

Lemma tryCatch_known {A} (m h : M A) w a w1 t :
  m w = mkRes (Ok a) w1 t -> tryCatch m h w = mkRes (Ok a) w1 t.
Proof. intros E. unfold tryCatch. now rewrite E. Qed.

















(* ===================================================================== *)
(** ** The strict mode of the live handler *)
(* ===================================================================== *)

Lemma msgDelete_quiet message w :
  faults w = [] ->
  msgDelete message w = mkRes (Ok tt) (deleted message w) [ADelete message].
Proof. intros Hf. unfold msgDelete. now rewrite platform_ok. Qed.


Lemma chSend_quiet ch p w :
  faults w = [] ->
  exists w', chSend ch p w = mkRes (Ok (sent_message w ch p)) w' [ASend ch p].
Proof. intros Hf. unfold chSend. rewrite platform_ok by exact Hf. simpl. eauto. Qed.




(** The two scenarios of the strict mode, run on the fixture. *)
Example strict_example_with_anchor :
  List.map is_send (acts (messageCreate Fixture.chat Fixture.w0))
  = [false; false; false; true; true; false]
  /\ List.map is_delete (acts (messageCreate Fixture.chat Fixture.w0))
     = [true; false; false; false; false; false].
Proof. split; vm_compute; reflexivity. Qed.

Example strict_example_without_anchor :
  let message := Fixture.post 6004 Fixture.alice "any news?"
                   1770000450000%Z Fixture.games in
  acts (messageCreate message Fixture.w0)
  = [ADelete message; AFetch Fixture.games 50 None;
     ASend Fixture.games (text_payload (noThreadWarning Fixture.alice));
     ADeleteAfter 15000
       (sent_message (deleted message Fixture.w0) Fixture.games
          (text_payload (noThreadWarning Fixture.alice)))].
Proof. vm_compute. reflexivity. Qed.

(* ===================================================================== *)
(** ** The destination registry *)
(* ===================================================================== *)

Lemma bind_throw {A B} (m : M A) (f : A -> M B) w w1 t :
  m w = mkRes Throw w1 t -> bind m f w = mkRes Throw w1 t.
Proof. intros E. unfold bind. now rewrite E. Qed.

Lemma permEdit_result ch who table w :
  exists f,
    permEdit ch who table w = mkRes (Ok tt) (set_faults f w) [APermEdit ch who table]
    \/ permEdit ch who table w = mkRes Throw (set_faults f w) [APermEdit ch who table].
Proof.
  unfold permEdit, platform. destruct (faults w) as [|[] fs] eqn:E.
  - exists (faults w). left. now rewrite set_faults_same.
  - exists fs. now right.
  - exists fs. now left.
Qed.

(** The policy is applied on a best-effort basis: the function never
    rejects, and changes nothing of the state but the faults consumed. *)
Lemma enforce_result ch w :
  exists f t, enforceStrictPermissions ch w = mkRes (Ok tt) (set_faults f w) t.
Proof.
  unfold enforceStrictPermissions, tryCatch.
  destruct (permEdit_result ch EveryoneRole everyone_table w) as (f1 & [E1|E1]).
  - destruct (permEdit_result ch BotMember bot_table (set_faults f1 w))
      as (f2 & [E2|E2]);
      rewrite (bind_known _ _ _ _ _ _ E1), E2; simpl; eauto.
  - unfold bind. rewrite E1. simpl. eauto.
Qed.

Lemma configuredChannel_run guild category w :
  configuredChannel guild category w
  = mkRes (Ok (configured_of w guild category)) w [].
Proof.
  unfold configuredChannel, configured_of. rewrite bind_gets.
  now destruct (_ <? _)%nat.
Qed.

Lemma createChannel_result guild category w :
  let ch := fresh_channel w guild category in
  exists f t,
    createChannel guild (cfg_channelName (CATEGORIES category))
      (cfg_topic (CATEGORIES category)) w
    = mkRes Throw (set_faults f w) t
    \/ createChannel guild (cfg_channelName (CATEGORIES category))
         (cfg_topic (CATEGORIES category)) w
       = mkRes (Ok ch) (set_faults f (with_channel guild ch w)) t.
Proof.
  cbv zeta. unfold createChannel, platform.
  destruct (faults w) as [|[] fs] eqn:E.
  - exists (faults w). eexists. right. reflexivity.
  - exists fs. eexists. now left.
  - exists fs. eexists. now right.
Qed.

(** What a resolution does, by the three ways through the function. *)
Lemma ensureChannel_run guild category w :
  match configured_of w guild category with
  | Some c =>
      exists f t,
        ensureChannel guild category w
        = mkRes (Ok c) (set_faults f (cacheDestination category c w)) t
  | None =>
      match List.find (named_text (cfg_channelName (CATEGORIES category)))
              (channels_of w guild) with
      | Some c =>
          exists f t,
            ensureChannel guild category w
            = mkRes (Ok c)
                (set_faults f
                   (updateEnvId category (ch_id c)
                      (cacheDestination category c w))) t
      | None =>
          let ch := fresh_channel w guild category in
          exists f t,
            ensureChannel guild category w = mkRes Throw (set_faults f w) t
            \/ ensureChannel guild category w
               = mkRes (Ok ch)
                   (set_faults f
                      (updateEnvId category (ch_id ch)
                         (cacheDestination category ch
                            (with_channel guild ch w)))) t
      end
  end.
Proof.
  unfold ensureChannel.
  rewrite (bind_known _ _ _ _ _ _ (configuredChannel_run guild category w)).
  destruct (configured_of w guild category) as [c|].
  - rewrite bind_modify.
    destruct (enforce_result c (cacheDestination category c w)) as (f & t & E).
    rewrite (bind_known _ _ _ _ _ _ E). simpl. eauto.
  - rewrite bind_gets.
    destruct (List.find _ _) as [c|].
    + rewrite bind_modify, bind_modify.
      destruct (enforce_result c
                  (updateEnvId category (ch_id c) (cacheDestination category c w)))
        as (f & t & E).
      rewrite (bind_known _ _ _ _ _ _ E). simpl. eauto.
    + cbv zeta.
      destruct (createChannel_result guild category w) as (f0 & t0 & [E|E]).
      * rewrite (bind_throw _ _ _ _ _ E). simpl. eauto.
      * rewrite (bind_known _ _ _ _ _ _ E), bind_modify, bind_modify.
        destruct (enforce_result (fresh_channel w guild category)
                    (updateEnvId category
                       (ch_id (fresh_channel w guild category))
                       (cacheDestination category
                          (fresh_channel w guild category)
                          (set_faults f0
                             (with_channel guild
                                (fresh_channel w guild category) w)))))
          as (f & t & E').
        rewrite (bind_known _ _ _ _ _ _ E'). simpl.
        exists f. eexists. right. f_equal. now destruct category.
Qed.

Lemma cache_get_unique l c :
  NoDup (List.map ch_id l) -> In c l -> cache_get l (ch_id c) = Some c.
Proof.
  unfold cache_get. induction l as [|x l IH]; simpl; [contradiction|].
  intros Hnd Hin. apply NoDup_cons in Hnd as [Hx Hnd].
  destruct (str_eqb (ch_id x) (ch_id c)) eqn:E.
  - apply str_eqb_eq in E. destruct Hin as [->|Hin]; [reflexivity|].
    exfalso. apply Hx. rewrite E. apply list_elem_of_In. now apply in_map.
  - destruct Hin as [->|Hin]; [now rewrite str_eqb_refl in E|]. now apply IH.
Qed.

Lemma cache_get_set ch l : cache_get (cache_set ch l) (ch_id ch) = Some ch.
Proof.
  unfold cache_get. induction l as [|x l IH]; simpl.
  - now rewrite str_eqb_refl.
  - destruct (str_eqb (ch_id x) (ch_id ch)) eqn:E; simpl.
    + now rewrite str_eqb_refl.
    + now rewrite E.
Qed.

Lemma find_cache_set (P : Channel -> bool) ch l :
  List.find P l = None -> P ch = true ->
  List.find P (cache_set ch l) = Some ch.
Proof.
  intros Hnone Hch. induction l as [|x l IH]; simpl in *.
  - now rewrite Hch.
  - destruct (P x) eqn:Ex; [discriminate|].
    destruct (str_eqb (ch_id x) (ch_id ch)); simpl.
    + now rewrite Hch.
    + rewrite Ex. now apply IH.
Qed.

Lemma ids_cache_set ch l i :
  In i (List.map ch_id (cache_set ch l)) ->
  i = ch_id ch \/ In i (List.map ch_id l).
Proof.
  induction l as [|x l IH]; simpl.
  - intros [<-|[]]. now left.
  - destruct (str_eqb (ch_id x) (ch_id ch)) eqn:E; simpl.
    + intros [<-|H]; auto.
    + intros [<-|H]; auto. destruct (IH H); auto.
Qed.

Lemma NoDup_cache_set ch l :
  NoDup (List.map ch_id l) -> NoDup (List.map ch_id (cache_set ch l)).
Proof.
  induction l as [|x l IH]; simpl; intros Hnd.
  - repeat constructor. intros Hin. now apply elem_of_nil in Hin.
  - apply NoDup_cons in Hnd as [Hx Hnd].
    destruct (str_eqb (ch_id x) (ch_id ch)) eqn:E; simpl.
    + apply str_eqb_eq in E. rewrite <- E. now apply NoDup_cons.
    + apply NoDup_cons. split; [|now apply IH].
      intros Hin. apply list_elem_of_In, ids_cache_set in Hin as [Heq|Hin].
      * rewrite Heq, str_eqb_refl in E. discriminate.
      * apply Hx. now apply list_elem_of_In.
Qed.

Lemma named_text_fresh w guild category :
  named_text (cfg_channelName (CATEGORIES category))
    (fresh_channel w guild category) = true.
Proof. unfold named_text. simpl. now rewrite str_eqb_refl. Qed.

Lemma getDestinationId_update f category id w :
  getDestinationId (set_faults f (updateEnvId category id w)) category = id.
Proof. now destruct category. Qed.

Lemma channels_of_update f category id w guild :
  channels_of (set_faults f (updateEnvId category id w)) guild
  = channels_of w guild.
Proof. now destruct category. Qed.

Lemma dest_update f category id w :
  destinationChannels (set_faults f (updateEnvId category id w))
  = destinationChannels w.
Proof. now destruct category. Qed.

Lemma dc_get_set_eq d category ch : dc_get (dc_set d category ch) category = Some ch.
Proof. now destruct category. Qed.

Lemma dc_get_set_ne d category category' ch :
  category' <> category ->
  dc_get (dc_set d category ch) category' = dc_get d category'.
Proof. destruct category, category'; simpl; congruence. Qed.

(** Once the id of a room of the guild is recorded for a category, the
    resolution finds that room. *)
Lemma resolves_after_update f category c w guild :
  ids_unique w guild ->
  List.find (named_text (cfg_channelName (CATEGORIES category)))
    (channels_of w guild) = Some c ->
  resolves_to (set_faults f (updateEnvId category (ch_id c) w)) guild category c.
Proof.
  intros Hnd Hfind. unfold resolves_to, configured_of.
  rewrite getDestinationId_update, channels_of_update.
  destruct (_ <? _)%nat; [|exact Hfind].
  apply find_some in Hfind as [Hin _].
  now rewrite (cache_get_unique _ _ Hnd Hin).
Qed.

(** A resolution that finds its room finds it again. *)
Lemma ensure_resolved guild category c w :
  ids_unique w guild ->
  resolves_to w guild category c ->
  out (ensureChannel guild category w) = Ok c
  /\ resolves_to (world (ensureChannel guild category w)) guild category c
  /\ ids_unique (world (ensureChannel guild category w)) guild
  /\ dc_get (destinationChannels (world (ensureChannel guild category w)))
       category = Some c.
Proof.
  intros Hnd Hres. pose proof (ensureChannel_run guild category w) as Hrun.
  unfold resolves_to in Hres.
  destruct (configured_of w guild category) as [c0|] eqn:Ec.
  - subst c0. destruct Hrun as (f & t & ->). cbn [out world].
    split; [reflexivity|]. split; [|split].
    + unfold resolves_to.
      change (configured_of (set_faults f (cacheDestination category c w))
                guild category) with (configured_of w guild category).
      now rewrite Ec.
    + exact Hnd.
    + simpl. apply dc_get_set_eq.
  - rewrite Hres in Hrun. destruct Hrun as (f & t & ->). cbn [out world].
    split; [reflexivity|]. split; [|split].
    + now apply resolves_after_update.
    + unfold ids_unique. now rewrite channels_of_update.
    + rewrite dest_update. simpl. apply dc_get_set_eq.
Qed.

(** Whatever way a resolution took, the room it returned is the one that
    the next resolution finds, and it is the binding of the category. *)
Lemma ensure_first guild category c w :
  ids_unique w guild ->
  out (ensureChannel guild category w) = Ok c ->
  resolves_to (world (ensureChannel guild category w)) guild category c
  /\ ids_unique (world (ensureChannel guild category w)) guild
  /\ dc_get (destinationChannels (world (ensureChannel guild category w)))
       category = Some c
  /\ forall category', category' <> category ->
       dc_get (destinationChannels (world (ensureChannel guild category w)))
         category'
       = dc_get (destinationChannels w) category'.
Proof.
  intros Hnd Hout. pose proof (ensureChannel_run guild category w) as Hrun.
  destruct (configured_of w guild category) as [c0|] eqn:Ec.
  - destruct Hrun as (f & t & E). rewrite E in *. cbn [out world] in *.
    injection Hout as ->. split; [|split; [|split]].
    + unfold resolves_to.
      change (configured_of (set_faults f (cacheDestination category c w))
                guild category) with (configured_of w guild category).
      now rewrite Ec.
    + exact Hnd.
    + simpl. apply dc_get_set_eq.
    + intros category' Hne. simpl. now apply dc_get_set_ne.
  - destruct (List.find _ _) as [c0|] eqn:Efind.
    + destruct Hrun as (f & t & E). rewrite E in *. cbn [out world] in *.
      injection Hout as ->. split; [|split; [|split]].
      * now apply resolves_after_update.
      * unfold ids_unique. now rewrite channels_of_update.
      * rewrite dest_update. simpl. apply dc_get_set_eq.
      * intros category' Hne. rewrite dest_update. simpl.
        now apply dc_get_set_ne.
    + cbv zeta in Hrun. destruct Hrun as (f & t & [E|E]); rewrite E in *;
        cbn [out world] in *; [discriminate|].
      injection Hout as <-.
      set (ch := fresh_channel w guild category).
      assert (Hch : channels_of (cacheDestination category ch
                                   (with_channel guild ch w)) guild
                    = cache_set ch (channels_of w guild)).
      { unfold channels_of at 1. simpl. now rewrite lookup_insert_eq. }
      split; [|split; [|split]].
      * unfold resolves_to, configured_of.
        rewrite getDestinationId_update, channels_of_update, Hch.
        destruct (_ <? _)%nat; [now rewrite cache_get_set|].
        apply find_cache_set; [exact Efind|apply named_text_fresh].
      * unfold ids_unique. rewrite channels_of_update, Hch.
        now apply NoDup_cache_set.
      * rewrite dest_update. simpl. apply dc_get_set_eq.
      * intros category' Hne. rewrite dest_update. simpl.
        now apply dc_get_set_ne.
Qed.

Lemma ensure_again_resolved guild category c n : forall w,
  ids_unique w guild ->
  resolves_to w guild category c ->
  out (ensureChannel guild category (ensure_again n guild category w)) = Ok c
  /\ dc_get (destinationChannels
               (world (ensureChannel guild category
                         (ensure_again n guild category w)))) category
     = Some c.
Proof.
  induction n as [|n IH]; intros w Hnd Hres; simpl.
  - destruct (ensure_resolved guild category c w Hnd Hres) as (Ho & _ & _ & Hd).
    auto.
  - destruct (ensure_resolved guild category c w Hnd Hres) as (_ & Hr & Hn & _).
    now apply IH.
Qed.

Lemma createChannel_quiet guild category w :
  faults w = [] ->
  createChannel guild (cfg_channelName (CATEGORIES category))
    (cfg_topic (CATEGORIES category)) w
  = mkRes (Ok (fresh_channel w guild category))
      (with_channel guild (fresh_channel w guild category) w)
      [ACreateChannel guild (cfg_channelName (CATEGORIES category))
         (cfg_topic (CATEGORIES category))].
Proof. intros Hf. unfold createChannel. now rewrite platform_ok. Qed.

(** With no platform call made to fail, a resolution returns a room. *)
Lemma ensureChannel_succeeds guild category w :
  faults w = [] -> exists c, out (ensureChannel guild category w) = Ok c.
Proof.
  intros Hf. unfold ensureChannel.
  rewrite (bind_known _ _ _ _ _ _ (configuredChannel_run guild category w)).
  cbn [out]. destruct (configured_of w guild category) as [c|].
  - rewrite bind_modify.
    destruct (enforce_result c (cacheDestination category c w)) as (f & t & E).
    rewrite (bind_known _ _ _ _ _ _ E). simpl. eauto.
  - rewrite bind_gets. destruct (List.find _ _) as [c|].
    + rewrite !bind_modify.
      destruct (enforce_result c
                  (updateEnvId category (ch_id c) (cacheDestination category c w)))
        as (f & t & E).
      rewrite (bind_known _ _ _ _ _ _ E). simpl. eauto.
    + rewrite (bind_known _ _ _ _ _ _ (createChannel_quiet guild category w Hf)).
      rewrite !bind_modify.
      destruct (enforce_result (fresh_channel w guild category)
                  (updateEnvId category
                     (ch_id (fresh_channel w guild category))
                     (cacheDestination category
                        (fresh_channel w guild category)
                        (with_channel guild
                           (fresh_channel w guild category) w))))
        as (f & t & E).
      rewrite (bind_known _ _ _ _ _ _ E). simpl. eauto.
Qed.

(** C1, as the spec states it, fails: the ids and the cache are
    module-level variables with one entry per category, shared by all
    guilds. A resolution for a second guild replaces what the first one
    recorded, and the first guild then resolves to another room. *)
Lemma second_guild_replaces_binding :
  ~ (forall w guild1 guild2 category c1 c2,
       guild1 <> guild2 ->
       out (ensureChannel guild1 category w) = Ok c1 ->
       let w1 := world (ensureChannel guild1 category w) in
       out (ensureChannel guild2 category w1) = Ok c2 ->
       let w2 := world (ensureChannel guild2 category w1) in
       out (ensureChannel guild1 category w2) = Ok c1).
Proof.
  intros H.
  specialize (H Fixture.w_pinned Fixture.home Fixture.away youtube
                Fixture.clips Fixture.away_videos).
  cbv zeta in H.
  assert (Hne : Fixture.home <> Fixture.away) by discriminate.
  assert (E1 : out (ensureChannel Fixture.home youtube Fixture.w_pinned)
               = Ok Fixture.clips) by (vm_compute; reflexivity).
  assert (E2 : out (ensureChannel Fixture.away youtube
                      (world (ensureChannel Fixture.home youtube Fixture.w_pinned)))
               = Ok Fixture.away_videos) by (vm_compute; reflexivity).
  specialize (H Hne E1 E2). vm_compute in H. discriminate H.
Qed.

(** C1, amended. Within one guild, a resolution is idempotent: the room
    that a call returns is returned by every further call for the same
    guild and category, as long as no other guild is resolved in between.
    The binding is kept per category, not per guild and category: after
    any resolution the binding of the category is the room just returned,
    whichever guild it was resolved for, and the bindings of the other
    categories are untouched. *)
Theorem ensureChannel_idempotent (guild : jsstring) (category : Category)
    (w : World) (c : Channel) :
  ids_unique w guild ->
  out (ensureChannel guild category w) = Ok c ->
  let w1 := world (ensureChannel guild category w) in
  (forall n,
      out (ensureChannel guild category (ensure_again n guild category w1)) = Ok c
      /\ dc_get (destinationChannels
                   (world (ensureChannel guild category
                             (ensure_again n guild category w1)))) category
         = Some c)
  /\ dc_get (destinationChannels w1) category = Some c
  /\ (forall category', category' <> category ->
        dc_get (destinationChannels w1) category'
        = dc_get (destinationChannels w) category')
  /\ (forall guild' c',
        ids_unique w1 guild' ->
        out (ensureChannel guild' category w1) = Ok c' ->
        dc_get (destinationChannels (world (ensureChannel guild' category w1)))
          category = Some c').
Proof.
  intros Hnd Hout. cbv zeta.
  destruct (ensure_first guild category c w Hnd Hout) as (Hres & Hnd1 & Hd & Hothers).
  split; [|split; [exact Hd|split; [exact Hothers|]]].
  - intros n. now apply ensure_again_resolved.
  - intros guild' c' Hnd' Hout'.
    now destruct (ensure_first guild' category c' _ Hnd' Hout') as (_ & _ & Hd' & _).
Qed.

Lemma ensureChannel_idempotent_witness :
  let w1 := world (ensureChannel Fixture.home steam Fixture.w_pinned) in
  out (ensureChannel Fixture.home steam w1)
  = out (ensureChannel Fixture.home steam Fixture.w_pinned)
  /\ dc_get (destinationChannels w1) steam
     = Some (fresh_channel Fixture.w_pinned Fixture.home steam).
Proof.
  assert (Hnd : ids_unique Fixture.w_pinned Fixture.home).
  { unfold ids_unique. apply (bool_decide_unpack _). vm_compute. exact I. }
  assert (Hout : out (ensureChannel Fixture.home steam Fixture.w_pinned)
                 = Ok (fresh_channel Fixture.w_pinned Fixture.home steam))
    by (vm_compute; reflexivity).
  destruct (ensureChannel_idempotent Fixture.home steam Fixture.w_pinned _ Hnd Hout)
    as (Hagain & Hd & _).
  split; [|exact Hd].
  rewrite Hout. exact (proj1 (Hagain O)).
Defined.

(** The binding that the live handler reads for the home guild after both
    guilds were resolved is a room of the other guild. *)
Example binding_shared_across_guilds :
  let w1 := world (ensureChannel Fixture.home youtube Fixture.w_pinned) in
  let w2 := world (ensureChannel Fixture.away youtube w1) in
  dc_get (destinationChannels w1) youtube = Some Fixture.clips
  /\ dc_get (destinationChannels w2) youtube = Some Fixture.away_videos
  /\ ch_guild Fixture.away_videos = Some Fixture.away.
Proof. repeat split; vm_compute; reflexivity. Qed.

(* ===================================================================== *)
(** ** Grouping by category *)
(* ===================================================================== *)

Lemma Category_eqb_eq a b : Category_eqb a b = true <-> a = b.
Proof. destruct a, b; simpl; split; congruence. Qed.

Lemma Category_eqb_refl a : Category_eqb a a = true.
Proof. now destruct a. Qed.

Lemma group_push_lookup g c' u c :
  group_lookup (group_push g c' u) c
  = if Category_eqb c' c then Some (default [] (group_lookup g c) ++ [u])
    else group_lookup g c.
Proof.
  induction g as [|[k us] g IH]; simpl.
  - now destruct (Category_eqb c' c).
  - destruct (Category_eqb k c') eqn:Ekc'; simpl.
    + apply Category_eqb_eq in Ekc'. subst k.
      now destruct (Category_eqb c' c).
    + destruct (Category_eqb k c) eqn:Ekc; [|exact IH].
      destruct (Category_eqb c' c) eqn:Ec'c; [|reflexivity].
      apply Category_eqb_eq in Ekc, Ec'c. subst.
      now rewrite Category_eqb_refl in Ekc'.
Qed.

Lemma group_push_keys g c u :
  List.map fst (group_push g c u)
  = if existsb (Category_eqb c) (List.map fst g) then List.map fst g
    else List.map fst g ++ [c].
Proof.
  induction g as [|[k us] g IH]; simpl; [reflexivity|].
  destruct (Category_eqb k c) eqn:E; simpl.
  - apply Category_eqb_eq in E. subst. now rewrite Category_eqb_refl.
  - rewrite IH. destruct (Category_eqb c k) eqn:E'.
    + apply Category_eqb_eq in E'. subst. now rewrite Category_eqb_refl in E.
    + simpl. now destruct (existsb _ _).
Qed.

Lemma fold_group_lookup urls c : forall g,
  group_lookup
    (fold_left (fun g url => group_push g (categorizeUrl url) url) urls g) c
  = match group_lookup g c,
          List.filter (fun u => Category_eqb (categorizeUrl u) c) urls with
    | None, [] => None
    | o, l => Some (default [] o ++ l)
    end.
Proof.
  induction urls as [|u urls IH]; intros g; simpl.
  - destruct (group_lookup g c); simpl; now rewrite ?app_nil_r.
  - rewrite IH, group_push_lookup.
    destruct (Category_eqb (categorizeUrl u) c); simpl.
    + rewrite <- app_assoc. simpl.
      now destruct (default [] (group_lookup g c) ++ [u]) eqn:E;
        [apply app_eq_nil in E as [_ E]; discriminate|
         destruct (group_lookup g c)].
    + reflexivity.
Qed.

Lemma fold_group_keys urls : forall g,
  NoDup (List.map fst g) ->
  NoDup (List.map fst
           (fold_left (fun g url => group_push g (categorizeUrl url) url) urls g)).
Proof.
  induction urls as [|u urls IH]; intros g Hnd; simpl; [exact Hnd|].
  apply IH. rewrite group_push_keys.
  destruct (existsb _ _) eqn:E; [exact Hnd|].
  apply NoDup_app. split; [exact Hnd|]. split; [|repeat constructor; set_solver].
  intros k Hk Hk'. apply list_elem_of_singleton in Hk'. subst k.
  assert (existsb (Category_eqb (categorizeUrl u)) (List.map fst g) = true).
  { apply existsb_exists. exists (categorizeUrl u).
    split; [now apply list_elem_of_In|apply Category_eqb_refl]. }
  congruence.
Qed.

(** X1. The groups of a message partition its links: the group of a category
    holds exactly the links of that category, in the order of the message;
    a category without a link has no group, and no category has two. *)
Theorem groupUrls_partition (urls : list jsstring) (c : Category) :
  group_lookup (groupUrls urls) c
  = match List.filter (fun u => Category_eqb (categorizeUrl u) c) urls with
    | [] => None
    | l => Some l
    end
  /\ NoDup (List.map fst (groupUrls urls)).
Proof.
  unfold groupUrls. split.
  - rewrite fold_group_lookup. simpl. now destruct (List.filter _ _).
  - apply fold_group_keys. constructor.
Qed.

(* ===================================================================== *)
(** ** More on URL extraction *)
(* ===================================================================== *)

(** [s.match(r)] reports nothing exactly when [r.test(s)] fails. *)
Lemma match_from_nil r s : match_from r 0 s = [] <-> test r s = false.
Proof.
  induction s as [|c s IH]; simpl.
  - destruct (exec_at r []); split; congruence.
  - destruct (exec_at r (c :: s)); [split; discriminate|exact IH].
Qed.

Lemma match_from_skip r : forall s n,
  (n <= List.length s)%nat ->
  match_from r n s = match_from r 0 (skipn n s).
Proof.
  induction s as [|c s IH]; intros [|n] Hn; simpl in *; try reflexivity; try lia.
  apply IH. lia.
Qed.

Lemma splits_into_cons c s us : splits_into s us -> splits_into (c :: s) us.
Proof.
  intros H. destruct H as [s|pre u rest us H]; [constructor|].
  change (c :: pre ++ u ++ rest) with ((c :: pre) ++ u ++ rest).
  now constructor.
Qed.

(** The matches come in the order of the text and do not overlap. *)
Lemma match_from_splits r : forall s n,
  (n <= List.length s)%nat ->
  splits_into (skipn n s) (match_from r n s).
Proof.
  induction s as [|c s IH]; intros n Hn.
  - destruct n; [|simpl in Hn; lia]. simpl.
    destruct (exec_at r []); [|constructor].
    apply (SI_cons [] [] [] []). constructor.
  - destruct n as [|n]; [|simpl in *; apply IH; lia].
    cbn [match_from skipn].
    destruct (exec_at r (c :: s)) as [rest|] eqn:E.
    + destruct (exec_at_sound _ _ _ E) as (m & Hm & _).
      assert (Hfirst : firstn (List.length (c :: s) - List.length rest) (c :: s) = m)
        by (rewrite Hm; apply matched_prefix).
      cbv zeta. rewrite Hfirst. clear Hfirst.
      destruct m as [|x m].
      * simpl in Hm. subst rest. simpl.
        apply (SI_cons [c] [] s). apply (IH O). lia.
      * simpl in Hm. injection Hm as <- ->. simpl. rewrite Nat.sub_0_r.
        apply (SI_cons [] (c :: m) rest).
        replace rest with (skipn (List.length m) (m ++ rest)) at 1.
        -- apply IH. rewrite List.length_app. lia.
        -- rewrite skipn_app, Nat.sub_diag, skipn_all. reflexivity.
    + apply splits_into_cons. apply (IH O). lia.
Qed.

Lemma match_from_at r : forall s n m,
  In m (match_from r n s) ->
  exists pre rest, s = pre ++ m ++ rest /\ exec_at r (m ++ rest) = Some rest.
Proof.
  induction s as [|c s IH]; intros n m Hin.
  - simpl in Hin. destruct n; [|contradiction].
    destruct (exec_at r []) as [rest|] eqn:E; [|contradiction].
    destruct Hin as [<-|[]]. exists [], []. split; [reflexivity|].
    destruct (exec_at_sound _ _ _ E) as (m & Hm & _).
    symmetry in Hm. apply app_eq_nil in Hm as [_ ->]. exact E.
  - cbn [match_from] in Hin. destruct n as [|n].
    + destruct (exec_at r (c :: s)) as [rest|] eqn:E.
      * destruct Hin as [<-|Hin].
        -- destruct (exec_at_sound _ _ _ E) as (m & Hm & _).
           assert (Hfirst : firstn (List.length (c :: s) - List.length rest)
                              (c :: s) = m)
             by (rewrite Hm; apply matched_prefix).
           rewrite Hfirst. exists [], rest.
           split; [exact Hm|]. now rewrite <- Hm.
        -- destruct (IH _ _ Hin) as (pre & rest' & -> & E').
           now exists (c :: pre), rest'.
      * destruct (IH _ _ Hin) as (pre & rest' & -> & E').
        now exists (c :: pre), rest'.
    + destruct (IH _ _ Hin) as (pre & rest' & -> & E').
      now exists (c :: pre), rest'.
Qed.

Lemma star_m_total p s : star_m p Some s <> None.
Proof.
  induction s as [|c s IH]; simpl; [discriminate|].
  destruct (p c); [|discriminate]. now destruct (star_m p Some s).
Qed.

(** The greedy iteration stops at the end of the input or at a character
    outside the class. *)
Lemma star_m_greedy p s rest :
  star_m p Some s = Some rest ->
  match rest with [] => True | c :: _ => p c = false end.
Proof.
  revert rest. induction s as [|c s IH]; simpl; intros rest H.
  - now injection H as <-.
  - destruct (p c) eqn:Hp.
    + destruct (star_m p Some s) as [r|] eqn:E.
      * injection H as <-. now apply IH.
      * now apply star_m_total in E.
    + injection H as <-. exact Hp.
Qed.

Lemma exec_URL_greedy s rest :
  exec_at URL_REGEX s = Some rest ->
  match rest with [] => True | c :: _ => url_char c = false end.
Proof.
  unfold exec_at, URL_REGEX. cbn [rmatch]. intros H.
  destruct (rmatch_sound _ _ _ _ H) as (m & s' & _ & _ & Hplus).
  cbn [rmatch] in Hplus. destruct s' as [|x s']; [discriminate|].
  destruct (url_char x); [|discriminate]. now apply star_m_greedy in Hplus.
Qed.

Lemma extractUrls_none text :
  extractUrls text = None <-> test URL_REGEX text = false.
Proof.
  unfold extractUrls, str_match. rewrite <- match_from_nil.
  destruct (match_from URL_REGEX 0 text); split; congruence.
Qed.

(** X2. The links of a message are pieces of its text, reported from left to
    right without overlap, and each one runs up to the end of the text or
    up to the first character that a URL cannot hold. Nothing is reported
    exactly when the pattern matches nowhere in the text. *)
Theorem extractUrls_pieces (text : jsstring) :
  (extractUrls text = None <-> test URL_REGEX text = false)
  /\ forall urls, extractUrls text = Some urls ->
       splits_into text urls
       /\ forall u, In u urls -> maximal_in text u.
Proof.
  split; [apply extractUrls_none|].
  unfold extractUrls, str_match. intros urls H.
  assert (E : match_from URL_REGEX 0 text = urls)
    by (destruct (match_from URL_REGEX 0 text); congruence).
  split.
  - rewrite <- E. apply (match_from_splits URL_REGEX text O). lia.
  - intros u Hu. rewrite <- E in Hu.
    destruct (match_from_at _ _ _ _ Hu) as (pre & rest & -> & Ex).
    exists pre, rest. split; [reflexivity|]. now apply exec_URL_greedy in Ex.
Qed.

Lemma extractUrls_pieces_witness :
  splits_into (lit "a http://x.y b https://youtu.be/z")
    [lit "http://x.y"; lit "https://youtu.be/z"]
  /\ maximal_in (lit "a http://x.y b https://youtu.be/z") (lit "http://x.y").
Proof.
  destruct (proj2 (extractUrls_pieces (lit "a http://x.y b https://youtu.be/z"))
              [lit "http://x.y"; lit "https://youtu.be/z"] eq_refl)
    as [Hs Hm].
  split; [exact Hs|]. apply Hm. left. reflexivity.
Defined.

(* ===================================================================== *)
(** ** What a run keeps: stable relations, calm and finite computations *)
(* ===================================================================== *)

Lemma stable_same_frame : stable same_frame.
Proof.
  split; unfold same_frame; try reflexivity.
  - intros w1 w2 w3 H12 H23. congruence.
Qed.

Lemma stable_still_quiet : stable still_quiet.
Proof.
  split; unfold still_quiet; auto.
  - intros w x fs E Hf. congruence.
Qed.

Section Stable.
Context (I : World -> World -> Prop) (HI : stable I).
Local Set Default Proof Using "All".

Lemma preserves_ret {A} (a : A) : preserves I (ret a).
Proof. intros w. apply (st_refl I HI). Qed.

Lemma preserves_gets {A} (f : World -> A) : preserves I (gets f).
Proof. intros w. apply (st_refl I HI). Qed.

Lemma preserves_emit a : preserves I (emit a).
Proof. intros w. apply (st_refl I HI). Qed.

Lemma preserves_bind {A B} (m : M A) (f : A -> M B) :
  preserves I m -> (forall a, preserves I (f a)) -> preserves I (bind m f).
Proof.
  intros Hm Hf w. rewrite world_bind. destruct (out (m w)); try apply Hm.
  eapply (st_trans I HI); [apply Hm|apply Hf].
Qed.

Lemma preserves_tryCatch {A} (m h : M A) :
  preserves I m -> preserves I h -> preserves I (tryCatch m h).
Proof.
  intros Hm Hh w. rewrite world_tryCatch. destruct (out (m w)); try apply Hm.
  eapply (st_trans I HI); [apply Hm|apply Hh].
Qed.

Lemma preserves_platform {A} a (k : World -> Outcome A * World) :
  (forall w, I w (snd (k w))) -> preserves I (platform a k).
Proof.
  intros Hk w. unfold platform. destruct (faults w) as [|[] fs] eqn:E.
  - specialize (Hk w). now destruct (k w).
  - apply (st_fault I HI _ _ _ E).
  - specialize (Hk (set_faults fs w)).
    destruct (k (set_faults fs w)). simpl in *.
    eapply (st_trans I HI); [apply (st_fault I HI _ _ _ E)|exact Hk].
Qed.

Lemma preserves_fetchMessages ch limit before :
  preserves I (fetchMessages ch limit before).
Proof. apply preserves_platform. intros w. apply (st_refl I HI). Qed.

Lemma preserves_msgDelete m : preserves I (msgDelete m).
Proof. apply preserves_platform. intros w. apply (st_history I HI). Qed.

Lemma preserves_chSend ch p : preserves I (chSend ch p).
Proof.
  apply preserves_platform. intros w. simpl.
  eapply (st_trans I HI); [apply (st_history I HI)|apply (st_next_id I HI)].
Qed.

Lemma preserves_threadSend t p : preserves I (threadSend t p).
Proof. apply preserves_platform. intros w. apply (st_refl I HI). Qed.

Lemma preserves_threadFetch t : preserves I (threadFetch t).
Proof.
  apply preserves_platform. intros w.
  destruct (threads w !! th_id t); apply (st_refl I HI).
Qed.

Lemma preserves_setArchived t b : preserves I (setArchived t b).
Proof. apply preserves_platform. intros w. apply (st_threads I HI). Qed.

Lemma preserves_startThread m name dur : preserves I (startThread m name dur).
Proof.
  apply preserves_platform. intros w. simpl.
  eapply (st_trans I HI); [apply (st_history I HI)|apply (st_threads I HI)].
Qed.

Lemma preserves_permEdit ch who table : preserves I (permEdit ch who table).
Proof. apply preserves_platform. intros w. apply (st_refl I HI). Qed.

Lemma preserves_buildLinkEmbed `{Runtime} now category urls user sourceChannel
    timestamp :
  preserves I
    (buildLinkEmbed_call now category urls user sourceChannel timestamp).
Proof. intros w. apply (st_refl I HI). Qed.

Ltac keep_step :=
  match goal with
  | |- preserves _ (buildLinkEmbed_call _ _ _ _ _ _) =>
      apply preserves_buildLinkEmbed
  | |- preserves _ (ret _) => apply preserves_ret
  | |- preserves _ (gets _) => apply preserves_gets
  | |- preserves _ (emit _) => apply preserves_emit
  | |- preserves _ (fetchMessages _ _ _) => apply preserves_fetchMessages
  | |- preserves _ (msgDelete _) => apply preserves_msgDelete
  | |- preserves _ (chSend _ _) => apply preserves_chSend
  | |- preserves _ (threadSend _ _) => apply preserves_threadSend
  | |- preserves _ (threadFetch _) => apply preserves_threadFetch
  | |- preserves _ (setArchived _ _) => apply preserves_setArchived
  | |- preserves _ (startThread _ _ _) => apply preserves_startThread
  | |- preserves _ (permEdit _ _ _) => apply preserves_permEdit
  | |- preserves _ (bind _ _) => apply preserves_bind; [|intros ?]
  | |- preserves _ (tryCatch _ _) => apply preserves_tryCatch
  | |- preserves _ (if ?b then _ else _) => destruct b
  | |- preserves _ (match ?x with _ => _ end) => destruct x
  end.

Lemma preserves_getOrCreateLatestThread `{Runtime} ch :
  preserves I (getOrCreateLatestThread ch).
Proof.
  unfold getOrCreateLatestThread, existingThreadOf. repeat keep_step.
Qed.

Lemma preserves_enforceStrictPermissions ch :
  preserves I (enforceStrictPermissions ch).
Proof. unfold enforceStrictPermissions. repeat keep_step. Qed.

Lemma preserves_strictIntercept `{Runtime} message :
  preserves I (strictIntercept message).
Proof.
  unfold strictIntercept. repeat keep_step;
    apply preserves_getOrCreateLatestThread.
Qed.

Lemma preserves_privateBlock message : preserves I (privateBlock message).
Proof. unfold privateBlock. repeat keep_step. Qed.

Lemma preserves_deleteAndNotify message routed :
  preserves I (deleteAndNotify message routed).
Proof. unfold deleteAndNotify. repeat keep_step. Qed.

Lemma preserves_routeLinks `{Runtime} message toRoute :
  forall routed, preserves I (routeLinks message toRoute routed).
Proof.
  induction toRoute as [|[category urls] rest IH]; intros routed;
    cbn [routeLinks]; repeat keep_step; apply IH.
Qed.

Lemma preserves_messageCreate `{Runtime} message :
  preserves I (messageCreate message).
Proof.
  intros w. rewrite messageCreate_unfold.
  destruct (bot _); [apply (st_refl I HI)|].
  destruct (msg_guild _); [|apply (st_refl I HI)].
  destruct (isThread _); [apply (st_refl I HI)|].
  destruct (isDestinationChannel _ _).
  { apply preserves_tryCatch;
      [apply preserves_strictIntercept|apply preserves_ret]. }
  destruct (extractUrls _); [|apply (st_refl I HI)].
  destruct (includes _ _).
  { apply preserves_tryCatch;
      [apply preserves_privateBlock|apply preserves_ret]. }
  destruct (toRouteOf _ _ _) as [|e toRoute]; [apply (st_refl I HI)|].
  unfold routeAndNotify. apply preserves_bind; [apply preserves_routeLinks|].
  intros [|r routed]; [apply preserves_ret|].
  apply preserves_tryCatch; [apply preserves_deleteAndNotify|apply preserves_ret].
Qed.

Lemma preserves_backfillRoute `{Runtime} channel msg entries :
  forall moved flag, preserves I (backfillRoute channel msg entries moved flag).
Proof.
  induction entries as [|[category urls] rest IH]; intros moved flag;
    cbn [backfillRoute]; repeat keep_step; apply IH.
Qed.

Lemma preserves_scanPage `{Runtime} channel messages :
  forall moved, preserves I (scanPage channel messages moved).
Proof.
  induction messages as [|msg rest IH]; intros moved; cbn [scanPage].
  - apply preserves_ret.
  - destruct (_ <? _)%Z; [apply preserves_ret|].
    destruct (bot _); [apply IH|].
    destruct (extractUrls _); [|apply IH].
    apply preserves_bind; [apply preserves_backfillRoute|].
    intros [moved' flag]. apply preserves_bind; [|intros; apply IH].
    destruct flag; repeat keep_step.
Qed.

Lemma preserves_scanLoop `{Runtime} channel fuel :
  forall lastId moved, preserves I (scanLoop fuel channel lastId moved).
Proof.
  induction fuel as [|fuel IH]; intros lastId moved; cbn [scanLoop].
  - intros w. apply (st_refl I HI).
  - apply preserves_bind; [repeat keep_step|].
    intros [[|m page]|]; try apply preserves_ret.
    apply preserves_bind; [apply preserves_scanPage|].
    intros [rc moved']. apply preserves_bind; [apply preserves_emit|].
    intros _. destruct rc; [apply preserves_ret|apply IH].
Qed.

Lemma preserves_scanChannels `{Runtime} channels :
  forall total, preserves I (scanChannels channels total).
Proof.
  induction channels as [|channel rest IH]; intros total; cbn [scanChannels].
  - apply preserves_ret.
  - apply preserves_bind; [|intros; apply IH].
    unfold scanChannel. destruct (includes _ _); [apply preserves_ret|].
    apply preserves_bind; [apply preserves_gets|intros; apply preserves_scanLoop].
Qed.

Lemma preserves_backfillGuild `{Runtime} guild : preserves I (backfillGuild guild).
Proof.
  unfold backfillGuild. apply preserves_bind; [apply preserves_gets|].
  intros. apply preserves_scanChannels.
Qed.
End Stable.

(** X3. The live handler and the scanner read the destination registry and
    never write it: the three recorded ids, the cache of destination
    rooms and the channel list of every guild are the same after a run,
    whatever the platform does. *)
Theorem registry_is_read_only `{Runtime} (w : World) :
  (forall message, frame (world (messageCreate message w)) = frame w)
  /\ (forall guild, frame (world (backfillGuild guild w)) = frame w).
Proof.
  split.
  - intros message.
    apply (preserves_messageCreate same_frame stable_same_frame message w).
  - intros guild.
    apply (preserves_backfillGuild same_frame stable_same_frame guild w).
Qed.

(** *** Finite computations *)

Lemma finite_ret {A} (a : A) : finite (ret a).
Proof. intros w. discriminate. Qed.

Lemma finite_gets {A} (f : World -> A) : finite (gets f).
Proof. intros w. discriminate. Qed.

Lemma finite_emit a : finite (emit a).
Proof. intros w. discriminate. Qed.

Lemma finite_modify f : finite (modify f).
Proof. intros w. discriminate. Qed.

Lemma finite_bind {A B} (m : M A) (f : A -> M B) :
  finite m -> (forall a, finite (f a)) -> finite (bind m f).
Proof.
  intros Hm Hf w. rewrite out_bind. specialize (Hm w).
  destruct (out (m w)); [apply Hf|discriminate|contradiction].
Qed.

Lemma finite_tryCatch {A} (m h : M A) :
  finite m -> finite h -> finite (tryCatch m h).
Proof.
  intros Hm Hh w. rewrite out_tryCatch. specialize (Hm w).
  destruct (out (m w)); [discriminate|apply Hh|contradiction].
Qed.

Lemma finite_platform {A} a (k : World -> Outcome A * World) :
  (forall w, fst (k w) <> OutOfFuel) -> finite (platform a k).
Proof.
  intros Hk w. unfold platform. destruct (faults w) as [|[] fs].
  - specialize (Hk w). now destruct (k w).
  - discriminate.
  - specialize (Hk (set_faults fs w)). now destruct (k _).
Qed.

Ltac finite_step :=
  match goal with
  | |- finite (ret _) => apply finite_ret
  | |- finite (gets _) => apply finite_gets
  | |- finite (emit _) => apply finite_emit
  | |- finite (modify _) => apply finite_modify
  | |- finite (platform _ _) =>
      apply finite_platform; intros ?; simpl;
      try match goal with |- context [match ?x with _ => _ end] => destruct x end;
      discriminate
  | |- finite (bind _ _) => apply finite_bind; [|intros ?]
  | |- finite (tryCatch _ _) => apply finite_tryCatch
  | |- finite (if ?b then _ else _) => destruct b
  | |- finite (match ?x with _ => _ end) => destruct x
  end.

Lemma finite_getOrCreateLatestThread `{Runtime} ch :
  finite (getOrCreateLatestThread ch).
Proof.
  unfold getOrCreateLatestThread, existingThreadOf, fetchMessages, threadFetch,
    setArchived, startThread.
  repeat finite_step.
Qed.

Lemma finite_strictIntercept `{Runtime} message : finite (strictIntercept message).
Proof.
  unfold strictIntercept, msgDelete, threadSend, chSend.
  repeat finite_step; apply finite_getOrCreateLatestThread.
Qed.

Lemma finite_privateBlock message : finite (privateBlock message).
Proof. unfold privateBlock, msgDelete, chSend. repeat finite_step. Qed.

Lemma finite_deleteAndNotify message routed :
  finite (deleteAndNotify message routed).
Proof. unfold deleteAndNotify, msgDelete, chSend. repeat finite_step. Qed.

Lemma finite_enforceStrictPermissions ch : finite (enforceStrictPermissions ch).
Proof. unfold enforceStrictPermissions, permEdit. repeat finite_step. Qed.

Lemma finite_ensureChannel guild category : finite (ensureChannel guild category).
Proof.
  unfold ensureChannel, configuredChannel, createChannel.
  repeat finite_step; apply finite_enforceStrictPermissions.
Qed.

Lemma finite_messageCreate `{Runtime} message : finite (messageCreate message).
Proof.
  intros w. rewrite messageCreate_unfold.
  destruct (bot _); [discriminate|].
  destruct (msg_guild _); [|discriminate].
  destruct (isThread _); [discriminate|].
  destruct (isDestinationChannel _ _).
  { apply finite_tryCatch; [apply finite_strictIntercept|apply finite_ret]. }
  destruct (extractUrls _); [|discriminate].
  destruct (includes _ _).
  { apply finite_tryCatch; [apply finite_privateBlock|apply finite_ret]. }
  destruct (toRouteOf _ _ _) as [|e toRoute]; [discriminate|].
  unfold routeAndNotify. apply finite_bind.
  - intros w'. apply routeLinks_never_stuck.
  - intros [|r routed]; [apply finite_ret|].
    apply finite_tryCatch; [apply finite_deleteAndNotify|apply finite_ret].
Qed.

(** *** Calm computations *)

Lemma calm_ret {A} (a : A) : calm (ret a).
Proof. intros w Hf. split; [exact Hf|discriminate]. Qed.

Lemma calm_gets {A} (f : World -> A) : calm (gets f).
Proof. intros w Hf. split; [exact Hf|discriminate]. Qed.

Lemma calm_emit a : calm (emit a).
Proof. intros w Hf. split; [exact Hf|discriminate]. Qed.

Lemma calm_bind {A B} (m : M A) (f : A -> M B) :
  calm m -> (forall a, calm (f a)) -> calm (bind m f).
Proof.
  intros Hm Hf w Hw. destruct (Hm w Hw) as [Hq Ho].
  rewrite out_bind, world_bind.
  destruct (out (m w)); [apply Hf, Hq|contradiction|split; [exact Hq|discriminate]].
Qed.

(** A rejection that is caught does no harm, as long as the body leaves
    no fault pending. *)
Lemma calm_tryCatch {A} (m h : M A) :
  preserves still_quiet m -> calm h -> calm (tryCatch m h).
Proof.
  intros Hm Hh w Hw. pose proof (Hm w Hw) as Hq.
  rewrite out_tryCatch, world_tryCatch.
  destruct (out (m w)); [split; [exact Hq|discriminate]|apply Hh, Hq
                        |split; [exact Hq|discriminate]].
Qed.

Lemma calm_platform {A} a (k : World -> Outcome A * World) :
  (forall w, fst (k w) <> Throw /\ faults (snd (k w)) = faults w) ->
  calm (platform a k).
Proof.
  intros Hk w Hw. rewrite (platform_ok a k w Hw). simpl.
  destruct (Hk w) as [Ho Hf]. split; [congruence|exact Ho].
Qed.

Lemma calm_fetchMessages ch limit before : calm (fetchMessages ch limit before).
Proof. apply calm_platform. intros w. split; [discriminate|reflexivity]. Qed.

Lemma calm_msgDelete m : calm (msgDelete m).
Proof. apply calm_platform. intros w. split; [discriminate|reflexivity]. Qed.

Lemma calm_chSend ch p : calm (chSend ch p).
Proof. apply calm_platform. intros w. split; [discriminate|reflexivity]. Qed.

Lemma calm_threadSend t p : calm (threadSend t p).
Proof. apply calm_platform. intros w. split; [discriminate|reflexivity]. Qed.

Lemma calm_startThread m name dur : calm (startThread m name dur).
Proof. apply calm_platform. intros w. split; [discriminate|reflexivity]. Qed.

Ltac calm_step :=
  match goal with
  | |- calm (ret _) => apply calm_ret
  | |- calm (gets _) => apply calm_gets
  | |- calm (emit _) => apply calm_emit
  | |- calm (fetchMessages _ _ _) => apply calm_fetchMessages
  | |- calm (msgDelete _) => apply calm_msgDelete
  | |- calm (chSend _ _) => apply calm_chSend
  | |- calm (threadSend _ _) => apply calm_threadSend
  | |- calm (startThread _ _ _) => apply calm_startThread
  | |- calm (bind _ _) => apply calm_bind; [|intros ?]
  | |- calm (if ?b then _ else _) => destruct b
  | |- calm (match ?x with _ => _ end) => destruct x
  end.

Lemma quiet_existingThreadOf anchor : calm (existingThreadOf anchor).
Proof.
  unfold existingThreadOf. destruct (msg_hasThread anchor); [|apply calm_ret].
  apply calm_tryCatch; [|apply calm_ret].
  apply (preserves_bind _ stable_still_quiet);
    [apply (preserves_gets _ stable_still_quiet)|].
  intros [t|]; [|apply (preserves_ret _ stable_still_quiet)].
  apply (preserves_bind _ stable_still_quiet);
    [apply (preserves_threadFetch _ stable_still_quiet)|].
  intros t'. destruct (negb _); [apply (preserves_ret _ stable_still_quiet)|].
  apply (preserves_bind _ stable_still_quiet);
    [apply (preserves_setArchived _ stable_still_quiet)|].
  intros. apply (preserves_ret _ stable_still_quiet).
Qed.

Lemma calm_getOrCreateLatestThread `{Runtime} ch : calm (getOrCreateLatestThread ch).
Proof.
  unfold getOrCreateLatestThread. repeat calm_step.
  apply quiet_existingThreadOf.
Qed.

Lemma calm_buildLinkEmbed `{Runtime} {B} now category urls user sourceChannel
    timestamp (k : Embed -> M B) :
  embed_accepted
    (buildLinkEmbed now category urls user sourceChannel timestamp) = true ->
  calm (k (buildLinkEmbed now category urls user sourceChannel timestamp)) ->
  calm (bind (buildLinkEmbed_call now category urls user sourceChannel timestamp) k).
Proof. intros Ha Hk w Hw. rewrite bind_buildLinkEmbed, Ha. now apply Hk. Qed.

Lemma calm_routeLinks `{Runtime} message toRoute :
  (forall category us now,
      In (category, us) toRoute ->
      embed_accepted
        (buildLinkEmbed now category us (msg_author message)
           (Some (msg_channel message)) (Some (msg_createdAt message))) = true) ->
  forall routed, calm (routeLinks message toRoute routed).
Proof.
  induction toRoute as [|[category urls] rest IH]; intros Hacc routed;
    cbn [routeLinks].
  - apply calm_ret.
  - assert (Hrest : forall routed', calm (routeLinks message rest routed')).
    { apply IH. intros c us now Hin. apply Hacc. now right. }
    apply calm_bind; [apply calm_gets|]. intros [dest|]; [|apply Hrest].
    apply calm_bind; [apply calm_gets|]. intros now.
    apply calm_buildLinkEmbed; [apply Hacc; now left|].
    apply calm_bind; [apply calm_chSend|]. intros _. apply Hrest.
Qed.

Lemma toRouteOf_groups w message urls category us :
  In (category, us) (toRouteOf w message urls) ->
  In (category, us) (groupUrls urls).
Proof. unfold toRouteOf. intros Hin. now apply filter_In in Hin. Qed.

Lemma calm_messageCreate `{Runtime} message :
  records_accepted (msg_channel message) message ->
  calm (messageCreate message).
Proof.
  intros Hacc w Hw. rewrite messageCreate_unfold.
  destruct (bot _); [now apply calm_ret|].
  destruct (msg_guild _); [|now apply calm_ret].
  destruct (isThread _); [now apply calm_ret|].
  destruct (isDestinationChannel _ _).
  { apply calm_tryCatch; [|apply calm_ret|exact Hw].
    apply (preserves_strictIntercept _ stable_still_quiet). }
  destruct (extractUrls _) as [urls|] eqn:Eu; [|now apply calm_ret].
  destruct (includes _ _).
  { apply calm_tryCatch; [|apply calm_ret|exact Hw].
    apply (preserves_privateBlock _ stable_still_quiet). }
  destruct (toRouteOf _ _ _) as [|e toRoute] eqn:Et; [now apply calm_ret|].
  unfold routeAndNotify. apply calm_bind; [| |exact Hw].
  - apply calm_routeLinks. intros category us now Hin.
    apply (Hacc urls category us now Eu).
    apply (toRouteOf_groups w message). now rewrite Et.
  - intros [|r routed]; [apply calm_ret|].
    apply calm_tryCatch; [|apply calm_ret].
    apply (preserves_deleteAndNotify _ stable_still_quiet).
Qed.

(** *** Steady scans *)

Lemma records_accepted_empty `{Runtime} channel m :
  msg_content m = [] -> records_accepted channel m.
Proof. intros Hc urls category us now E. now rewrite Hc in E. Qed.

Lemma scan_fits_faults `{Runtime} S f w : scan_fits S w -> scan_fits S (set_faults f w).
Proof. intros Hw. exact Hw. Qed.

Lemma steady_ret `{Runtime} S {A} (a : A) : steady S (ret a).
Proof. intros w Hf Hw. repeat split; auto; discriminate. Qed.

Lemma steady_gets `{Runtime} S {A} (f : World -> A) : steady S (gets f).
Proof. intros w Hf Hw. repeat split; auto; discriminate. Qed.

Lemma steady_emit `{Runtime} S a : steady S (emit a).
Proof. intros w Hf Hw. repeat split; auto; discriminate. Qed.

Lemma steady_bind `{Runtime} S {A B} (m : M A) (f : A -> M B) :
  steady S m -> (forall a, steady S (f a)) -> steady S (bind m f).
Proof.
  intros Hm Hf w Hq Hw. destruct (Hm w Hq Hw) as (Hq' & Hw' & Ho).
  rewrite out_bind, world_bind.
  destruct (out (m w)); [now apply Hf|contradiction|].
  repeat split; auto; discriminate.
Qed.

Lemma steady_buildLinkEmbed `{Runtime} S {B} now category urls user
    sourceChannel timestamp (k : Embed -> M B) :
  embed_accepted
    (buildLinkEmbed now category urls user sourceChannel timestamp) = true ->
  steady S (k (buildLinkEmbed now category urls user sourceChannel timestamp)) ->
  steady S
    (bind (buildLinkEmbed_call now category urls user sourceChannel timestamp) k).
Proof. intros Ha Hk w Hq Hw. rewrite bind_buildLinkEmbed, Ha. now apply Hk. Qed.

(** The message that a record makes in its destination room has no text,
    so no link. *)
Lemma steady_send_record `{Runtime} S dest e : steady S (chSend dest (embed_payload e)).
Proof.
  intros w Hq Hw. unfold chSend. rewrite (platform_ok _ _ _ Hq).
  cbn [fst snd out world]. split; [exact Hq|]. split; [|discriminate].
  intros channel m HS Hin. unfold messages_of in Hin. cbn in Hin.
  destruct (decide (ch_id dest = ch_id channel)) as [E|Hne].
  - rewrite E, lookup_insert_eq in Hin. cbn in Hin.
    destruct Hin as [<-|Hin]; [apply records_accepted_empty; reflexivity|].
    exact (Hw channel m HS Hin).
  - rewrite lookup_insert_ne in Hin by exact Hne. exact (Hw channel m HS Hin).
Qed.

Lemma steady_delete `{Runtime} S msg : steady S (tryCatch (msgDelete msg) (ret tt)).
Proof.
  intros w Hq Hw.
  rewrite (tryCatch_known _ _ _ _ _ _ (msgDelete_quiet msg w Hq)).
  cbn [out world]. split; [exact Hq|]. split; [|discriminate].
  intros channel m HS Hin. unfold messages_of, deleted in Hin. cbn in Hin.
  destruct (decide (ch_id (msg_channel msg) = ch_id channel)) as [E|Hne].
  - rewrite E, lookup_insert_eq in Hin. cbn in Hin.
    apply filter_In in Hin as [Hin _]. exact (Hw channel m HS Hin).
  - rewrite lookup_insert_ne in Hin by exact Hne. exact (Hw channel m HS Hin).
Qed.

Lemma steady_backfillRoute `{Runtime} S channel msg entries :
  (forall category us now,
      In (category, us) entries ->
      embed_accepted
        (buildLinkEmbed now category us (msg_author msg) (Some channel)
           (Some (msg_createdAt msg))) = true) ->
  forall moved flag, steady S (backfillRoute channel msg entries moved flag).
Proof.
  induction entries as [|[category urls] rest IH]; intros Hacc moved flag;
    cbn [backfillRoute].
  - apply steady_ret.
  - assert (Hrest : forall moved' flag',
              steady S (backfillRoute channel msg rest moved' flag')).
    { apply IH. intros c us now Hin. apply Hacc. now right. }
    apply steady_bind; [apply steady_gets|]. intros [dest|]; [|apply Hrest].
    destruct (str_eqb _ _); [apply Hrest|].
    apply steady_bind; [apply steady_gets|]. intros now.
    apply steady_buildLinkEmbed; [apply Hacc; now left|].
    apply steady_bind; [apply steady_send_record|]. intros _. apply Hrest.
Qed.

Lemma steady_scanPage `{Runtime} S channel messages :
  Forall (records_accepted channel) messages ->
  forall moved, steady S (scanPage channel messages moved).
Proof.
  induction 1 as [|msg rest Hmsg _ IH]; intros moved; cbn [scanPage].
  - apply steady_ret.
  - destruct (_ <? _)%Z; [apply steady_ret|].
    destruct (bot _); [apply IH|].
    destruct (extractUrls _) as [urls|] eqn:Eu; [|apply IH].
    apply steady_bind.
    + apply steady_backfillRoute. intros category us now Hin.
      now apply (Hmsg urls category us now Eu).
    + intros [moved' flag]. apply steady_bind; [|intros; apply IH].
      destruct flag; [apply steady_delete|apply steady_ret].
Qed.

Lemma steady_scanLoop `{Runtime} (S : Channel -> Prop) channel fuel :
  S channel ->
  forall lastId moved, steady S (scanLoop fuel channel lastId moved).
Proof.
  intros HS. induction fuel as [|fuel IH]; intros lastId moved; cbn [scanLoop].
  - intros w Hq Hw. repeat split; auto; discriminate.
  - intros w Hq Hw.
    assert (Hh : hd false (faults w) = false) by now rewrite Hq.
    rewrite (bind_known _ _ _ _ _ _ (fetch_caught_ok channel 100 lastId w Hh)).
    cbn [out world].
    assert (Hq1 : faults (set_faults (tl (faults w)) w) = []) by now rewrite Hq.
    assert (Hpage : Forall (records_accepted channel)
                      (page_of w channel 100 lastId)).
    { apply List.Forall_forall. intros y Hy. apply page_of_in in Hy as [Hy _].
      now apply (Hw channel y HS). }
    destruct (page_of w channel 100 lastId) as [|m page] eqn:Ep.
    { cbn [out world]. repeat split; auto; discriminate. }
    assert (Hrest : steady S
              (let* result := scanPage channel (m :: page) moved in
               let '(reachedCutoff, moved') := result in
               emit (ASleep 1000);;
               if reachedCutoff then ret moved'
               else scanLoop fuel channel (last_id (m :: page)) moved')).
    { apply steady_bind; [now apply steady_scanPage|].
      intros [rc moved']. apply steady_bind; [apply steady_emit|].
      intros _. destruct rc; [apply steady_ret|apply IH]. }
    exact (Hrest _ Hq1 (scan_fits_faults S _ w Hw)).
Qed.

Lemma steady_scanChannels `{Runtime} (S : Channel -> Prop) channels :
  Forall S channels ->
  forall total, steady S (scanChannels channels total).
Proof.
  induction 1 as [|channel rest HS _ IH]; intros total; cbn [scanChannels].
  - apply steady_ret.
  - apply steady_bind; [|intros; apply IH].
    unfold scanChannel. destruct (includes _ _); [apply steady_ret|].
    apply steady_bind; [apply steady_gets|intros; now apply steady_scanLoop].
Qed.

(** X4. The handler never exhausts a budget. What it does under [try]
    never makes it reject: in a destination room, and in a private room, it
    returns normally whatever platform call fails and whatever the builder
    refuses. Anywhere, it returns normally when no platform call fails and
    the builder accepts the records of the message. *)
Theorem messageCreate_rejections `{Runtime} (message : Message) (w : World) :
  out (messageCreate message w) <> OutOfFuel
  /\ (isDestinationChannel w (ch_id (msg_channel message)) = true
      \/ includes (default [] (ch_name (msg_channel message))) private_marker = true
      \/ (faults w = [] /\ records_accepted (msg_channel message) message) ->
      out (messageCreate message w) = Ok tt).
Proof.
  pose proof (finite_messageCreate message w) as Hfin.
  split; [exact Hfin|]. intros Hcase.
  assert (Hnt : out (messageCreate message w) <> Throw).
  { destruct Hcase as [Hd|[Hp|[Hf Hacc]]].
    - rewrite messageCreate_unfold, Hd.
      destruct (bot _); [discriminate|].
      destruct (msg_guild _); [|discriminate].
      destruct (isThread _); [discriminate|]. apply tryCatch_ret_no_throw.
    - rewrite messageCreate_unfold, Hp.
      destruct (bot _); [discriminate|].
      destruct (msg_guild _); [|discriminate].
      destruct (isThread _); [discriminate|].
      destruct (isDestinationChannel _ _); [apply tryCatch_ret_no_throw|].
      destruct (extractUrls _); [|discriminate]. apply tryCatch_ret_no_throw.
    - now apply calm_messageCreate. }
  destruct (out (messageCreate message w)) as [[]| |]; congruence.
Qed.

Lemma messageCreate_rejections_witness :
  out (messageCreate Fixture.chat
         (set_faults [false; true; true] Fixture.w0)) = Ok tt
  /\ out (messageCreate Fixture.mixed Fixture.w0) = Ok tt.
Proof.
  split.
  - apply (messageCreate_rejections Fixture.chat
             (set_faults [false; true; true] Fixture.w0)).
    left. reflexivity.
  - apply (messageCreate_rejections Fixture.mixed Fixture.w0).
    right. right. split; [reflexivity|].
    intros urls category us now E Hin. vm_compute in E. injection E as <-.
    vm_compute in Hin. destruct Hin as [[= <- <-]|[[= <- <-]|[]]]; reflexivity.
Defined.

(** X5. With no platform call made to fail, and when the builder accepts
    the records of the messages in the rooms of the guild, the scan of the
    guild ends with the count of its relocations, and leaves no fault
    pending. *)
Theorem backfillGuild_completes `{Runtime} (guild : jsstring) (w : World) :
  faults w = [] ->
  scan_fits (fun channel => In channel (channels_of w guild)) w ->
  (exists total, out (backfillGuild guild w) = Ok total)
  /\ faults (world (backfillGuild guild w)) = [].
Proof.
  intros Hw Hfit.
  assert (Hs : faults (world (backfillGuild guild w)) = []
               /\ out (backfillGuild guild w) <> Throw).
  { unfold backfillGuild. rewrite bind_gets.
    edestruct (steady_scanChannels (fun channel => In channel (channels_of w guild)))
      as (Hq & _ & Hnt); [| exact Hw | exact Hfit | split; [exact Hq|exact Hnt]].
    apply List.Forall_forall. intros ch Hin. now apply filter_In in Hin. }
  destruct Hs as [Hq Hnt]. split; [|exact Hq].
  pose proof (backfillGuild_terminates guild w) as Hfin.
  destruct (out (backfillGuild guild w)) as [n| |]; [eauto|congruence|congruence].
Qed.

Lemma backfillGuild_completes_witness :
  (exists total, out (backfillGuild Fixture.home Fixture.w0) = Ok total)
  /\ faults (world (backfillGuild Fixture.home Fixture.w0)) = [].
Proof.
  apply (backfillGuild_completes Fixture.home Fixture.w0); [reflexivity|].
  intros channel m Hc Hm urls category us now E Hin.
  vm_compute in Hc.
  destruct Hc as [<-|[<-|[<-|[<-|[<-|[]]]]]]; vm_compute in Hm;
    repeat match goal with
    | Hm : _ \/ _ |- _ => destruct Hm as [<-|Hm]
    | Hm : False |- _ => destruct Hm
    end;
    vm_compute in E; try discriminate E; injection E as <-;
    vm_compute in Hin;
    repeat match goal with
    | Hin : _ \/ _ |- _ => destruct Hin as [[= <- <-]|Hin]
    | Hin : False |- _ => destruct Hin
    end; reflexivity.
Defined.

(* ===================================================================== *)
(** ** The live handler outside destination rooms *)
(* ===================================================================== *)

(** X6. A message that is not for the handler, or that holds no link outside
    the destination rooms, is left alone: no call is made and the state
    is unchanged. *)
Theorem plain_messages_untouched `{Runtime} (message : Message) (w : World) :
  msg_guild message = None
  \/ isThread (msg_channel message) = true
  \/ (isDestinationChannel w (ch_id (msg_channel message)) = false
      /\ test URL_REGEX (msg_content message) = false) ->
  messageCreate message w = mkRes (Ok tt) w [].
Proof.
  intros Hcase. rewrite messageCreate_unfold.
  destruct (bot _); [reflexivity|].
  destruct Hcase as [Hg|[Ht|[Hd Hu]]].
  - now rewrite Hg.
  - rewrite Ht. now destruct (msg_guild _).
  - rewrite Hd. apply extractUrls_none in Hu. rewrite Hu.
    destruct (msg_guild _); [|reflexivity]. now destruct (isThread _).
Qed.

Lemma plain_messages_untouched_witness :
  let message := Fixture.post 6010 Fixture.alice "see you at http:// later"
                   1770000460000%Z Fixture.general in
  messageCreate message Fixture.w0 = mkRes (Ok tt) Fixture.w0 [].
Proof.
  apply (plain_messages_untouched
           (Fixture.post 6010 Fixture.alice "see you at http:// later"
              1770000460000%Z Fixture.general) Fixture.w0).
  right. right. split; vm_compute; reflexivity.
Defined.

(** X7. In a room marked private, a message of a user with a link is deleted
    and never relocated: no Summary Record is sent. With no platform call
    made to fail, the calls are the deletion, one warning in the room, and
    the timer that deletes the warning after 10000 ms. When the deletion
    itself fails, nothing else is done. *)
Theorem private_room_blocks_links `{Runtime} (message : Message) (w : World)
    (urls : list jsstring) :
  bot (msg_author message) = false ->
  msg_guild message <> None ->
  isThread (msg_channel message) = false ->
  isDestinationChannel w (ch_id (msg_channel message)) = false ->
  extractUrls (msg_content message) = Some urls ->
  includes (default [] (ch_name (msg_channel message))) private_marker = true ->
  let r := messageCreate message w in
  let warning := text_payload (privateWarning (msg_author message)) in
  Forall (fun a => is_record_send a = false) (acts r)
  /\ (faults w = [] ->
      acts r = [ADelete message; ASend (msg_channel message) warning;
                ADeleteAfter 10000
                  (sent_message (deleted message w) (msg_channel message) warning)])
  /\ (hd false (faults w) = true -> acts r = [ADelete message]).
Proof.
  intros Hbot Hg Ht Hd Hu Hp. cbv zeta.
  rewrite messageCreate_unfold, Hbot, Ht, Hd, Hu, Hp.
  destruct (msg_guild message); [|congruence].
  split; [|split].
  - apply (traceP_tryCatch (fun a => is_record_send a = false));
      [now apply traceP_privateBlock|apply traceP_ret].
  - intros Hf.
    assert (Hfd : faults (deleted message w) = []) by exact Hf.
    destruct (chSend_quiet (msg_channel message)
                (text_payload (privateWarning (msg_author message)))
                (deleted message w) Hfd) as (w' & Es).
    assert (E : privateBlock message w
                = mkRes (Ok tt) w'
                    [ADelete message;
                     ASend (msg_channel message)
                       (text_payload (privateWarning (msg_author message)));
                     ADeleteAfter 10000
                       (sent_message (deleted message w) (msg_channel message)
                          (text_payload (privateWarning (msg_author message))))]).
    { unfold privateBlock.
      rewrite (bind_known _ _ _ _ _ _ (msgDelete_quiet message w Hf)).
      now rewrite (bind_known _ _ _ _ _ _ Es). }
    now rewrite (tryCatch_known _ _ _ _ _ _ E).
  - intros Hf. unfold tryCatch, privateBlock, bind, msgDelete, platform.
    destruct (faults w) as [|[] fs]; try discriminate. reflexivity.
Qed.

Lemma private_room_blocks_links_witness :
  let message := Fixture.post 6011 Fixture.alice "look https://youtu.be/q"
                   1770000470000%Z Fixture.lounge in
  Forall (fun a => is_record_send a = false)
    (acts (messageCreate message Fixture.w0))
  /\ List.length (acts (messageCreate message Fixture.w0)) = 3%nat.
Proof.
  cbv zeta.
  destruct (private_room_blocks_links
              (Fixture.post 6011 Fixture.alice "look https://youtu.be/q"
                 1770000470000%Z Fixture.lounge) Fixture.w0
              [lit "https://youtu.be/q"])
    as (Hno & Hquiet & _); try reflexivity; try discriminate.
  split; [exact Hno|]. now rewrite (Hquiet eq_refl).
Defined.

(** *** Ordinary rooms *)

Lemma relocations_ext w w' message toRoute :
  destinationChannels w' = destinationChannels w -> clock w' = clock w ->
  relocations w' message toRoute = relocations w message toRoute.
Proof.
  intros Hd Hc. induction toRoute as [|[category urls] rest IH]; simpl; auto.
  now rewrite Hd, Hc, IH.
Qed.

Lemma routed_of_ext w w' toRoute :
  destinationChannels w' = destinationChannels w ->
  routed_of w' toRoute = routed_of w toRoute.
Proof.
  intros Hd. induction toRoute as [|[category urls] rest IH]; simpl; auto.
  now rewrite Hd, IH.
Qed.

(** With no platform call made to fail, the loop sends one record per
    group with a cached destination, in the order of the groups. *)
Lemma routeLinks_quiet `{Runtime} message toRoute :
  (forall category us now,
      In (category, us) toRoute ->
      embed_accepted
        (buildLinkEmbed now category us (msg_author message)
           (Some (msg_channel message)) (Some (msg_createdAt message))) = true) ->
  forall routed w,
  faults w = [] ->
  exists w',
    routeLinks message toRoute routed w
    = mkRes (Ok (routed ++ routed_of w toRoute)) w'
        (relocations w message toRoute)
    /\ faults w' = []
    /\ frame w' = frame w.
Proof.
  induction toRoute as [|[category urls] rest IH]; intros Hacc routed w Hf;
    cbn [routeLinks relocations routed_of].
  - exists w. now rewrite app_nil_r.
  - assert (Hrest : forall category us now,
              In (category, us) rest ->
              embed_accepted
                (buildLinkEmbed now category us (msg_author message)
                   (Some (msg_channel message))
                   (Some (msg_createdAt message))) = true)
      by (intros c us now Hin; apply Hacc; now right).
    specialize (IH Hrest).
    rewrite bind_gets. destruct (dc_get _ _) as [dest|]; [|now apply IH].
    rewrite bind_gets, bind_buildLinkEmbed, (Hacc category urls (clock w))
      by now left.
    destruct (chSend_quiet dest
                (embed_payload
                   (buildLinkEmbed (clock w) category urls (msg_author message)
                      (Some (msg_channel message))
                      (Some (msg_createdAt message)))) w Hf) as (w1 & Es).
    assert (Hf1 : faults w1 = []).
    { pose proof (preserves_chSend _ stable_still_quiet dest
                    (embed_payload
                       (buildLinkEmbed (clock w) category urls
                          (msg_author message) (Some (msg_channel message))
                          (Some (msg_createdAt message)))) w Hf) as Hq.
      now rewrite Es in Hq. }
    assert (Hfr1 : frame w1 = frame w).
    { pose proof (preserves_chSend _ stable_same_frame dest
                    (embed_payload
                       (buildLinkEmbed (clock w) category urls
                          (msg_author message) (Some (msg_channel message))
                          (Some (msg_createdAt message)))) w) as Hq.
      now rewrite Es in Hq. }
    assert (Hd1 : destinationChannels w1 = destinationChannels w)
      by (unfold frame in Hfr1; congruence).
    assert (Hc1 : clock w1 = clock w) by (unfold frame in Hfr1; congruence).
    rewrite (bind_known _ _ _ _ _ _ Es).
    destruct (IH (routed ++ [{| r_category := category; r_destId := ch_id dest;
                                r_icon := cfg_icon (CATEGORIES category) |}])
                w1 Hf1) as (w' & E & Hf' & Hfr').
    rewrite E. cbn [out world acts].
    exists w'. split; [|split; [exact Hf'|congruence]].
    rewrite (relocations_ext _ _ _ _ Hd1 Hc1), (routed_of_ext _ _ _ Hd1).
    now rewrite <- app_assoc.
Qed.

(** X8. In an ordinary room, with no platform call made to fail and records
    that the builder accepts, a message of a user with links is handled as
    follows: one Summary Record is sent
    for each category group whose destination is another room and is
    cached, in the order of the groups; then, if a record was sent, the
    original is deleted, one notice with a line per record is sent to the
    room, and the notice is set to be deleted after 10000 ms. If no group
    had a cached destination elsewhere, nothing is done. *)
Theorem ordinary_room_routing `{Runtime} (message : Message) (w : World)
    (urls : list jsstring) :
  bot (msg_author message) = false ->
  msg_guild message <> None ->
  isThread (msg_channel message) = false ->
  isDestinationChannel w (ch_id (msg_channel message)) = false ->
  extractUrls (msg_content message) = Some urls ->
  includes (default [] (ch_name (msg_channel message))) private_marker = false ->
  faults w = [] ->
  records_accepted (msg_channel message) message ->
  let r := messageCreate message w in
  let toRoute := toRouteOf w message urls in
  out r = Ok tt
  /\ match routed_of w toRoute with
     | [] => acts r = [] /\ relocations w message toRoute = []
     | routed =>
         exists notification,
           acts r
           = relocations w message toRoute
             ++ [ADelete message;
                 ASend (msg_channel message)
                   (text_payload
                      (join [10]
                         (List.map (routedNotice (msg_author message)) routed)));
                 ADeleteAfter 10000 notification]
           /\ List.length (relocations w message toRoute) = List.length routed
           /\ msg_channel notification = msg_channel message
     end.
Proof.
  intros Hbot Hg Ht Hd Hu Hp Hf Hacc. cbv zeta.
  rewrite messageCreate_unfold, Hbot, Ht, Hd, Hu, Hp.
  destruct (msg_guild message); [|congruence].
  assert (Hlen : forall g, List.length (relocations w message g)
                           = List.length (routed_of w g)).
  { induction g as [|[c us] g IH]; simpl; auto.
    destruct (dc_get _ _); simpl; auto. }
  destruct (toRouteOf w message urls) as [|e toRoute] eqn:Et.
  { simpl. auto. }
  unfold routeAndNotify.
  assert (Hgroups : forall category us now,
            In (category, us) (e :: toRoute) ->
            embed_accepted
              (buildLinkEmbed now category us (msg_author message)
                 (Some (msg_channel message))
                 (Some (msg_createdAt message))) = true).
  { intros category us now Hin. apply (Hacc urls category us now Hu).
    apply (toRouteOf_groups w message). now rewrite Et. }
  destruct (routeLinks_quiet message (e :: toRoute) Hgroups [] w Hf)
    as (w1 & E & Hf1 & Hfr1).
  rewrite (bind_known _ _ _ _ _ _ E). cbn [app].
  destruct (routed_of w (e :: toRoute)) as [|r0 routed] eqn:Er.
  - cbn [out acts ret]. rewrite app_nil_r.
    pose proof (Hlen (e :: toRoute)) as Hl. rewrite Er in Hl.
    destruct (relocations w message (e :: toRoute)); [auto|discriminate].
  - destruct (chSend_quiet (msg_channel message)
                (text_payload
                   (join [10]
                      (List.map (routedNotice (msg_author message)) (r0 :: routed))))
                (deleted message w1) Hf1) as (w2 & Es).
    assert (E2 : deleteAndNotify message (r0 :: routed) w1
                 = mkRes (Ok tt) w2
                     [ADelete message;
                      ASend (msg_channel message)
                        (text_payload
                           (join [10]
                              (List.map (routedNotice (msg_author message))
                                 (r0 :: routed))));
                      ADeleteAfter 10000
                        (sent_message (deleted message w1) (msg_channel message)
                           (text_payload
                              (join [10]
                                 (List.map (routedNotice (msg_author message))
                                    (r0 :: routed)))))]).
    { unfold deleteAndNotify.
      rewrite (bind_known _ _ _ _ _ _ (msgDelete_quiet message w1 Hf1)).
      now rewrite (bind_known _ _ _ _ _ _ Es). }
    rewrite (tryCatch_known _ _ _ _ _ _ E2). cbn [out acts].
    split; [reflexivity|]. eexists. split; [reflexivity|].
    split; [|reflexivity]. rewrite Hlen, Er. reflexivity.
Qed.

Lemma ordinary_room_routing_witness :
  out (messageCreate Fixture.mixed Fixture.w0) = Ok tt
  /\ List.map is_record_send (acts (messageCreate Fixture.mixed Fixture.w0))
     = [true; true; false; false; false].
Proof.
  destruct (ordinary_room_routing Fixture.mixed Fixture.w0
              [lit "https://youtu.be/abc123";
               lit "https://store.steampowered.com/app/999"])
    as (Hout & Hacts); try reflexivity; try discriminate.
  { intros urls category us now E Hin. vm_compute in E. injection E as <-.
    vm_compute in Hin. destruct Hin as [[= <- <-]|[[= <- <-]|[]]]; reflexivity. }
  split; [exact Hout|]. vm_compute. reflexivity.
Defined.

(* ===================================================================== *)
(** ** More on the destination registry *)
(* ===================================================================== *)

Lemma traceP_at {A} (P : Action -> Prop) (m : M A) w :
  traceP P m -> Forall P (acts (m w)).
Proof. intros H. apply H. Qed.

(** X9. The three recorded ids: writing one and reading it back, and the rooms
    that count as destination rooms. *)
Theorem recorded_ids (w : World) (category : Category) (id : jsstring) :
  (forall category',
      getDestinationId (updateEnvId category id w) category'
      = if Category_eqb category category' then id
        else getDestinationId w category')
  /\ destinationChannels (updateEnvId category id w) = destinationChannels w
  /\ (isDestinationChannel w id = true
      <-> exists category', getDestinationId w category' = id).
Proof.
  split; [|split].
  - intros category'. now destruct category, category'.
  - now destruct category.
  - unfold isDestinationChannel. simpl. rewrite !orb_true_iff, !str_eqb_eq.
    split.
    + intros [E|[E|[E|E]]]; [now exists youtube|now exists steam
                            |now exists other|discriminate].
    + intros [[] E]; simpl in E; auto.
Qed.

(** X10. The policy is applied on a best-effort basis: the function returns
    normally whatever fails, changes nothing of the state, and edits the
    permissions of the default role first and of the program second; the
    second edit is skipped exactly when the first one fails. *)
Theorem enforceStrictPermissions_best_effort (channel : Channel) (w : World) :
  let r := enforceStrictPermissions channel w in
  out r = Ok tt
  /\ (exists f, world r = set_faults f w)
  /\ (if hd false (faults w)
      then acts r = [APermEdit channel EveryoneRole everyone_table]
      else acts r = [APermEdit channel EveryoneRole everyone_table;
                     APermEdit channel BotMember bot_table]).
Proof.
  cbv zeta. destruct (enforce_result channel w) as (f & t & E).
  split; [now rewrite E|]. split; [exists f; now rewrite E|].
  unfold enforceStrictPermissions, tryCatch, bind, permEdit, platform.
  destruct (faults w) as [|[] [|[] fs]] eqn:Ef; simpl; rewrite ?Ef; simpl;
    reflexivity.
Qed.

Lemma traceP_enforce ch :
  traceP (fun a => is_perm_edit a = true) (enforceStrictPermissions ch).
Proof. unfold enforceStrictPermissions, permEdit. trace_auto; reflexivity. Qed.

Lemma configured_of_id w guild category c :
  configured_of w guild category = Some c ->
  getDestinationId w category = ch_id c /\ In c (channels_of w guild).
Proof.
  unfold configured_of, cache_get. destruct (_ <? _)%nat; [|discriminate].
  intros Hfind. apply find_some in Hfind as [Hin Heq].
  apply str_eqb_eq in Heq. auto.
Qed.

(** X11. Resolution order and creation. The configured id wins when it is
    longer than ten code units and names a room of the guild; otherwise
    the first text room with the preferred name wins; only when there is
    neither is a room created, as the first call. Without a creation the
    function cannot reject, makes permission edits only and leaves the
    channel list of the guild as it is. With a creation it rejects exactly
    when the creation fails, and then nothing was recorded. *)
Theorem ensureChannel_resolution (guild : jsstring) (category : Category)
    (w : World) :
  let r := ensureChannel guild category w in
  let config := CATEGORIES category in
  (forall c, configured_of w guild category = Some c -> out r = Ok c)
  /\ (forall c,
        configured_of w guild category = None ->
        List.find (named_text (cfg_channelName config)) (channels_of w guild)
        = Some c ->
        out r = Ok c)
  /\ (resolvable w guild category = true ->
      out r <> Throw
      /\ Forall (fun a => is_perm_edit a = true) (acts r)
      /\ guild_channels (world r) = guild_channels w)
  /\ (resolvable w guild category = false ->
      (exists rest,
          acts r = ACreateChannel guild (cfg_channelName config)
                     (cfg_topic config) :: rest
          /\ Forall (fun a => is_perm_edit a = true) rest)
      /\ (out r = Throw <-> hd false (faults w) = true)
      /\ (out r = Throw -> frame (world r) = frame w)
      /\ (forall c, out r = Ok c -> c = fresh_channel w guild category)).
Proof.
  cbv zeta. pose proof (ensureChannel_run guild category w) as Hrun.
  unfold resolvable.
  assert (Hacts1 : forall c w1,
            Forall (fun a => is_perm_edit a = true)
              (acts ((enforceStrictPermissions c;; ret c) w1))).
  { intros c w1. apply traceP_at. apply traceP_bind; [apply traceP_enforce|].
    intros. apply traceP_ret. }
  destruct (configured_of w guild category) as [c0|] eqn:Ec.
  - destruct Hrun as (f & t & E).
    split; [intros c [= <-]; now rewrite E|].
    split; [discriminate|]. split; [|discriminate].
    intros _. split; [now rewrite E|]. split; [|now rewrite E].
    unfold ensureChannel.
    rewrite (bind_known _ _ _ _ _ _ (configuredChannel_run guild category w)).
    rewrite Ec. cbn [acts app]. rewrite bind_modify. apply Hacts1.
  - split; [discriminate|].
    destruct (List.find _ _) as [c0|] eqn:Efind.
    + destruct Hrun as (f & t & E).
      split; [intros c _ [= <-]; now rewrite E|].
      split; [|discriminate].
      intros _. split; [now rewrite E|]. split.
      * unfold ensureChannel.
        rewrite (bind_known _ _ _ _ _ _ (configuredChannel_run guild category w)).
        rewrite Ec. cbn [acts app]. rewrite bind_gets, Efind.
        rewrite !bind_modify. apply Hacts1.
      * rewrite E. cbn [world]. now destruct category.
    + split; [discriminate|]. split; [discriminate|]. intros _.
      assert (Hacts : exists rest,
                acts (ensureChannel guild category w)
                = ACreateChannel guild (cfg_channelName (CATEGORIES category))
                    (cfg_topic (CATEGORIES category)) :: rest
                /\ Forall (fun a => is_perm_edit a = true) rest).
      { unfold ensureChannel.
        rewrite (bind_known _ _ _ _ _ _ (configuredChannel_run guild category w)).
        rewrite Ec. cbn [acts app]. rewrite bind_gets, Efind, acts_bind.
        unfold createChannel at 1. rewrite acts_platform. cbn [app].
        eexists. split; [reflexivity|].
        destruct (out _); [|constructor|constructor].
        rewrite !bind_modify. apply Hacts1. }
      split; [exact Hacts|].
      assert (Hout : out (ensureChannel guild category w)
                     = if hd false (faults w) then Throw
                       else Ok (fresh_channel w guild category)).
      { unfold ensureChannel.
        rewrite (bind_known _ _ _ _ _ _ (configuredChannel_run guild category w)).
        rewrite Ec. cbn [out]. rewrite bind_gets, Efind, out_bind.
        unfold createChannel, platform.
        destruct (faults w) as [|[] fs]; cbn [out world hd]; try reflexivity.
        - rewrite !bind_modify, out_bind.
          match goal with
          | |- context [enforceStrictPermissions ?c ?w'] =>
              destruct (enforce_result c w') as (f & t & ->)
          end. reflexivity.
        - rewrite !bind_modify, out_bind.
          match goal with
          | |- context [enforceStrictPermissions ?c ?w'] =>
              destruct (enforce_result c w') as (f & t & ->)
          end. reflexivity. }
      split; [|split].
      * rewrite Hout. destruct (hd false (faults w)); split; congruence.
      * cbv zeta in Hrun. destruct Hrun as (f & t & [E|E]); rewrite E;
          [reflexivity|discriminate].
      * intros c. rewrite Hout. destruct (hd false (faults w)); congruence.
Qed.

Lemma ensureChannel_resolution_witness :
  out (ensureChannel Fixture.home youtube Fixture.w_pinned) = Ok Fixture.clips
  /\ out (ensureChannel Fixture.home steam
            (set_faults [true] Fixture.w_pinned)) = Throw.
Proof.
  split.
  - apply (proj1 (ensureChannel_resolution Fixture.home youtube Fixture.w_pinned)).
    reflexivity.
  - destruct (ensureChannel_resolution Fixture.home steam
                (set_faults [true] Fixture.w_pinned)) as (_ & _ & _ & Hcreate).
    apply Hcreate; reflexivity.
Defined.

Lemma ensure_binding guild category w c :
  out (ensureChannel guild category w) = Ok c ->
  getDestinationId (world (ensureChannel guild category w)) category = ch_id c
  /\ dc_get (destinationChannels (world (ensureChannel guild category w)))
       category = Some c
  /\ forall category', category' <> category ->
       getDestinationId (world (ensureChannel guild category w)) category'
       = getDestinationId w category'
       /\ dc_get (destinationChannels (world (ensureChannel guild category w)))
            category'
          = dc_get (destinationChannels w) category'.
Proof.
  intros Hout.
  pose proof (ensureChannel_run guild category w) as Hrun.
  destruct (configured_of w guild category) as [c0|] eqn:Ec.
  - destruct Hrun as (f & t & E). rewrite E in *. cbn [out world] in *.
    injection Hout as ->. apply configured_of_id in Ec as [Hid _].
    split; [exact Hid|]. split; [simpl; apply dc_get_set_eq|].
    intros category' Hne. split; [reflexivity|]. simpl.
    now apply dc_get_set_ne.
  - assert (Hupd : forall c1 w1 f,
              getDestinationId
                (set_faults f (updateEnvId category (ch_id c1)
                                 (cacheDestination category c1 w1))) category
              = ch_id c1
              /\ dc_get (destinationChannels
                           (set_faults f (updateEnvId category (ch_id c1)
                                            (cacheDestination category c1 w1))))
                   category = Some c1
              /\ forall category', category' <> category ->
                   getDestinationId
                     (set_faults f (updateEnvId category (ch_id c1)
                                      (cacheDestination category c1 w1)))
                     category'
                   = getDestinationId w1 category'
                   /\ dc_get (destinationChannels
                                (set_faults f
                                   (updateEnvId category (ch_id c1)
                                      (cacheDestination category c1 w1))))
                        category'
                      = dc_get (destinationChannels w1) category').
    { intros c1 w1 f. split; [apply getDestinationId_update|].
      split; [rewrite dest_update; simpl; apply dc_get_set_eq|].
      intros category' Hne. split.
      - destruct category, category'; try congruence; reflexivity.
      - rewrite dest_update. simpl. now apply dc_get_set_ne. }
    destruct (List.find _ _) as [c0|] eqn:Efind.
    + destruct Hrun as (f & t & E). rewrite E in *. cbn [out world] in *.
      injection Hout as ->. apply Hupd.
    + cbv zeta in Hrun. destruct Hrun as (f & t & [E|E]); rewrite E in *;
        cbn [out world] in *; [discriminate|].
      injection Hout as <-.
      destruct (Hupd (fresh_channel w guild category)
                  (with_channel guild (fresh_channel w guild category) w) f)
        as (H1 & H2 & H3).
      split; [exact H1|]. split; [exact H2|]. exact H3.
Qed.

(** X12. After a resolution the recorded id and the cache agree on the room
    returned, which from then on counts as a destination room; the entries
    of the other categories are as before. A registry whose ids and cache
    agree stays so. *)
Theorem ensureChannel_records (guild : jsstring) (category : Category)
    (w : World) (c : Channel) :
  out (ensureChannel guild category w) = Ok c ->
  let w' := world (ensureChannel guild category w) in
  getDestinationId w' category = ch_id c
  /\ dc_get (destinationChannels w') category = Some c
  /\ isDestinationChannel w' (ch_id c) = true
  /\ (forall category', category' <> category ->
        getDestinationId w' category' = getDestinationId w category'
        /\ dc_get (destinationChannels w') category'
           = dc_get (destinationChannels w) category')
  /\ (registry_consistent w -> registry_consistent w').
Proof.
  intros Hout. cbv zeta.
  destruct (ensure_binding guild category w c Hout) as (Hid & Hdc & Hothers).
  split; [exact Hid|]. split; [exact Hdc|]. split; [|split; [exact Hothers|]].
  - rewrite <- Hid. apply getDestinationId_isDestination.
  - intros Hcons category' c' Hc'.
    destruct (Category_eqb category' category) eqn:Ecat.
    + apply Category_eqb_eq in Ecat. subst category'. congruence.
    + assert (Hne : category' <> category)
        by (intros ->; now rewrite Category_eqb_refl in Ecat).
      destruct (Hothers _ Hne) as [Hg Hd]. rewrite Hg. apply Hcons.
      now rewrite <- Hd.
Qed.

Lemma ensureChannel_records_witness :
  let w' := world (ensureChannel Fixture.home youtube Fixture.w_pinned) in
  getDestinationId w' youtube = ch_id Fixture.clips
  /\ isDestinationChannel w' (ch_id Fixture.clips) = true.
Proof.
  destruct (ensureChannel_records Fixture.home youtube Fixture.w_pinned
              Fixture.clips eq_refl) as (H1 & _ & H3 & _).
  split; [exact H1|exact H3].
Defined.

(* ===================================================================== *)
(** ** Where records go *)
(* ===================================================================== *)

Lemma frame_dest w w' :
  frame w' = frame w -> destinationChannels w' = destinationChannels w.
Proof. unfold frame. now intros [= _ _ _ -> _ _ _]. Qed.

Lemma routeLinks_sends `{Runtime} message (P : Action -> Prop) : forall toRoute routed w,
  (forall category urls destChannel now,
      In (category, urls) toRoute ->
      dc_get (destinationChannels w) category = Some destChannel ->
      P (ASend destChannel
           (embed_payload
              (buildLinkEmbed now category urls (msg_author message)
                 (Some (msg_channel message)) (Some (msg_createdAt message)))))) ->
  Forall P (acts (routeLinks message toRoute routed w)).
Proof.
  induction toRoute as [|[category urls] rest IH]; intros routed w HP;
    cbn [routeLinks].
  - constructor.
  - rewrite bind_gets.
    destruct (dc_get (destinationChannels w) category) as [destChannel|] eqn:Ed.
    + rewrite bind_gets, bind_buildLinkEmbed.
      destruct (embed_accepted _); [|constructor].
      rewrite acts_bind. apply Forall_app. split.
      * unfold chSend. rewrite acts_platform. constructor; [|constructor].
        apply HP; [now left|exact Ed].
      * destruct (out _); [|constructor|constructor].
        apply IH. intros c us d now Hin Hd. apply HP; [now right|].
        rewrite <- Hd. f_equal. symmetry. apply frame_dest.
        apply (preserves_chSend same_frame stable_same_frame).
    + apply IH. intros c us d now Hin Hd. apply HP; [now right|exact Hd].
Qed.

(** X13. In a room that is no destination room, the filter on the recorded ids
    removes no group; and when the cache agrees with the recorded ids, no
    record is ever sent to the room of the message, whatever fails. *)
Theorem live_records_leave_room `{Runtime} (message : Message) (w : World) :
  (isDestinationChannel w (ch_id (msg_channel message)) = false ->
   forall urls, toRouteOf w message urls = groupUrls urls)
  /\ (registry_consistent w ->
      Forall (record_leaves_room message) (acts (messageCreate message w))).
Proof.
  assert (Hids : isDestinationChannel w (ch_id (msg_channel message)) = false ->
                 forall category,
                   str_eqb (getDestinationId w category)
                     (ch_id (msg_channel message)) = false).
  { intros Hd category.
    destruct (str_eqb _ _) eqn:E; [|reflexivity].
    apply str_eqb_eq in E. rewrite <- E in Hd.
    now rewrite getDestinationId_isDestination in Hd. }
  split.
  - intros Hd urls. unfold toRouteOf.
    induction (groupUrls urls) as [|[category us] g IH]; [reflexivity|].
    cbn [List.filter]. rewrite (Hids Hd category). cbn [negb]. now rewrite IH.
  - intros Hcons. rewrite messageCreate_unfold.
    destruct (bot _); [constructor|].
    destruct (msg_guild message); [|constructor].
    destruct (isThread _); [constructor|].
    destruct (isDestinationChannel _ _) eqn:Hd.
    { apply traceP_at. unfold strictIntercept, msgDelete, threadSend, chSend.
      apply traceP_tryCatch; [|apply traceP_ret].
      apply traceP_bind; [now apply traceP_platform|intros _].
      apply traceP_bind.
      { apply traceP_getOrCreateLatestThread.
        intros [] Hs Hd'; try exact I; discriminate. }
      intros [t|]; trace_auto; simpl; auto; intros ?; congruence. }
    destruct (extractUrls _) as [urls|]; [|constructor].
    destruct (includes _ _).
    { apply traceP_at. unfold privateBlock, msgDelete, chSend.
      trace_auto; simpl; auto; intros ?; congruence. }
    destruct (toRouteOf w message urls) as [|e toRoute] eqn:Et; [constructor|].
    unfold routeAndNotify. rewrite acts_bind. apply Forall_app. split.
    + apply routeLinks_sends. intros category us d now _ Hdc _.
      rewrite <- (Hcons _ _ Hdc). intros E.
      specialize (Hids eq_refl category). rewrite E, str_eqb_refl in Hids.
      discriminate.
    + destruct (out _) as [routed| |]; [|constructor|constructor].
      apply traceP_at. unfold deleteAndNotify, msgDelete, chSend.
      trace_auto; simpl; auto; intros ?; congruence.
Qed.

Lemma live_records_leave_room_witness :
  toRouteOf Fixture.w0 Fixture.mixed [lit "https://youtu.be/abc"]
  = groupUrls [lit "https://youtu.be/abc"]
  /\ Forall (record_leaves_room Fixture.mixed)
       (acts (messageCreate Fixture.mixed Fixture.w0)).
Proof.
  destruct (live_records_leave_room Fixture.mixed Fixture.w0) as [H1 H2].
  split.
  - apply H1. reflexivity.
  - apply H2. intros [] c [= <-]; reflexivity.
Defined.

(* ===================================================================== *)
(** ** The rooms that the scanner reads *)
(* ===================================================================== *)

Lemma scope_backfillRoute `{Runtime} channel msg entries : forall moved movedThisMsg,
  traceP (scan_call channel) (backfillRoute channel msg entries moved movedThisMsg).
Proof.
  induction entries as [|[category urls] rest IH]; intros moved movedThisMsg;
    cbn [backfillRoute].
  - apply traceP_ret.
  - apply traceP_bind; [apply traceP_gets|]. intros [destChannel|]; [|apply IH].
    destruct (str_eqb _ _) eqn:E; [apply IH|].
    apply traceP_bind; [apply traceP_gets|]. intros now.
    apply traceP_buildLinkEmbed.
    apply traceP_bind; [|intros; apply IH].
    apply traceP_chSend. simpl. split.
    + constructor; [|constructor]. exists msg. now exists category, urls, now.
    + intros Heq. rewrite Heq, str_eqb_refl in E. discriminate.
Qed.

Lemma scope_scanPage `{Runtime} channel messages : forall moved,
  traceP (scan_call channel) (scanPage channel messages moved).
Proof.
  induction messages as [|msg rest IH]; intros moved; cbn [scanPage].
  - apply traceP_ret.
  - destruct (_ <? _)%Z; [apply traceP_ret|].
    destruct (bot _); [apply IH|].
    destruct (extractUrls _); [|apply IH].
    apply traceP_bind; [apply scope_backfillRoute|].
    intros [moved' movedThisMsg]. apply traceP_bind; [|intros _; apply IH].
    destruct movedThisMsg; [|apply traceP_ret].
    apply traceP_tryCatch; [|apply traceP_ret].
    now apply traceP_msgDelete.
Qed.

Lemma scope_scanLoop `{Runtime} channel fuel : forall lastId moved,
  traceP (scan_call channel) (scanLoop fuel channel lastId moved).
Proof.
  induction fuel as [|fuel IH]; intros lastId moved; cbn [scanLoop].
  - intros w. constructor.
  - apply traceP_bind.
    + apply traceP_tryCatch; [|apply traceP_ret].
      apply traceP_bind; [|intros; apply traceP_ret].
      apply traceP_fetchMessages. now split.
    + intros [[|m page]|]; try apply traceP_ret.
      apply traceP_bind; [apply scope_scanPage|].
      intros [reachedCutoff moved']. apply traceP_bind; [now apply traceP_emit|].
      intros _. destruct reachedCutoff; [apply traceP_ret|apply IH].
Qed.

Lemma scope_scanChannels `{Runtime} (Q : Channel -> Prop) channels : forall total,
  Forall Q channels ->
  traceP (fun a => exists channel,
            (Q channel
             /\ includes (default [] (ch_name channel)) private_marker = false)
            /\ scan_call channel a)
    (scanChannels channels total).
Proof.
  induction channels as [|channel rest IH]; intros total HQ; cbn [scanChannels].
  - apply traceP_ret.
  - inversion HQ as [|? ? Hc Hrest]; subst.
    apply traceP_bind; [|intros; now apply IH].
    unfold scanChannel. destruct (includes _ _) eqn:Ep; [apply traceP_ret|].
    apply traceP_bind; [apply traceP_gets|]. intros budget.
    eapply traceP_impl; [|apply scope_scanLoop].
    intros a Ha. exists channel. auto.
Qed.

(** X14. The scanner reads only text rooms of the guild that are no destination
    rooms, that it may read and manage and that are not private, a hundred
    messages at a time; a record goes to another room than the one where
    the message was found. *)
Theorem backfill_scope `{Runtime} (guild : jsstring) (w : World) :
  Forall (fun a => exists channel, scanned w guild channel /\ scan_call channel a)
    (acts (backfillGuild guild w)).
Proof.
  unfold backfillGuild. rewrite bind_gets.
  set (Q := fun ch => In ch (channels_of w guild)
                      /\ is_GuildText ch = true
                      /\ isDestinationChannel w (ch_id ch) = false
                      /\ ch_scannable ch = true).
  assert (HQ : Forall Q
                 (List.filter
                    (fun ch => is_GuildText ch
                               && negb (isDestinationChannel w (ch_id ch))
                               && ch_scannable ch)
                    (channels_of w guild))).
  { apply List.Forall_forall. intros ch Hin.
    apply filter_In in Hin as [Hin Hf].
    apply andb_true_iff in Hf as [Hf Hs]. apply andb_true_iff in Hf as [Ht Hd].
    apply negb_true_iff in Hd. unfold Q. auto. }
  pose proof (scope_scanChannels Q _ O HQ w) as Hall.
  revert Hall. apply List.Forall_impl.
  intros a (channel & ((Hin & Ht & Hd & Hs) & Hp) & Ha).
  exists channel. split; [|exact Ha]. repeat split; assumption.
Qed.

(* ===================================================================== *)
(** ** The order of the calls of the scanner *)
(* ===================================================================== *)

Lemma record_send_is_record channel message a :
  record_send_from channel message a -> is_record_send a = true.
Proof. destruct a; simpl; try tauto. now intros (e & -> & _). Qed.

Lemma record_sends_count channel message sends :
  Forall (record_send_from channel message) sends ->
  List.filter is_record_send sends = sends.
Proof.
  induction 1 as [|a l Ha _ IH]; [reflexivity|]. simpl.
  now rewrite (record_send_is_record _ _ _ Ha), IH.
Qed.

Lemma count_app (l1 l2 : list Action) :
  List.length (List.filter is_record_send (l1 ++ l2))
  = (List.length (List.filter is_record_send l1)
     + List.length (List.filter is_record_send l2))%nat.
Proof. now rewrite List.filter_app, List.length_app. Qed.

Lemma settled_app l1 l2 : settled l1 -> settled l2 -> settled (l1 ++ l2).
Proof.
  intros H1 H2. induction H1 as [| | |channel message sends rest Hne Hs _ IH];
    cbn [app]; try (constructor; assumption); [assumption|].
  rewrite <- app_assoc. cbn [app]. now apply settled_message with channel.
Qed.

Lemma interrupted_after l1 l2 : settled l1 -> interrupted l2 -> interrupted (l1 ++ l2).
Proof.
  intros H1 (done & pending & channel & message & -> & Hd & Hp).
  exists (l1 ++ done), pending, channel, message.
  split; [apply app_assoc|]. split; [now apply settled_app|]. auto.
Qed.

Lemma tidy_ret {A} (count : A -> nat) (a : A) : tidy count (count a) (ret a).
Proof. intros w. simpl. split; [constructor|lia]. Qed.

Lemma tidy_gets {A} base (f : World -> A) : tidy (fun _ => base) base (gets f).
Proof. intros w. simpl. split; [constructor|lia]. Qed.

Lemma tidy_sleep base ms : tidy (fun _ : unit => base) base (emit (ASleep ms)).
Proof. intros w. simpl. split; [repeat constructor|lia]. Qed.

Lemma tidy_bind {A B} (ca : A -> nat) (cb : B -> nat) base (m : M A)
    (f : A -> M B) :
  tidy ca base m -> (forall a, tidy cb (ca a) (f a)) -> tidy cb base (bind m f).
Proof.
  intros Hm Hf w. specialize (Hm w). rewrite out_bind, acts_bind.
  destruct (out (m w)) as [a| |]; [|now rewrite app_nil_r|exact I].
  destruct Hm as [Hs Hc]. specialize (Hf a (world (m w))).
  destruct (out (f a (world (m w)))) as [b| |]; [| |exact I].
  - destruct Hf as [Hs' Hc']. split; [now apply settled_app|].
    rewrite count_app. lia.
  - now apply interrupted_after.
Qed.

Lemma tidy_shift {A} (count : A -> nat) base k (m : M A) :
  tidy count base m -> tidy (fun a => (k + count a)%nat) (k + base)%nat m.
Proof.
  intros Hm w. specialize (Hm w). destruct (out (m w)); auto.
  destruct Hm as [Hs Hc]. split; [exact Hs|lia].
Qed.

Lemma fetch_caught channel limit before w :
  exists fetched w1,
    tryCatch (let* ms := fetchMessages channel limit before in ret (Some ms))
      (ret None) w
    = mkRes (Ok fetched) w1 [AFetch channel limit before].
Proof.
  unfold tryCatch, bind, fetchMessages, platform, ret.
  destruct (faults w) as [|[] fs]; simpl; eauto.
Qed.

Lemma delete_caught message w :
  exists w1,
    tryCatch (msgDelete message) (ret tt) w = mkRes (Ok tt) w1 [ADelete message].
Proof.
  unfold tryCatch, msgDelete, platform, ret.
  destruct (faults w) as [|[] fs]; simpl; eauto.
Qed.

(** The loop over the groups of one message: its calls are the records of
    the message, [movedInChannel] grows by their number, and
    [movedThisMsg] tells whether there is one. *)
Lemma backfillRoute_shape `{Runtime} channel msg entries : forall moved movedThisMsg w,
  Forall (record_send_from channel msg)
    (acts (backfillRoute channel msg entries moved movedThisMsg w))
  /\ match out (backfillRoute channel msg entries moved movedThisMsg w) with
     | Ok (n, f) =>
         n = (moved
              + List.length
                  (acts (backfillRoute channel msg entries moved movedThisMsg w)))%nat
         /\ (f = false ->
             movedThisMsg = false
             /\ acts (backfillRoute channel msg entries moved movedThisMsg w) = [])
         /\ (f = true ->
             movedThisMsg = true
             \/ acts (backfillRoute channel msg entries moved movedThisMsg w) <> [])
     | Throw => True
     | OutOfFuel => False
     end.
Proof.
  induction entries as [|[category urls] rest IH]; intros moved movedThisMsg w;
    cbn [backfillRoute].
  - simpl. split; [constructor|]. split; [lia|]. split; [now intros ->|].
    intros ->. now left.
  - rewrite bind_gets. destruct (dc_get _ _) as [destChannel|]; [|apply IH].
    destruct (str_eqb _ _); [apply IH|].
    rewrite bind_gets, bind_buildLinkEmbed.
    destruct (embed_accepted _); [|split; [constructor|exact I]].
    rewrite acts_bind, out_bind.
    match goal with |- context [chSend ?d ?p w] => set (X := chSend d p w) end.
    assert (HX : acts X = [ASend destChannel
                             (embed_payload
                                (buildLinkEmbed (clock w) category urls
                                   (msg_author msg) (Some channel)
                                   (Some (msg_createdAt msg))))])
      by apply acts_platform.
    assert (HF : out X <> OutOfFuel)
      by (apply finite_platform; intros; simpl; discriminate).
    assert (Hsend : record_send_from channel msg
                      (ASend destChannel
                         (embed_payload
                            (buildLinkEmbed (clock w) category urls
                               (msg_author msg) (Some channel)
                               (Some (msg_createdAt msg)))))).
    { simpl. eexists. split; [reflexivity|]. now exists category, urls, (clock w). }
    rewrite HX. destruct (out X) as [m| |]; [| |contradiction].
    + destruct (IH (S moved) true (world X)) as [Hs Ho].
      split; [now constructor|].
      destruct (out (backfillRoute _ _ _ _ _ _)) as [[n f]| |]; [| |exact Ho].
      * destruct Ho as (Hn & Hf0 & Hf1). cbn [app List.length].
        split; [lia|]. split; [|intros _; now right].
        intros Hf. destruct (Hf0 Hf) as [Hcontra _]. discriminate.
      * exact I.
    + cbn [app]. split; [repeat constructor; exact Hsend|exact I].
Qed.

Lemma tidy_scanPage `{Runtime} channel messages : forall moved,
  tidy snd moved (scanPage channel messages moved).
Proof.
  induction messages as [|msg rest IH]; intros moved; cbn [scanPage].
  - apply (tidy_ret snd (false, moved)).
  - destruct (_ <? _)%Z; [apply (tidy_ret snd (true, moved))|].
    destruct (bot _); [apply IH|].
    destruct (extractUrls _) as [urls|]; [|apply IH].
    intros w. rewrite out_bind, acts_bind.
    destruct (backfillRoute_shape channel msg (groupUrls urls) moved false w)
      as [Hs Ho].
    destruct (out (backfillRoute _ _ _ _ _ _)) as [[n f]| |]; [| |contradiction].
    + destruct Ho as (Hn & Hf0 & Hf1).
      set (sends := acts (backfillRoute channel msg (groupUrls urls) moved false w))
        in *.
      set (w1 := world (backfillRoute channel msg (groupUrls urls) moved false w)).
      destruct f.
      * destruct (Hf1 eq_refl) as [Hcontra|Hne]; [discriminate|].
        destruct (delete_caught msg w1) as (w2 & Ed).
        rewrite (bind_known _ _ _ _ _ _ Ed). cbn [out acts world].
        specialize (IH n w2).
        destruct (out (scanPage channel rest n w2)) as [a| |]; [| |exact I].
        -- destruct IH as [Hs' Hc']. split.
           ++ now apply settled_message with channel.
           ++ rewrite count_app, (record_sends_count _ _ _ Hs). cbn [app].
              cbn [List.filter is_record_send]. lia.
        -- apply (interrupted_after (sends ++ [ADelete msg])) in IH.
           ++ now rewrite <- app_assoc in IH.
           ++ rewrite <- (app_nil_r [ADelete msg]), app_assoc, app_nil_r.
              apply settled_message with channel; auto. constructor.
      * destruct (Hf0 eq_refl) as [_ Hnil]. rewrite Hnil in *.
        rewrite bind_ret. cbn [app List.length] in *.
        replace n with moved by lia. apply IH.
    + rewrite app_nil_r.
      exists [], (acts (backfillRoute channel msg (groupUrls urls) moved false w)),
        channel, msg.
      split; [reflexivity|]. split; [constructor|exact Hs].
Qed.

Lemma tidy_scanLoop `{Runtime} channel fuel : forall lastId moved,
  tidy (fun n => n) moved (scanLoop fuel channel lastId moved).
Proof.
  induction fuel as [|fuel IH]; intros lastId moved; cbn [scanLoop].
  - intros w. exact I.
  - intros w. destruct (fetch_caught channel 100 lastId w) as (fetched & w1 & Ef).
    rewrite (bind_known _ _ _ _ _ _ Ef).
    assert (Hrest : tidy (fun n => n) moved
              (match fetched with
               | None => ret moved
               | Some [] => ret moved
               | Some messages =>
                   let* result := scanPage channel messages moved in
                   let '(reachedCutoff, moved') := result in
                   emit (ASleep 1000);;
                   if reachedCutoff then ret moved'
                   else scanLoop fuel channel (last_id messages) moved'
               end)).
    { destruct fetched as [[|m page]|];
        try apply (tidy_ret (fun n => n) moved).
      apply (tidy_bind snd); [apply tidy_scanPage|].
      intros [reachedCutoff moved']. cbn [snd].
      apply (tidy_bind (fun _ => moved')); [apply tidy_sleep|]. intros _.
      destruct reachedCutoff; [apply (tidy_ret (fun n => n) moved')|apply IH]. }
    specialize (Hrest w1). cbn [out acts world app].
    destruct (out _) as [a| |]; [| |exact I].
    + destruct Hrest as [Hs Hc]. split; [now constructor|].
      cbn [List.filter is_record_send]. exact Hc.
    + apply (interrupted_after [AFetch channel 100 lastId]) in Hrest;
        [exact Hrest|repeat constructor].
Qed.

Lemma tidy_scanChannels `{Runtime} channels : forall total,
  tidy (fun n => n) total (scanChannels channels total).
Proof.
  induction channels as [|channel rest IH]; intros total; cbn [scanChannels].
  - apply (tidy_ret (fun n => n) total).
  - apply (tidy_bind (fun n => (total + n)%nat)); [|intros; apply IH].
    assert (Hone : tidy (fun n => n) O (scanChannel channel));
      [|intros w; generalize (tidy_shift (fun n => n) O total _ Hone w);
        destruct (out _); auto; intros [Hs Hc]; split; [exact Hs|lia]].
    unfold scanChannel. destruct (includes _ _); [apply (tidy_ret (fun n => n) O)|].
    apply (tidy_bind (fun _ => O)); [apply tidy_gets|]. intros budget.
    apply tidy_scanLoop.
Qed.

Lemma tidy_backfillGuild `{Runtime} guild : tidy (fun n => n) O (backfillGuild guild).
Proof.
  unfold backfillGuild. apply (tidy_bind (fun _ => O)); [apply tidy_gets|].
  intros textChannels. apply tidy_scanChannels.
Qed.

(** X15. A message is deleted by the scanner right after its records were
    sent, one at least, and every record of a finished scan is followed by
    the deletion of its message. A scan is cut short only while the
    records of a message are being made, by a rejected send or by a record
    that the builder refuses: then the records of that message that were
    sent, if any, are the last calls. *)
Theorem backfill_relocates_then_deletes `{Runtime} (guild : jsstring) (w : World) :
  match out (backfillGuild guild w) with
  | Ok _ => settled (acts (backfillGuild guild w))
  | _ => interrupted (acts (backfillGuild guild w))
  end.
Proof.
  pose proof (tidy_backfillGuild guild w) as Ht.
  pose proof (backfillGuild_terminates guild w) as Hfin.
  destruct (out (backfillGuild guild w)); [apply Ht|exact Ht|contradiction].
Qed.

(** X16. The number that the scanner reports is the number of records that it
    sent. *)
Theorem backfill_total `{Runtime} (guild : jsstring) (w : World) (totalMoved : nat) :
  out (backfillGuild guild w) = Ok totalMoved ->
  totalMoved
  = List.length (List.filter is_record_send (acts (backfillGuild guild w))).
Proof.
  intros Hout. pose proof (tidy_backfillGuild guild w) as Ht.
  rewrite Hout in Ht. apply Ht.
Qed.

Lemma backfill_total_witness :
  out (backfillGuild Fixture.home Fixture.w0) = Ok 2%nat
  /\ 2%nat
     = List.length
         (List.filter is_record_send
            (acts (backfillGuild Fixture.home Fixture.w0))).
Proof.
  split; [vm_compute; reflexivity|].
  apply (backfill_total Fixture.home Fixture.w0 2). vm_compute. reflexivity.
Defined.

(* ===================================================================== *)
(** ** The name of a thread opened on a record *)
(* ===================================================================== *)

Lemma case_eqv_no_space s t :
  case_eqv s t -> Forall (fun c => is_space c = false) s ->
  Forall (fun c => is_space c = false) t.
Proof.
  induction 1 as [|a b s t Hab _ IH]; intros Hs; [constructor|].
  inversion Hs as [|? ? Ha Hs']; subst. constructor; [|now apply IH].
  now rewrite <- (is_space_canon _ _ Hab).
Qed.

(** An extracted URL is not empty and holds no white space. *)
Lemma extracted_no_space text urls u :
  extractUrls text = Some urls -> In u urls ->
  u <> [] /\ Forall (fun c => is_space c = false) u.
Proof.
  intros Hm Hin.
  destruct (lang_URL u (str_match_lang _ _ _ _ Hm Hin))
    as (scheme & body & c & -> & Hs & Hb).
  split.
  - destruct scheme; [destruct body|]; discriminate.
  - apply Forall_app. split.
    + destruct Hs as [Hs|Hs]; apply (case_eqv_no_space _ _ Hs);
        repeat constructor.
    + revert Hb. apply List.Forall_impl. intros x Hx.
      now apply url_char_spec in Hx.
Qed.

Lemma first_line_prefix u s :
  Forall (fun c => is_space c = false) u -> first_line (u ++ 10 :: s) = u.
Proof.
  induction 1 as [|c u Hc _ IH]; cbn [app first_line].
  - reflexivity.
  - destruct (N.eqb_spec c 10) as [->|_]; [discriminate|]. now rewrite IH.
Qed.

Lemma trim_start_id s :
  Forall (fun c => is_space c = false) s -> trim_start s = s.
Proof. destruct 1 as [|c s Hc _]; simpl; [reflexivity|now rewrite Hc]. Qed.

Lemma trim_id s : Forall (fun c => is_space c = false) s -> trim s = s.
Proof.
  intros Hs. unfold trim. rewrite (trim_start_id s Hs).
  rewrite trim_start_id; [apply rev_involutive|].
  apply List.Forall_forall. intros x Hx. apply in_rev in Hx.
  revert x Hx. now apply List.Forall_forall.
Qed.

(** X17. A record lists the links of its group first, one per line; so the
    thread opened on a record is named after the host and the path of the
    first link of the record, cut to a hundred code units, or after the
    title of the record when the link does not parse. In both cases the
    name is within the limit of a hundred code units. *)
Theorem thread_name_of_record `{Runtime} (latestEmbed : Message)
    (text : jsstring) (allUrls : list jsstring) (now : Z) (category : Category)
    (u : jsstring) (rest : list jsstring) (user : User)
    (sourceChannel : option Channel) (timestamp : option Z)
    (more : list Embed) :
  extractUrls text = Some allUrls ->
  In u allUrls ->
  msg_embeds latestEmbed
  = buildLinkEmbed now category (u :: rest) user sourceChannel timestamp :: more ->
  threadNameFor latestEmbed
  = match url_parse u with
    | Some (hostname, pathname) =>
        substring0 100 (speech_balloon ++ lit " " ++ hostname ++ pathname)
    | None =>
        speech_balloon ++ lit " " ++ cfg_icon (CATEGORIES category) ++ lit " "
        ++ cfg_title (CATEGORIES category)
    end
  /\ (List.length (threadNameFor latestEmbed) <= 100)%nat.
Proof.
  intros Hm Hin He.
  destruct (extracted_no_space _ _ _ Hm Hin) as [Hne Hns].
  assert (Hname :
    threadNameFor latestEmbed
    = match url_parse u with
      | Some (hostname, pathname) =>
          substring0 100 (speech_balloon ++ lit " " ++ hostname ++ pathname)
      | None =>
          speech_balloon ++ lit " " ++ cfg_icon (CATEGORIES category) ++ lit " "
          ++ cfg_title (CATEGORIES category)
      end).
  { unfold threadNameFor. rewrite He. cbn [hd_error buildLinkEmbed e_title
      e_description option_map].
    assert (Hline : forall tail,
              first_line (join [10] (u :: rest) ++ [10; 10] ++ tail) = u).
    { intros tail. destruct rest as [|v rest'].
      - cbn [join app]. now apply first_line_prefix.
      - change (join [10] (u :: v :: rest'))
          with (u ++ [10] ++ join [10] (v :: rest')).
        rewrite <- !app_assoc. cbn [app]. now apply first_line_prefix. }
    rewrite Hline.
    destruct u as [|c u']; [congruence|]. cbn [or_else].
    rewrite (trim_id _ Hns).
    destruct (url_parse (c :: u')) as [[hostname pathname]|]; [reflexivity|].
    destruct category; vm_compute; reflexivity. }
  split; [exact Hname|]. rewrite Hname.
  destruct (url_parse u) as [[hostname pathname]|].
  - unfold substring0. apply List.firstn_le_length.
  - destruct category; vm_compute; lia.
Qed.

Lemma thread_name_of_record_witness :
  threadNameFor Fixture.record1
  = substring0 100 (speech_balloon ++ lit " " ++ lit "youtu.be" ++ lit "/abc123")
  /\ (List.length (threadNameFor Fixture.record1) <= 100)%nat.
Proof.
  destruct (thread_name_of_record Fixture.record1 (msg_content Fixture.mixed)
              [lit "https://youtu.be/abc123";
               lit "https://store.steampowered.com/app/999"]
              0 youtube (lit "https://youtu.be/abc123") [] Fixture.alice
              (Some Fixture.general) (Some 1770000000000%Z) []) as [W1 W2].
  - vm_compute. reflexivity.
  - left. reflexivity.
  - reflexivity.
  - split; [exact W1|exact W2].
Defined.

(* ===================================================================== *)
(** ** The registry over the whole program *)
(* ===================================================================== *)

Lemma keeps_bind {A B} (P : World -> Prop) (m : M A) (f : A -> M B) :
  keeps P m -> (forall a, keeps P (f a)) -> keeps P (bind m f).
Proof.
  intros Hm Hf w Hw. rewrite world_bind.
  destruct (out (m w)); try now apply Hm. apply Hf, Hm, Hw.
Qed.

Lemma keeps_ret {A} (P : World -> Prop) (a : A) : keeps P (ret a).
Proof. now intros w Hw. Qed.

(** What depends on the registry alone is kept by whatever leaves the
    registry alone. *)
Lemma keeps_of_frame {A} (P : World -> Prop) (m : M A) :
  (forall w w', frame w' = frame w -> P w -> P w') ->
  preserves same_frame m -> keeps P m.
Proof. intros HP Hm w Hw. exact (HP _ _ (Hm w) Hw). Qed.

Lemma consistent_frame w w' :
  frame w' = frame w -> registry_consistent w -> registry_consistent w'.
Proof.
  unfold frame. intros [= Hy Hs Hl Hd _ _ _] Hc category c.
  rewrite Hd. intros Hget. apply Hc in Hget.
  destruct category; simpl in *; congruence.
Qed.

Lemma bound_frame w w' : frame w' = frame w -> all_bound w -> all_bound w'.
Proof.
  unfold frame. intros [= Hy Hs Hl Hd _ _ _] Hb category.
  destruct (Hb category) as (c & Hget & Hid). exists c. rewrite Hd.
  split; [exact Hget|]. destruct category; simpl in *; congruence.
Qed.

(** A resolution ends with a room, or rejects and leaves the state as it
    was but for the faults consumed. *)
Lemma ensure_outcome guild category w :
  (exists c, out (ensureChannel guild category w) = Ok c)
  \/ (exists f, world (ensureChannel guild category w) = set_faults f w).
Proof.
  pose proof (ensureChannel_run guild category w) as Hrun.
  destruct (configured_of w guild category) as [c0|].
  - destruct Hrun as (f & t & ->). left. now exists c0.
  - destruct (List.find _ _) as [c0|].
    + destruct Hrun as (f & t & ->). left. now exists c0.
    + cbv zeta in Hrun. destruct Hrun as (f & t & [-> | ->]).
      * right. now exists f.
      * left. eexists. reflexivity.
Qed.

Lemma ensure_keeps_consistent guild category :
  keeps registry_consistent (ensureChannel guild category).
Proof.
  intros w Hcons. destruct (ensure_outcome guild category w) as [[c Hout]|[f ->]].
  - destruct (ensure_binding guild category w c Hout) as (Hid & Hdc & Hothers).
    intros category' c' Hc'.
    destruct (Category_eqb category' category) eqn:Ecat.
    + apply Category_eqb_eq in Ecat. subst category'. congruence.
    + assert (Hne : category' <> category)
        by (intros ->; now rewrite Category_eqb_refl in Ecat).
      destruct (Hothers _ Hne) as [Hg Hd]. rewrite Hg. apply Hcons.
      now rewrite <- Hd.
  - exact Hcons.
Qed.

Lemma ensure_keeps_bound guild category :
  keeps all_bound (ensureChannel guild category).
Proof.
  intros w Hb. destruct (ensure_outcome guild category w) as [[c Hout]|[f ->]].
  - destruct (ensure_binding guild category w c Hout) as (Hid & Hdc & Hothers).
    intros category'.
    destruct (Category_eqb category' category) eqn:Ecat.
    + apply Category_eqb_eq in Ecat. subst category'. now exists c.
    + assert (Hne : category' <> category)
        by (intros ->; now rewrite Category_eqb_refl in Ecat).
      destruct (Hothers _ Hne) as [Hg Hd]. destruct (Hb category') as (c' & H1 & H2).
      exists c'. split; congruence.
  - exact Hb.
Qed.

Lemma keeps_ready `{Runtime} (P : World -> Prop) guilds :
  (forall guild category, keeps P (ensureChannel guild category)) ->
  (forall w w', frame w' = frame w -> P w -> P w') ->
  keeps P (ready guilds).
Proof.
  intros He Hf. induction guilds as [|guild rest IH]; cbn [ready].
  - apply keeps_ret.
  - repeat (apply keeps_bind; [apply He|intros _]).
    apply keeps_bind; [|intros _; exact IH].
    apply keeps_of_frame; [exact Hf|].
    apply (preserves_backfillGuild same_frame stable_same_frame).
Qed.

(** X18. The agreement of the cache with the recorded ids is an invariant of
    the program: the start-up sequence, over any guilds, and the handler
    of a message keep it, whatever platform call fails. *)
Theorem registry_stays_consistent `{Runtime} (w : World) :
  registry_consistent w ->
  (forall guilds, registry_consistent (world (ready guilds w)))
  /\ (forall message, registry_consistent (world (messageCreate message w))).
Proof.
  intros Hcons. split.
  - intros guilds.
    apply (keeps_ready registry_consistent guilds); auto.
    + intros. apply ensure_keeps_consistent.
    + apply consistent_frame.
  - intros message. apply (consistent_frame w); [|exact Hcons].
    apply (preserves_messageCreate same_frame stable_same_frame message w).
Qed.

Lemma registry_stays_consistent_witness :
  registry_consistent (world (ready [Fixture.home; Fixture.away] Fixture.w_pinned))
  /\ registry_consistent (world (messageCreate Fixture.mixed Fixture.w_pinned)).
Proof.
  destruct (registry_stays_consistent Fixture.w_pinned) as [H1 H2].
  - intros [] c; discriminate.
  - split; [apply H1|apply H2].
Defined.

Lemma calm_modify f : (forall w, faults (f w) = faults w) -> calm (modify f).
Proof. intros Hf w Hw. simpl. split; [now rewrite Hf|discriminate]. Qed.

Lemma calm_enforceStrictPermissions ch : calm (enforceStrictPermissions ch).
Proof.
  unfold enforceStrictPermissions, permEdit.
  apply calm_tryCatch; [|apply calm_ret].
  apply (preserves_bind still_quiet stable_still_quiet);
    [|intros _];
    apply (preserves_platform still_quiet stable_still_quiet); now intros w.
Qed.

Lemma calm_ensureChannel guild category : calm (ensureChannel guild category).
Proof.
  assert (Hc : forall c, calm (modify (cacheDestination category c)))
    by (intros; now apply calm_modify).
  assert (Hu : forall id, calm (modify (updateEnvId category id)))
    by (intros; apply calm_modify; now destruct category).
  assert (He : forall c, calm (enforceStrictPermissions c;; ret c)).
  { intros c. apply calm_bind; [apply calm_enforceStrictPermissions|].
    intros _. apply calm_ret. }
  unfold ensureChannel, configuredChannel.
  apply calm_bind.
  { apply calm_bind; [apply calm_gets|]. intros envId.
    destruct (_ <? _)%nat; [apply calm_gets|apply calm_ret]. }
  intros [existing|].
  - apply calm_bind; [apply Hc|intros _; apply He].
  - apply calm_bind; [apply calm_gets|]. intros [found|].
    + apply calm_bind; [apply Hc|intros _].
      apply calm_bind; [apply Hu|intros _; apply He].
    + apply calm_bind.
      { unfold createChannel. apply calm_platform. intros w.
        split; [discriminate|reflexivity]. }
      intros created. apply calm_bind; [apply Hc|intros _].
      apply calm_bind; [apply Hu|intros _; apply He].
Qed.

Lemma ensureChannel_history guild category w :
  history (world (ensureChannel guild category w)) = history w.
Proof.
  pose proof (ensureChannel_run guild category w) as Hrun.
  destruct (configured_of w guild category) as [c0|].
  - now destruct Hrun as (f & t & ->).
  - destruct (List.find _ _) as [c0|].
    + destruct Hrun as (f & t & ->). now destruct category.
    + cbv zeta in Hrun. destruct Hrun as (f & t & [-> | ->]);
        [reflexivity|now destruct category].
Qed.

Lemma steady_ensureChannel `{Runtime} S guild category :
  steady S (ensureChannel guild category).
Proof.
  intros w Hq Hw. destruct (calm_ensureChannel guild category w Hq) as [Hq' Hnt].
  split; [exact Hq'|]. split; [|exact Hnt].
  intros channel m HS Hin. apply (Hw channel m HS).
  unfold messages_of in *. now rewrite ensureChannel_history in Hin.
Qed.

Lemma steady_backfillGuild `{Runtime} guild :
  steady (fun _ => True) (backfillGuild guild).
Proof.
  unfold backfillGuild. apply steady_bind; [apply steady_gets|].
  intros textChannels. apply steady_scanChannels.
  apply List.Forall_forall. auto.
Qed.

Lemma steady_ready `{Runtime} guilds : steady (fun _ => True) (ready guilds).
Proof.
  induction guilds as [|guild rest IH]; cbn [ready]; [apply steady_ret|].
  repeat (apply steady_bind; [apply steady_ensureChannel|intros _]).
  apply steady_bind; [apply steady_backfillGuild|intros _; exact IH].
Qed.

Lemma finite_ready `{Runtime} guilds : finite (ready guilds).
Proof.
  induction guilds as [|guild rest IH]; cbn [ready]; [apply finite_ret|].
  repeat (apply finite_bind; [apply finite_ensureChannel|intros _]).
  apply finite_bind; [|intros _; exact IH].
  intros w. apply backfillGuild_terminates.
Qed.

(** X19. A start-up that completes leaves every category with a destination
    room that the cache and the recorded ids agree on; the bindings made
    for one category survive the resolutions of the others and the scan.
    The start-up completes when no platform call fails and the builder
    accepts the records of the messages at hand. *)
Theorem ready_binds_every_category `{Runtime} (guild : jsstring) (rest : list jsstring)
    (w : World) :
  (out (ready (guild :: rest) w) = Ok tt ->
   forall category, exists c,
     dc_get (destinationChannels (world (ready (guild :: rest) w))) category
     = Some c
     /\ getDestinationId (world (ready (guild :: rest) w)) category = ch_id c
     /\ isDestinationChannel (world (ready (guild :: rest) w)) (ch_id c) = true)
  /\ (faults w = [] ->
      scan_fits (fun _ => True) w ->
      out (ready (guild :: rest) w) = Ok tt).
Proof.
  split.
  - intros Hout.
    assert (Hb : all_bound (world (ready (guild :: rest) w))).
    { revert Hout. cbn [ready].
      destruct (ensureChannel guild youtube w) as [o1 w1 t1] eqn:E1.
      destruct o1 as [c1| |]; [|unfold bind; rewrite E1; discriminate..].
      rewrite (bind_known _ _ _ _ _ _ E1). cbn [out world].
      destruct (ensureChannel guild steam w1) as [o2 w2 t2] eqn:E2.
      destruct o2 as [c2| |]; [|unfold bind; rewrite E2; discriminate..].
      rewrite (bind_known _ _ _ _ _ _ E2). cbn [out world].
      destruct (ensureChannel guild other w2) as [o3 w3 t3] eqn:E3.
      destruct o3 as [c3| |]; [|unfold bind; rewrite E3; discriminate..].
      rewrite (bind_known _ _ _ _ _ _ E3). cbn [out world].
      intros _.
      assert (H1 : out (ensureChannel guild youtube w) = Ok c1) by now rewrite E1.
      assert (H2 : out (ensureChannel guild steam w1) = Ok c2) by now rewrite E2.
      assert (H3 : out (ensureChannel guild other w2) = Ok c3) by now rewrite E3.
      apply ensure_binding in H1 as (Y1 & Y2 & _).
      apply ensure_binding in H2 as (S1 & S2 & S3).
      apply ensure_binding in H3 as (O1 & O2 & O3).
      rewrite E1 in Y1, Y2. rewrite E2 in S1, S2, S3. rewrite E3 in O1, O2, O3.
      cbn [world] in *.
      assert (Hb3 : all_bound w3).
      { intros [].
        - exists c1. destruct (O3 youtube) as [G D]; [discriminate|].
          destruct (S3 youtube) as [G' D']; [discriminate|].
          split; congruence.
        - exists c2. destruct (O3 steam) as [G D]; [discriminate|].
          split; congruence.
        - exists c3. auto. }
      apply (keeps_bind all_bound (backfillGuild guild) (fun _ => ready rest));
        [| |exact Hb3].
      + apply keeps_of_frame; [apply bound_frame|].
        apply (preserves_backfillGuild same_frame stable_same_frame).
      + intros _. apply keeps_ready; [intros; apply ensure_keeps_bound|].
        apply bound_frame. }
    intros category. destruct (Hb category) as (c & Hd & Hid).
    exists c. split; [exact Hd|]. split; [exact Hid|].
    rewrite <- Hid. apply getDestinationId_isDestination.
  - intros Hf Hfit.
    destruct (steady_ready (guild :: rest) w Hf Hfit) as (_ & _ & Hnt).
    pose proof (finite_ready (guild :: rest) w) as Hfin.
    destruct (out (ready (guild :: rest) w)) as [[]| |];
      [reflexivity|contradiction|contradiction].
Qed.

Lemma ready_binds_every_category_witness :
  out (ready [Fixture.home] Fixture.w_pinned) = Ok tt
  /\ exists c,
       dc_get (destinationChannels (world (ready [Fixture.home] Fixture.w_pinned)))
         steam = Some c
       /\ getDestinationId (world (ready [Fixture.home] Fixture.w_pinned)) steam
          = ch_id c
       /\ isDestinationChannel (world (ready [Fixture.home] Fixture.w_pinned))
            (ch_id c) = true.
Proof.
  destruct (ready_binds_every_category Fixture.home [] Fixture.w_pinned)
    as [Hb Hok].
  assert (Hfit : scan_fits (fun _ => True) Fixture.w_pinned)
    by (intros channel m _ Hin; destruct Hin).
  split; [apply Hok; [reflexivity|exact Hfit]|].
  apply Hb. apply Hok; [reflexivity|exact Hfit].
Defined.

(* ===================================================================== *)
(** ** Patterns and substrings *)
(* ===================================================================== *)

(** [r.test(s)] holds exactly when some substring of [s] is a string of
    the pattern. *)
Lemma test_iff_lang r s :
  test r s = true <-> exists pre m tail, s = pre ++ m ++ tail /\ lang r m.
Proof.
  split.
  - induction s as [|c s IH]; cbn [test].
    + destruct (exec_at r []) as [rest|] eqn:E; [|discriminate]. intros _.
      destruct (exec_at_sound _ _ _ E) as (m & Hs & L). now exists [], m, rest.
    + destruct (exec_at r (c :: s)) as [rest|] eqn:E.
      * intros _. destruct (exec_at_sound _ _ _ E) as (m & Hs & L).
        now exists [], m, rest.
      * intros Ht. destruct (IH Ht) as (pre & m & tail & -> & L).
        now exists (c :: pre), m, tail.
  - intros (pre & m & tail & -> & L). apply test_app_intro.
    unfold exec_at. now apply rmatch_complete.
Qed.

(** X20. The classifier looks for the patterns anywhere in its argument: a
    string is [youtube] exactly when one of its substrings is a string of
    the YouTube pattern, [steam] exactly when none is and one is a string of
    the Steam pattern, and [other] exactly when no substring is a string of
    either. *)
Theorem categorizeUrl_by_substring (url : jsstring) :
  let holds r := exists pre m tail, url = pre ++ m ++ tail /\ lang r m in
  (categorizeUrl url = youtube <-> holds YOUTUBE_REGEX)
  /\ (categorizeUrl url = steam <-> ~ holds YOUTUBE_REGEX /\ holds STEAM_REGEX)
  /\ (categorizeUrl url = other <-> ~ holds YOUTUBE_REGEX /\ ~ holds STEAM_REGEX).
Proof.
  cbv zeta. rewrite <- !test_iff_lang. unfold categorizeUrl.
  destruct (test YOUTUBE_REGEX url), (test STEAM_REGEX url);
    intuition (discriminate || congruence).
Qed.

Lemma categorizeUrl_youtube_hosts_witness :
  categorizeUrl (lit "see " ++ lit "HTTP://WWW.YouTube.com" ++ lit ".example.org/x")
  = youtube.
Proof.
  apply (categorizeUrl_youtube_hosts (lit "see ") (lit "HTTP://WWW.YouTube.com")
           (lit ".example.org/x") "http://" "www." "youtube.com").
  - left. reflexivity.
  - right. left. reflexivity.
  - left. reflexivity.
  - unfold case_eqv. repeat constructor.
Defined.

Lemma starts_with_iff t : forall s,
  starts_with t s = true <-> exists post, s = t ++ post.
Proof.
  induction t as [|a t IH]; intros s; cbn [starts_with].
  - split; [intros _; now exists s|reflexivity].
  - destruct s as [|b s].
    + split; [discriminate|]. intros (post & E). discriminate.
    + rewrite andb_true_iff, N.eqb_eq, IH. split.
      * intros [-> (post & ->)]. now exists post.
      * intros (post & [= -> ->]). split; [reflexivity|now exists post].
Qed.

Lemma includes_iff t : forall s,
  includes s t = true <-> exists pre post, s = pre ++ t ++ post.
Proof.
  induction s as [|c s IH]; cbn [includes]; rewrite orb_true_iff, starts_with_iff.
  - split.
    + intros [(post & E)|E]; [|discriminate]. now exists [], post.
    + intros (pre & post & E). left.
      destruct pre; [now exists post|discriminate].
  - rewrite IH. split.
    + intros [(post & E)|(pre & post & E)].
      * now exists [], post.
      * exists (c :: pre), post. now rewrite E.
    + intros (pre & post & E). destruct pre as [|c' pre].
      * left. now exists post.
      * right. injection E as -> ->. now exists pre, post.
Qed.

(** X22. A room is private when the marker occurs anywhere in its name; the
    scanner passes over such a room without a call. *)
Theorem private_marker_anywhere `{Runtime} (channel : Channel) :
  (includes (default [] (ch_name channel)) private_marker = true
   <-> exists pre post, ch_name channel = Some (pre ++ private_marker ++ post))
  /\ (forall pre post w,
        ch_name channel = Some (pre ++ private_marker ++ post) ->
        scanChannel channel w = mkRes (Ok O) w []).
Proof.
  split.
  - rewrite includes_iff. destruct (ch_name channel) as [name|].
    + split; intros (pre & post & E); exists pre, post; simpl in *; congruence.
    + split; intros (pre & post & E); [|discriminate].
      destruct pre; discriminate.
  - intros pre post w Hn. unfold scanChannel.
    assert (Hi : includes (default [] (ch_name channel)) private_marker = true).
    { apply includes_iff. exists pre, post. now rewrite Hn. }
    now rewrite Hi.
Qed.

Lemma private_marker_anywhere_witness :
  scanChannel Fixture.lounge Fixture.w0 = mkRes (Ok O) Fixture.w0 [].
Proof.
  apply (proj2 (private_marker_anywhere Fixture.lounge) (lit "lounge") []).
  reflexivity.
Defined.

(* ===================================================================== *)
(** ** Rejected calls in a destination room *)
(* ===================================================================== *)

(** X23. When the deletion is rejected in a destination room, the handler
    stops there and returns normally: the message stays where it is,
    nothing is posted in the thread and no notice is sent. *)
Theorem strict_room_failed_deletion `{Runtime} (message : Message) (w : World)
    (fs : list bool) :
  bot (msg_author message) = false ->
  msg_guild message <> None ->
  isThread (msg_channel message) = false ->
  isDestinationChannel w (ch_id (msg_channel message)) = true ->
  faults w = true :: fs ->
  messageCreate message w = mkRes (Ok tt) (set_faults fs w) [ADelete message].
Proof.
  intros Hbot Hg Ht Hd Hf.
  rewrite messageCreate_unfold, Hbot, Ht, Hd.
  destruct (msg_guild message); [|congruence].
  unfold tryCatch, strictIntercept, bind, msgDelete.
  rewrite (platform_reject _ _ _ _ Hf). reflexivity.
Qed.

Lemma strict_room_failed_deletion_witness :
  messageCreate Fixture.placed (set_faults [true] Fixture.w0)
  = mkRes (Ok tt) (set_faults [] (set_faults [true] Fixture.w0))
      [ADelete Fixture.placed].
Proof.
  apply (strict_room_failed_deletion Fixture.placed
           (set_faults [true] Fixture.w0) []); try reflexivity.
  discriminate.
Defined.

(* ===================================================================== *)
(** ** Rejected calls in the search for the thread *)
(* ===================================================================== *)




(* ===================================================================== *)
(** ** What the handler never does *)
(* ===================================================================== *)

Lemma handler_routeLinks `{Runtime} message toRoute : forall routed,
  traceP (handler_call message) (routeLinks message toRoute routed).
Proof.
  induction toRoute as [|[category urls] rest IH]; intros routed;
    cbn [routeLinks].
  - apply traceP_ret.
  - apply traceP_bind; [apply traceP_gets|]. intros [destChannel|]; [|apply IH].
    apply traceP_bind; [apply traceP_gets|]. intros now.
    apply traceP_buildLinkEmbed.
    apply traceP_bind; [|intros; apply IH].
    apply traceP_chSend. simpl. split; [|reflexivity].
    constructor; [|constructor]. now exists category, urls, now.
Qed.

(** X25. Whatever fails, the handler of a message deletes no message but that
    one, reads nothing but the fifty most recent messages of its room,
    sends plain text to that room only and records of that message only,
    posts in a thread nothing but the repost of the message, and never
    creates a room, edits permissions or pauses. *)
Theorem handler_calls `{Runtime} (message : Message) (w : World) :
  Forall (handler_call message) (acts (messageCreate message w)).
Proof.
  rewrite messageCreate_unfold.
  destruct (bot _); [constructor|].
  destruct (msg_guild message); [|constructor].
  destruct (isThread _); [constructor|].
  destruct (isDestinationChannel _ _).
  { apply traceP_at. unfold strictIntercept, getOrCreateLatestThread,
      existingThreadOf, msgDelete, fetchMessages, threadFetch, setArchived,
      startThread, threadSend, chSend.
    trace_auto; simpl; auto. }
  destruct (extractUrls _) as [urls|]; [|constructor].
  destruct (includes _ _).
  { apply traceP_at. unfold privateBlock, msgDelete, chSend.
    trace_auto; simpl; auto. }
  destruct (toRouteOf w message urls) as [|e toRoute]; [constructor|].
  apply traceP_at. unfold routeAndNotify.
  apply traceP_bind; [apply handler_routeLinks|]. intros routed.
  unfold deleteAndNotify, msgDelete, chSend.
  trace_auto; simpl; auto.
Qed.

(* ===================================================================== *)
(** ** Records that the builder refuses *)
(* ===================================================================== *)

Lemma traceP_buildLinkEmbed_accepted `{Runtime} {B} P now category urls user
    sourceChannel timestamp (k : Embed -> M B) :
  (embed_accepted
     (buildLinkEmbed now category urls user sourceChannel timestamp) = true ->
   traceP P (k (buildLinkEmbed now category urls user sourceChannel timestamp))) ->
  traceP P
    (bind (buildLinkEmbed_call now category urls user sourceChannel timestamp) k).
Proof.
  intros Hk w. rewrite bind_buildLinkEmbed.
  destruct (embed_accepted _); [now apply Hk|constructor].
Qed.

Lemma limit_routeLinks `{Runtime} message toRoute : forall routed,
  traceP sends_within_limit (routeLinks message toRoute routed).
Proof.
  induction toRoute as [|[category urls] rest IH]; intros routed;
    cbn [routeLinks].
  - apply traceP_ret.
  - apply traceP_bind; [apply traceP_gets|]. intros [destChannel|]; [|apply IH].
    apply traceP_bind; [apply traceP_gets|]. intros t.
    apply traceP_buildLinkEmbed_accepted. intros Ha.
    apply traceP_bind; [|intros; apply IH].
    apply traceP_chSend. simpl. constructor; [|constructor].
    now apply description_limit.
Qed.

Lemma limit_backfillRoute `{Runtime} channel msg entries : forall moved flag,
  traceP sends_within_limit (backfillRoute channel msg entries moved flag).
Proof.
  induction entries as [|[category urls] rest IH]; intros moved flag;
    cbn [backfillRoute].
  - apply traceP_ret.
  - apply traceP_bind; [apply traceP_gets|]. intros [destChannel|]; [|apply IH].
    destruct (str_eqb _ _); [apply IH|].
    apply traceP_bind; [apply traceP_gets|]. intros t.
    apply traceP_buildLinkEmbed_accepted. intros Ha.
    apply traceP_bind; [|intros; apply IH].
    apply traceP_chSend. simpl. constructor; [|constructor].
    now apply description_limit.
Qed.

Lemma limit_scanPage `{Runtime} channel messages : forall moved,
  traceP sends_within_limit (scanPage channel messages moved).
Proof.
  induction messages as [|msg rest IH]; intros moved; cbn [scanPage].
  - apply traceP_ret.
  - destruct (_ <? _)%Z; [apply traceP_ret|].
    destruct (bot _); [apply IH|].
    destruct (extractUrls _); [|apply IH].
    apply traceP_bind; [apply limit_backfillRoute|].
    intros [moved' flag]. apply traceP_bind; [|intros _; apply IH].
    destruct flag; [|apply traceP_ret].
    apply traceP_tryCatch; [|apply traceP_ret].
    now apply traceP_msgDelete.
Qed.

Lemma limit_scanLoop `{Runtime} channel fuel : forall lastId moved,
  traceP sends_within_limit (scanLoop fuel channel lastId moved).
Proof.
  induction fuel as [|fuel IH]; intros lastId moved; cbn [scanLoop].
  - intros w. constructor.
  - apply traceP_bind.
    + apply traceP_tryCatch; [|apply traceP_ret].
      apply traceP_bind; [|intros; apply traceP_ret].
      now apply traceP_fetchMessages.
    + intros [[|m page]|]; try apply traceP_ret.
      apply traceP_bind; [apply limit_scanPage|].
      intros [reachedCutoff moved']. apply traceP_bind; [now apply traceP_emit|].
      intros _. destruct reachedCutoff; [apply traceP_ret|apply IH].
Qed.

Lemma limit_scanChannels `{Runtime} channels : forall total,
  traceP sends_within_limit (scanChannels channels total).
Proof.
  induction channels as [|channel rest IH]; intros total; cbn [scanChannels].
  - apply traceP_ret.
  - apply traceP_bind; [|intros; apply IH].
    unfold scanChannel. destruct (includes _ _); [apply traceP_ret|].
    apply traceP_bind; [apply traceP_gets|]. intros. apply limit_scanLoop.
Qed.

(** X26. A record is composed before it is sent, outside any [try], and the
    builder refuses a description of more than 4096 code units. So no
    such record is ever sent, by the handler or by the scanner; and when
    the first record that the handler has to make for a message is one,
    the handler rejects at once, whatever the platform would do: it makes
    no call, the message stays where it is and nobody is told. *)
Theorem oversized_records `{Runtime} (message : Message) (w : World) :
  Forall sends_within_limit (acts (messageCreate message w))
  /\ (forall guild, Forall sends_within_limit (acts (backfillGuild guild w)))
  /\ (forall urls category us rest destChannel,
        bot (msg_author message) = false ->
        msg_guild message <> None ->
        isThread (msg_channel message) = false ->
        isDestinationChannel w (ch_id (msg_channel message)) = false ->
        extractUrls (msg_content message) = Some urls ->
        includes (default [] (ch_name (msg_channel message))) private_marker
        = false ->
        toRouteOf w message urls = (category, us) :: rest ->
        dc_get (destinationChannels w) category = Some destChannel ->
        ~ within_limit
            (buildLinkEmbed (clock w) category us (msg_author message)
               (Some (msg_channel message)) (Some (msg_createdAt message))) ->
        messageCreate message w = mkRes Throw w []).
Proof.
  split; [|split].
  - rewrite messageCreate_unfold.
    destruct (bot _); [constructor|].
    destruct (msg_guild message); [|constructor].
    destruct (isThread _); [constructor|].
    destruct (isDestinationChannel _ _).
    { apply traceP_at. unfold strictIntercept, getOrCreateLatestThread,
        existingThreadOf, msgDelete, fetchMessages, threadFetch, setArchived,
        startThread, threadSend, chSend.
      trace_auto; simpl; auto. }
    destruct (extractUrls _) as [urls|]; [|constructor].
    destruct (includes _ _).
    { apply traceP_at. unfold privateBlock, msgDelete, chSend.
      trace_auto; simpl; auto. }
    destruct (toRouteOf w message urls) as [|e toRoute]; [constructor|].
    apply traceP_at. unfold routeAndNotify.
    apply traceP_bind; [apply limit_routeLinks|]. intros routed.
    unfold deleteAndNotify, msgDelete, chSend.
    trace_auto; simpl; auto.
  - intros guild. apply traceP_at. unfold backfillGuild.
    apply traceP_bind; [apply traceP_gets|]. intros. apply limit_scanChannels.
  - intros urls category us rest destChannel Hbot Hg Ht Hd Hu Hp Et Hdc Hlong.
    rewrite messageCreate_unfold, Hbot, Ht, Hd, Hu, Hp, Et.
    destruct (msg_guild message); [|congruence].
    assert (E : routeLinks message ((category, us) :: rest) [] w
                = mkRes Throw w []).
    { cbn [routeLinks]. rewrite bind_gets, Hdc, bind_gets, bind_buildLinkEmbed.
      destruct (embed_accepted _) eqn:Ea; [|reflexivity].
      exfalso. apply Hlong. now apply description_limit. }
    unfold routeAndNotify, bind. now rewrite E.
Qed.

Lemma oversized_records_witness :
  messageCreate Oversized.message
    (set_faults [true; true] Fixture.w0)
  = mkRes Throw (set_faults [true; true] Fixture.w0) [].
Proof.
  destruct (oversized_records Oversized.message
              (set_faults [true; true] Fixture.w0)) as (_ & _ & Hstop).
  apply (Hstop [Oversized.link] other [Oversized.link] [] Fixture.links).
  - reflexivity.
  - discriminate.
  - reflexivity.
  - reflexivity.
  - vm_compute. reflexivity.
  - reflexivity.
  - vm_compute. reflexivity.
  - reflexivity.
  - unfold within_limit. vm_compute. lia.
Defined.
